(** * Scholarly Reader: the LaTeX → HTML conversion engine, embedded in Rocq

    The development follows the JavaScript sources:
    - [tex2html.js]            ([applyMacros], [extractBibliography],
                                [cleanText]),
    - [arxiv-pipeline.js]      ([extractSections], the citation badge pass,
                                [extractBracedContent], [extractMetadata],
                                [normalizeCitations], [processSection],
                                [extractBibliography], the loop over the
                                sections of [importArxiv]),
    - [tools/resolve-refs.js]  ([collectLabels], [resolveRefs]),
    - [tools/extract-figures.js] ([extractFigures], [replaceFiguresInText]),
    - [tools/render-math.js]   ([renderMath], [renderAllMath], [setCustomMacros],
                                [extractKatexMacros]),
    - [tools/convert-tables.js] ([parseTabular], [tableToMarkdown],
                                [tableToHtml], [convertTables]).

    JavaScript strings are modelled as [string] (one [ascii] per code unit,
    which is exact on ASCII text), regular expressions as a small syntax tree
    interpreted by a backtracking matcher with the priorities of the
    ECMAScript matcher (greedy and lazy repetition, ordered alternation,
    captures, back-references, negative look-ahead and look-behind). *)

From stdpp Require Import gmap strings list.
From Stdlib Require Import Ascii NArith.
From Stdlib Require String.

(** ** JavaScript string primitives *)

Module Js.

Definition chr (n : nat) : ascii := ascii_of_nat n.
Definition str1 (c : ascii) : string := String c EmptyString.

(** Characters that cannot be written inside a Rocq string literal. *)
Definition dq : string := str1 (chr 34).
Definition nl : string := str1 (chr 10).

Definition code (c : ascii) : nat := nat_of_ascii c.
Definition between (lo hi : nat) (c : ascii) : bool :=
  Nat.leb lo (code c) && Nat.leb (code c) hi.

Definition is_upper : ascii -> bool := between 65 90.
Definition is_lower : ascii -> bool := between 97 122.
Definition is_alpha (c : ascii) : bool := is_upper c || is_lower c.
Definition is_digit : ascii -> bool := between 48 57.
(** [\w] *)
Definition is_word (c : ascii) : bool :=
  is_alpha c || is_digit c || Ascii.eqb c "_".
(** [\s] and the characters removed by [trim] (ASCII part). *)
Definition is_space (c : ascii) : bool :=
  between 9 13 c || Ascii.eqb c " ".
Definition any_char (_ : ascii) : bool := true.
Definition is_char (d : ascii) (c : ascii) : bool := Ascii.eqb c d.
Definition not_char (d : ascii) (c : ascii) : bool := negb (Ascii.eqb c d).

Fixpoint rev_onto (s acc : string) : string :=
  match s with
  | EmptyString => acc
  | String c s' => rev_onto s' (String c acc)
  end.
Definition reverse (s : string) : string := rev_onto s EmptyString.

Fixpoint trimStart (s : string) : string :=
  match s with
  | EmptyString => EmptyString
  | String c s' => if is_space c then trimStart s' else s
  end.
Definition trimEnd (s : string) : string := reverse (trimStart (reverse s)).
(** [String.prototype.trim] *)
Definition trim (s : string) : string := trimEnd (trimStart s).

Fixpoint first_n (n : nat) (s : string) : string :=
  match n, s with
  | S n', String c s' => String c (first_n n' s')
  | _, _ => EmptyString
  end.
Fixpoint skip_n (n : nat) (s : string) : string :=
  match n, s with
  | S n', String _ s' => skip_n n' s'
  | _, _ => s
  end.

(** [strip_prefix p s] is the rest of [s] after the prefix [p], if any. *)
Fixpoint strip_prefix (p s : string) : option string :=
  match p with
  | EmptyString => Some s
  | String a p' =>
      match s with
      | String b s' => if Ascii.eqb a b then strip_prefix p' s' else None
      | EmptyString => None
      end
  end.
Definition startsWith (s p : string) : bool :=
  match strip_prefix p s with Some _ => true | None => false end.

(** [String.prototype.includes] *)
Fixpoint includes (s needle : string) : bool :=
  startsWith s needle ||
  match s with
  | EmptyString => false
  | String _ s' => includes s' needle
  end.

Fixpoint last_char (s : string) (d : option ascii) : option ascii :=
  match s with
  | EmptyString => d
  | String c s' => last_char s' (Some c)
  end.

Definition concat_all (l : list string) : string :=
  foldr String.append EmptyString l.

(** [Array.prototype.join] *)
Fixpoint join (sep : string) (l : list string) : string :=
  match l with
  | [] => EmptyString
  | [x] => x
  | x :: l' => x +:+ sep +:+ join sep l'
  end.

(** [String.prototype.split] with a non-empty string separator. *)
Fixpoint split_go (sep : string) (skip : nat) (cur : string) (s : string)
  : list string :=
  match s with
  | EmptyString => [reverse cur]
  | String c s' =>
      match skip with
      | S n => split_go sep n cur s'
      | O =>
          match strip_prefix sep s with
          | Some _ => reverse cur :: split_go sep (String.length sep - 1) EmptyString s'
          | None => split_go sep 0 (String c cur) s'
          end
      end
  end.
Definition split_on (sep s : string) : list string := split_go sep 0 EmptyString s.

Fixpoint all_chars (p : ascii -> bool) (s : string) : bool :=
  match s with
  | EmptyString => true
  | String c s' => p c && all_chars p s'
  end.

(** Text without a backslash: no LaTeX command starts in it. *)
Definition plain (s : string) : bool := all_chars (not_char "\") s.

(** Decimal rendering of a number inside a template literal. *)
Definition digit (n : nat) : ascii := chr (48 + n).
Fixpoint nat_to_string_go (fuel n : nat) (acc : string) : string :=
  match fuel with
  | O => acc
  | S fuel' =>
      let acc' := String (digit (n mod 10)) acc in
      if Nat.ltb n 10 then acc' else nat_to_string_go fuel' (n / 10) acc'
  end.
Definition nat_to_string (n : nat) : string := nat_to_string_go (S n) n EmptyString.

End Js.

(** ** Regular expressions *)

Module Re.
Import Js.

Inductive regex : Type :=
| Lit (s : string)                 (* literal text *)
| Cls (p : ascii -> bool)          (* one character of a class *)
| Seq (a b : regex)
| Alt (a b : regex)                (* a|b, left first *)
| Star (greedy : bool) (a : regex) (* a* and a*? *)
| Grp (n : nat) (a : regex)        (* n-th capture group *)
| Ref (n : nat)                    (* back-reference \n *)
| NotAhead (a : regex)             (* (?!a) *)
| NotBehind (p : ascii -> bool).   (* (?<!c), one character *)

Definition Opt (a : regex) : regex := Alt a (Lit EmptyString).
Definition Plus (greedy : bool) (a : regex) : regex := Seq a (Star greedy a).

Declare Scope regex_scope.
Delimit Scope regex_scope with re.
Bind Scope regex_scope with regex.
Infix "·" := Seq (at level 41, right associativity) : regex_scope.

(** Matcher state: the character before the cursor, the text after it and the
    captures made so far (most recent first). *)
Record mstate : Type := MState {
  m_prev : option ascii;
  m_rest : string;
  m_caps : list (nat * string)
}.

Definition kont : Type := mstate -> option mstate.

Fixpoint get_cap (n : nat) (caps : list (nat * string)) : option string :=
  match caps with
  | [] => None
  | (i, s) :: caps' => if Nat.eqb i n then Some s else get_cap n caps'
  end.

(** The text between two cursors of the same input. *)
Definition consumed (s s' : string) : string :=
  first_n (String.length s - String.length s') s.

Definition lit_step (l : string) (k : kont) (st : mstate) : option mstate :=
  match strip_prefix l (m_rest st) with
  | Some rest' => k (MState (last_char l (m_prev st)) rest' (m_caps st))
  | None => None
  end.

Definition cls_step (p : ascii -> bool) (k : kont) (st : mstate) : option mstate :=
  match m_rest st with
  | String c rest' => if p c then k (MState (Some c) rest' (m_caps st)) else None
  | EmptyString => None
  end.

(** One repetition must consume input (the ECMAScript empty check); the fuel
    is the length of the remaining input, which bounds the repetitions. *)
Definition star_loop (greedy : bool) (body : kont -> kont) (k : kont)
  : nat -> kont :=
  fix loop (fuel : nat) (st : mstate) {struct fuel} : option mstate :=
    match fuel with
    | O => k st
    | S fuel' =>
        let again :=
          body (fun st' =>
                  if Nat.ltb (String.length (m_rest st')) (String.length (m_rest st))
                  then loop fuel' st' else None) st in
        if greedy
        then match again with Some r => Some r | None => k st end
        else match k st with Some r => Some r | None => again end
    end.

Fixpoint rmatch (r : regex) (k : kont) (st : mstate) {struct r} : option mstate :=
  match r with
  | Lit l => lit_step l k st
  | Cls p => cls_step p k st
  | Seq a b => rmatch a (rmatch b k) st
  | Alt a b =>
      match rmatch a k st with
      | Some res => Some res
      | None => rmatch b k st
      end
  | Star g a => star_loop g (rmatch a) k (String.length (m_rest st)) st
  | Grp n a =>
      rmatch a (fun st' =>
        k (MState (m_prev st') (m_rest st')
                  ((n, consumed (m_rest st) (m_rest st')) :: m_caps st'))) st
  | Ref n =>
      lit_step (default EmptyString (get_cap n (m_caps st))) k st
  | NotAhead a =>
      match rmatch a Some st with
      | Some _ => None
      | None => k st
      end
  | NotBehind p =>
      match m_prev st with
      | Some c => if p c then None else k st
      | None => k st
      end
  end.

(** A successful match: [index], [m[0]] and the capture groups. *)
Record jsmatch : Type := JsMatch {
  m_index : nat;
  m_text : string;
  m_groups : list (nat * string)
}.

(** [m[n]]; a group that did not take part reads as the empty string here
    (it is [undefined] in JavaScript, which every use below prints or tests
    as empty). *)
Definition group (n : nat) (m : jsmatch) : string :=
  default EmptyString (get_cap n (m_groups m)).

Definition match_at (r : regex) (idx : nat) (prev : option ascii) (s : string)
  : option jsmatch :=
  match rmatch r Some (MState prev s []) with
  | Some st => Some (JsMatch idx (consumed s (m_rest st)) (m_caps st))
  | None => None
  end.

(** The scan of a global regular expression over a text: the characters
    outside the matches and the matches, in order.  After a match the scan
    resumes behind it (one character further after an empty match). *)
Inductive token : Type :=
| TChar (c : ascii)
| TMatch (m : jsmatch).

Fixpoint scan (r : regex) (skip idx : nat) (prev : option ascii) (s : string)
  : list token :=
  match skip with
  | S n =>
      match s with
      | String c s' => scan r n (S idx) (Some c) s'
      | EmptyString => []
      end
  | O =>
      match match_at r idx prev s with
      | Some m =>
          TMatch m ::
          match s with
          | String c s' =>
              match String.length (m_text m) with
              | O => TChar c :: scan r 0 (S idx) (Some c) s'
              | S n => scan r n (S idx) (Some c) s'
              end
          | EmptyString => []
          end
      | None =>
          match s with
          | String c s' => TChar c :: scan r 0 (S idx) (Some c) s'
          | EmptyString => []
          end
      end
  end.

Definition tokens (r : regex) (s : string) : list token := scan r 0 0 None s.

(** The tokens of a text in which nothing matches. *)
Fixpoint chars (s : string) : list token :=
  match s with
  | EmptyString => []
  | String c s' => TChar c :: chars s'
  end.

(** The successive results of [re.exec(text)] in a [while] loop. *)
Fixpoint matches_of (ts : list token) : list jsmatch :=
  match ts with
  | [] => []
  | TChar _ :: ts' => matches_of ts'
  | TMatch m :: ts' => m :: matches_of ts'
  end.
Definition exec_all (r : regex) (s : string) : list jsmatch :=
  matches_of (tokens r s).

(** [text.replace(re, callback)] where the callback owns a mutable state. *)
Fixpoint render_st {S : Type} (f : S -> jsmatch -> string * S) (st : S)
  (ts : list token) : string * S :=
  match ts with
  | [] => (EmptyString, st)
  | TChar c :: ts' =>
      let '(out, st') := render_st f st ts' in (String c out, st')
  | TMatch m :: ts' =>
      let '(rep, st1) := f st m in
      let '(out, st2) := render_st f st1 ts' in
      (rep +:+ out, st2)
  end.
Definition replace_st {S : Type} (r : regex) (f : S -> jsmatch -> string * S)
  (st : S) (s : string) : string * S :=
  render_st f st (tokens r s).

(** [text.replace(re, callback)] with a pure callback. *)
Fixpoint render (f : jsmatch -> string) (ts : list token) : string :=
  match ts with
  | [] => EmptyString
  | TChar c :: ts' => String c (render f ts')
  | TMatch m :: ts' => f m +:+ render f ts'
  end.
Definition replace_fn (r : regex) (f : jsmatch -> string) (s : string) : string :=
  render f (tokens r s).

(** The number of capture groups of a pattern. *)
Fixpoint ngroups (r : regex) : nat :=
  match r with
  | Seq a b | Alt a b => Nat.max (ngroups a) (ngroups b)
  | Star _ a | NotAhead a => ngroups a
  | Grp n a => Nat.max n (ngroups a)
  | _ => 0
  end.

Definition digit_val (c : ascii) : option nat :=
  if is_digit c then Some (code c - 48) else None.

(** [GetSubstitution]: the replacement patterns of a replacement STRING:
    [$$], [$&], [$`], [$'], [$n] and [$nn]. *)
Fixpoint expand (ng : nat) (input : string) (m : jsmatch) (tmpl : string)
  : string :=
  match tmpl with
  | EmptyString => EmptyString
  | String c t1 =>
      if negb (Ascii.eqb c "$") then String c (expand ng input m t1) else
      match t1 with
      | EmptyString => str1 c
      | String d t2 =>
          if Ascii.eqb d "$" then String "$" (expand ng input m t2)
          else if Ascii.eqb d "&" then m_text m +:+ expand ng input m t2
          else if Ascii.eqb d "`" then first_n (m_index m) input +:+ expand ng input m t2
          else if Ascii.eqb d "'" then
            skip_n (m_index m + String.length (m_text m)) input +:+ expand ng input m t2
          else
            match digit_val d with
            | None => String c (expand ng input m t1)
            | Some n1 =>
                let two :=
                  match t2 with
                  | String e t3 =>
                      match digit_val e with
                      | Some n2 =>
                          let nn := 10 * n1 + n2 in
                          if Nat.leb 1 nn && Nat.leb nn ng
                          then Some (group nn m +:+ expand ng input m t3)
                          else None
                      | None => None
                      end
                  | EmptyString => None
                  end in
                match two with
                | Some out => out
                | None =>
                    if Nat.leb 1 n1 && Nat.leb n1 ng
                    then group n1 m +:+ expand ng input m t2
                    else String c (expand ng input m t1)
                end
            end
      end
  end.

(** [text.replace(re, replacementString)] *)
Definition replace_str (r : regex) (tmpl : string) (s : string) : string :=
  replace_fn r (fun m => expand (ngroups r) s m tmpl) s.

(** *** Notions used to reason about patterns *)

(** [starts_with a s]: the text [s] begins with the character [a]. *)
Definition starts_with (a : ascii) (s : string) : bool :=
  match s with
  | String c _ => Ascii.eqb c a
  | EmptyString => false
  end.

(** A pattern that can only match where the text begins with [a]. *)
Definition anchored (a : ascii) (r : regex) : Prop :=
  forall k st, starts_with a (m_rest st) = false -> rmatch r k st = None.

(** [steps X P]: on a character of the class [P] the item [X] can consume it
    and go on. *)
Definition steps (X : regex) (P : ascii -> bool) : Prop :=
  forall k prev c s caps res,
    P c = true ->
    k (MState (Some c) s caps) = Some res ->
    rmatch X k (MState prev (String c s) caps) = Some res.

End Re.

(** ** JavaScript objects used as dictionaries *)

Module JsObj.
Import Js.

(** Keys that are canonical array indices are enumerated first, in numeric
    order, by [Object.entries]; the other keys follow in insertion order. *)
Fixpoint to_N_go (s : string) (acc : N) : N :=
  match s with
  | EmptyString => acc
  | String c s' => to_N_go s' (10 * acc + N.of_nat (code c - 48))%N
  end.
Definition to_N (s : string) : N := to_N_go s 0%N.

Definition is_index (k : string) : bool :=
  match k with
  | EmptyString => false
  | String c k' =>
      all_chars is_digit k &&
      (negb (Ascii.eqb c "0") || String.eqb k' EmptyString) &&
      N.ltb (to_N k) 4294967295%N
  end.

(** [Object.entries(o)] of an object literal built by assignments. *)
Definition entries (V : Type) : Type := list (string * V).

Fixpoint entries_get {V} (o : entries V) (k : string) : option V :=
  match o with
  | [] => None
  | (k', v) :: o' => if String.eqb k' k then Some v else entries_get o' k
  end.

Fixpoint entries_update {V} (o : entries V) (k : string) (v : V) : entries V :=
  match o with
  | [] => []
  | (k', v') :: o' =>
      if String.eqb k' k then (k', v) :: o' else (k', v') :: entries_update o' k v
  end.

Fixpoint entries_insert_index {V} (o : entries V) (k : string) (v : V) : entries V :=
  match o with
  | [] => [(k, v)]
  | (k', v') :: o' =>
      if is_index k' && N.ltb (to_N k') (to_N k)
      then (k', v') :: entries_insert_index o' k v
      else (k, v) :: o
  end.

(** [o[k] = v] on a plain object: an existing key keeps its place; assigning
    to [__proto__] creates no own property. *)
Definition entries_set {V} (o : entries V) (k : string) (v : V) : entries V :=
  if String.eqb k "__proto__" then o
  else match entries_get o k with
       | Some _ => entries_update o k v
       | None => if is_index k then entries_insert_index o k v else o ++ [(k, v)]
       end.

(** [{...a, ...b}] *)
Definition entries_spread {V} (a b : entries V) : entries V :=
  fold_left (fun o kv => entries_set o (fst kv) (snd kv)) b a.

(** The property names every plain object inherits from [Object.prototype]. *)
Definition objectPrototype : list string :=
  [ "constructor"; "toString"; "toLocaleString"; "valueOf"; "hasOwnProperty";
    "isPrototypeOf"; "propertyIsEnumerable"; "__proto__";
    "__defineGetter__"; "__defineSetter__"; "__lookupGetter__";
    "__lookupSetter__" ].

Definition inherited (k : string) : bool :=
  existsb (String.eqb k) objectPrototype.

(** The result of the property read [o[k]] on an object whose own properties
    hold numbers. *)
Inductive value : Type :=
| VNum (n : nat)
| VInherited (k : string)
| VUndefined.

Definition get (o : gmap string nat) (k : string) : value :=
  match o !! k with
  | Some n => VNum n
  | None => if inherited k then VInherited k else VUndefined
  end.

Definition set (o : gmap string nat) (k : string) (n : nat) : gmap string nat :=
  if String.eqb k "__proto__" then o else <[k := n]> o.

Definition truthy (v : value) : bool :=
  match v with
  | VNum n => negb (Nat.eqb n 0)
  | VInherited _ => true
  | VUndefined => false
  end.

(** [String(v)] for the inherited members (as printed by Node.js). *)
Definition inherited_to_string (k : string) : string :=
  if String.eqb k "__proto__" then "[object Object]"
  else "function " +:+ (if String.eqb k "constructor" then "Object" else k)
         +:+ "() { [native code] }".

End JsObj.

(** ** Structural segmenter: [extractSections] (arxiv-pipeline.js) *)

Module Sections.
Import Js Re.
Local Open Scope regex_scope.

Record section : Type := Section_ {
  title : string;
  content : string;
  number : nat
}.

Record sectionStart : Type := SectionStart {
  ss_title : string;
  ss_index : nat;
  ss_fullMatch : string
}.

(** [/\\section\*?\{([^}]+)\}/g] *)
Definition sectionPattern : regex :=
  Lit "\section" · Opt (Lit "*") · Lit "{" ·
  Grp 1 (Plus true (Cls (not_char "}"))) · Lit "}".

Definition sectionStarts (body : string) : list sectionStart :=
  map (fun m => SectionStart (group 1 m) (m_index m) (m_text m))
      (exec_all sectionPattern body).

(** [body.substring(a, b)] for [a <= b] *)
Definition substring (a b : nat) (s : string) : string := first_n (b - a) (skip_n a s).

Definition section_at (body : string) (starts : list sectionStart) (i : nat)
  : option section :=
  match starts !! i with
  | None => None
  | Some s =>
      let start := ss_index s + String.length (ss_fullMatch s) in
      let end_ := match starts !! (i + 1) with
                  | Some s' => ss_index s'
                  | None => String.length body
                  end in
      Some (Section_ (ss_title s) (trim (substring start end_ body)) (i + 1))
  end.

Definition extractSections (body : string) : list section :=
  let starts := sectionStarts body in
  omap (section_at body starts) (seq 0 (length starts)).

End Sections.

(** ** Label resolver: [collectLabels] and [resolveRefs] (resolve-refs.js) *)

Module Labels.
Import Js Re.
Local Open Scope regex_scope.

Inductive label_type : Type := equation | figure | table | section | unknown.

(** [number] is a counter value or the string ['?']. *)
Inductive label_number : Type := Num (n : nat) | Question.

Record label : Type := Label { type : label_type; number : label_number }.

(** [[^}]+] *)
Definition key_chars : regex := Plus true (Cls (not_char "}")).
(** [[\s\S]*?] *)
Definition lazy_any : regex := Star false (Cls any_char).

Definition eqPattern : regex :=
  Lit "\begin{" ·
  Grp 1 (Alt (Lit "equation") (Alt (Lit "align") (Lit "gather"))) ·
  Opt (Lit "*") · Lit "}" · lazy_any ·
  Lit "\label{" · Grp 2 key_chars · Lit "}" · lazy_any ·
  Lit "\end{" · Ref 1 · Opt (Lit "*") · Lit "}".

Definition envPattern (env : string) : regex :=
  Lit ("\begin{" +:+ env) · Opt (Lit "*") · Lit "}" · lazy_any ·
  Lit "\label{" · Grp 1 key_chars · Lit "}" · lazy_any ·
  Lit ("\end{" +:+ env) · Opt (Lit "*") · Lit "}".

Definition figPattern : regex := envPattern "figure".
Definition tabPattern : regex := envPattern "table".

(** [/\\(?:sub)*section\*?\{[^}]+\}\s*\\label\{([^}]+)\}/g] *)
Definition secPattern : regex :=
  Lit "\" · Star true (Lit "sub") · Lit "section" · Opt (Lit "*") ·
  Lit "{" · key_chars · Lit "}" · Star true (Cls is_space) ·
  Lit "\label{" · Grp 1 key_chars · Lit "}".

Definition standalonePattern : regex :=
  Lit "\label{" · Grp 1 key_chars · Lit "}".

(** The keys captured by the successive [exec] calls of one loop. *)
Definition keys_of (r : regex) (g : nat) (text : string) : list string :=
  map (group g) (exec_all r text).

(** One [while] loop of a numbered kind:
    [labels.set(key, { type, number: ++n })] for each match. *)
Definition typed_step (ty : label_type) (acc : gmap string label * nat)
  (key : string) : gmap string label * nat :=
  let n := S (snd acc) in
  (<[key := Label ty (Num n)]> (fst acc), n).

Definition typed_pass (ty : label_type) (keys : list string)
  (labels : gmap string label) : gmap string label :=
  fst (fold_left (typed_step ty) keys (labels, 0)).

(** The catch-all loop: [if (!labels.has(key)) labels.set(key, unknown)]. *)
Definition standalone_step (labels : gmap string label) (key : string)
  : gmap string label :=
  match labels !! key with
  | Some _ => labels
  | None => <[key := Label unknown Question]> labels
  end.

Definition standalone_pass (keys : list string) (labels : gmap string label)
  : gmap string label :=
  fold_left standalone_step keys labels.

Definition collectLabels (text : string) : gmap string label :=
  let labels := typed_pass equation (keys_of eqPattern 2 text) ∅ in
  let labels := typed_pass figure (keys_of figPattern 1 text) labels in
  let labels := typed_pass table (keys_of tabPattern 1 text) labels in
  let labels := typed_pass section (keys_of secPattern 1 text) labels in
  standalone_pass (keys_of standalonePattern 1 text) labels.

(** The [labels.set] calls of the four numbered loops, in execution order. *)
Fixpoint numbered_from (ty : label_type) (n : nat) (keys : list string)
  : list (string * label) :=
  match keys with
  | [] => []
  | key :: keys' => (key, Label ty (Num (S n))) :: numbered_from ty (S n) keys'
  end.
Definition numbered (ty : label_type) (keys : list string)
  : list (string * label) :=
  numbered_from ty 0 keys.

(** The value of the first and of the last [set] of a key in a trace. *)
Fixpoint first_assignment (k : string) (trace : list (string * label))
  : option label :=
  match trace with
  | [] => None
  | (k', v) :: trace' =>
      if String.eqb k' k then Some v else first_assignment k trace'
  end.
Fixpoint last_assignment (k : string) (trace : list (string * label))
  : option label :=
  match trace with
  | [] => None
  | (k', v) :: trace' =>
      match last_assignment k trace' with
      | Some v' => Some v'
      | None => if String.eqb k' k then Some v else None
      end
  end.

Definition typed_assignments (text : string) : list (string * label) :=
  numbered equation (keys_of eqPattern 2 text) ++
  numbered figure (keys_of figPattern 1 text) ++
  numbered table (keys_of tabPattern 1 text) ++
  numbered section (keys_of secPattern 1 text).

(** An example document: an equation without a label, a labelled figure, a
    labelled equation. *)
Definition spanning_document : string :=
  "\begin{equation}x\end{equation}" +:+
  "\begin{figure}\label{f}\end{figure}" +:+
  "\begin{equation}\label{e}\end{equation}".

Definition number_to_string (n : label_number) : string :=
  match n with
  | Num n => nat_to_string n
  | Question => "?"
  end.

(** [{ equation: 'Eq.', figure: 'Fig.', table: 'Table', section: 'Section' }[type] || ''] *)
Definition ref_prefix (ty : label_type) : string :=
  match ty with
  | equation => "Eq."
  | figure => "Fig."
  | table => "Table"
  | section => "Section"
  | unknown => EmptyString
  end.

Definition autoref_prefix (ty : label_type) : string :=
  match ty with
  | equation => "Equation"
  | figure => "Figure"
  | table => "Table"
  | section => "Section"
  | unknown => EmptyString
  end.

Definition keyed (cmd : string) : regex :=
  Lit ("\" +:+ cmd +:+ "{") · Grp 1 key_chars · Lit "}".

Definition eqref_cb (labels : gmap string label) (m : jsmatch) : string :=
  let key := group 1 m in
  match labels !! key with
  | Some l =>
      "<a href=" +:+ dq +:+ "#" +:+ key +:+ dq +:+ " class=" +:+ dq +:+ "eq-ref"
      +:+ dq +:+ ">(" +:+ number_to_string (number l) +:+ ")</a>"
  | None => "(?)"
  end.

Definition cross_ref (prefix : label_type -> string)
  (labels : gmap string label) (m : jsmatch) : string :=
  let key := group 1 m in
  match labels !! key with
  | Some l =>
      "<a href=" +:+ dq +:+ "#" +:+ key +:+ dq +:+ " class=" +:+ dq +:+ "cross-ref"
      +:+ dq +:+ ">" +:+ prefix (type l) +:+ " " +:+ number_to_string (number l)
      +:+ "</a>"
  | None => "?"
  end.

Definition anchor_cb (m : jsmatch) : string :=
  "<span id=" +:+ dq +:+ group 1 m +:+ dq +:+ " class=" +:+ dq +:+ "label-anchor"
  +:+ dq +:+ "></span>".

Definition resolveRefs (text : string) (labels : gmap string label) : string :=
  let result := text in
  let result := replace_fn (keyed "eqref") (eqref_cb labels) result in
  let result := replace_fn (keyed "ref") (cross_ref ref_prefix labels) result in
  let result := replace_fn (keyed "autoref") (cross_ref autoref_prefix labels) result in
  replace_fn (keyed "label") anchor_cb result.

End Labels.

(** ** Figure extractor: extract-figures.js *)

Module Figures.
Import Js Re.
Local Open Scope regex_scope.

Record figure : Type := Figure {
  id : nat;
  label : string;
  caption : string;
  images : list string;
  width : option string
}.

(** The collaborators of the extractor: the file system and the external
    converters, acting on a world [W], and Node's [path] functions. *)
Record host (W : Type) : Type := Host {
  existsSync : W -> string -> bool;
  (** [fs.mkdirSync(dir, { recursive: true })]: [None] when it throws. *)
  mkdirSync : W -> string -> option W;
  (** [fs.copyFileSync(src, dest)]: [None] when it throws. *)
  copyFileSync : W -> string -> string -> option W;
  (** [execSync(cmd)], always called inside a [try]: [false] when the
      command throws. *)
  execSync : W -> string -> bool * W;
  path_join : string -> string -> string;
  path_basename : string -> string;
  path_basename_ext : string -> string -> string;
  path_extname : string -> string
}.
Arguments existsSync {W}.
Arguments mkdirSync {W}.
Arguments copyFileSync {W}.
Arguments execSync {W}.
Arguments path_join {W}.
Arguments path_basename {W}.
Arguments path_basename_ext {W}.
Arguments path_extname {W}.

Definition lower (c : ascii) : ascii :=
  if is_upper c then chr (code c + 32) else c.
Fixpoint toLowerCase (s : string) : string :=
  match s with
  | EmptyString => EmptyString
  | String c s' => String (lower c) (toLowerCase s')
  end.

Definition quoted (s : string) : string := dq +:+ s +:+ dq.

(** [escapeHtml] of the tools (quotes included). *)
Definition escapeHtml (str : string) : string :=
  replace_str (Lit dq) "&quot;"
    (replace_str (Lit ">") "&gt;"
       (replace_str (Lit "<") "&lt;"
          (replace_str (Lit "&") "&amp;" str))).

Definition lazy_any : regex := Star false (Cls any_char).
Definition upto_brace : regex := Star true (Cls (not_char "}")).

Definition figurePattern : regex :=
  Lit "\begin{figure" · Opt (Lit "*") · Lit "}" · Grp 1 lazy_any ·
  Lit "\end{figure" · Opt (Lit "*") · Lit "}".

Definition captionPattern : regex :=
  Lit "\caption{" · Grp 1 lazy_any · Lit "}" ·
  Opt (Star true (Cls is_space) · Lit "\label").

Definition labelPattern : regex :=
  Lit "\label{" · Grp 1 (Plus true (Cls (not_char "}"))) · Lit "}".

Definition graphicsPattern : regex :=
  Lit "\includegraphics" ·
  Opt (Lit "[" · Star true (Cls (not_char "]")) · Lit "]") ·
  Lit "{" · Grp 1 (Plus true (Cls (not_char "}"))) · Lit "}".

(** [.] excludes the line terminators. *)
Definition dot (c : ascii) : bool := negb (Ascii.eqb c (chr 10) || Ascii.eqb c (chr 13)).

Definition widthPattern : regex :=
  Lit "\includegraphics[" · Star false (Cls dot) · Lit "width" ·
  Star true (Cls is_space) · Lit "=" · Star true (Cls is_space) ·
  Grp 1 (Plus true (Cls (fun c => negb (Ascii.eqb c "," || Ascii.eqb c "]")))).

(** [str.match(re)] without the [g] flag: the first match. *)
Definition first_match (r : regex) (s : string) : option jsmatch :=
  head (exec_all r s).

Definition cleanCaption (caption : string) : string :=
  let c := replace_str (Lit "\cite" · Opt (Lit "p") · Lit "{" · upto_brace · Lit "}")
             EmptyString caption in
  let c := replace_str (Lit "\textbf{" · Grp 1 upto_brace · Lit "}") "$1" c in
  let c := replace_str (Lit "\emph{" · Grp 1 upto_brace · Lit "}") "$1" c in
  let c := replace_str (Lit "\ref{" · upto_brace · Lit "}") "?" c in
  let c := replace_str (Lit "\label{" · upto_brace · Lit "}") EmptyString c in
  let c := replace_str (Plus true (Cls is_space)) " " c in
  trim c.

Section Extract.
Context {W : Type} (h : host W).

Definition hasPdftoppm (w : W) : bool * W := execSync h w "which pdftoppm".

Definition convertPdfToPng (pdfPath outputDir : string) (w : W)
  : option string * W :=
  let basename := path_basename_ext h pdfPath ".pdf" in
  let outputPrefix := path_join h outputDir basename in
  let png := basename +:+ ".png" in
  let '(has, w) := hasPdftoppm w in
  let '(done1, w) :=
    if has
    then execSync h w ("pdftoppm -png -r 300 -singlefile " +:+ quoted pdfPath +:+ " "
                       +:+ quoted outputPrefix)
    else (false, w) in
  if done1 then (Some png, w) else
  let '(which, w) := execSync h w "which convert" in
  let '(done2, w) :=
    if which
    then execSync h w ("convert -density 300 " +:+ quoted pdfPath +:+ " "
                       +:+ quoted (outputPrefix +:+ ".png"))
    else (false, w) in
  if done2 then (Some png, w) else
  let '(done3, w) :=
    execSync h w ("sips -s format png " +:+ quoted pdfPath +:+ " --out "
                  +:+ quoted (outputPrefix +:+ ".png") +:+ " 2>/dev/null") in
  if done3 && existsSync h w (outputPrefix +:+ ".png") then (Some png, w)
  else (None, w).

Definition extensions : list string :=
  [EmptyString; ".png"; ".jpg"; ".jpeg"; ".pdf"; ".eps"].

(** The first candidate path that exists. *)
Definition resolveImage (texBaseDir imgPath : string) (w : W) : option string :=
  head (filter (fun p => existsSync h w p = true)
          (map (fun ext => path_join h texBaseDir (imgPath +:+ ext)) extensions)).

(** The body of the [while] loop over [\includegraphics]: the file name to
    push, or no name where the source says [continue]; [None] when the copy
    of the image, which stands outside any [try], throws. *)
Definition processImage (texBaseDir figuresDir imgPath : string) (w : W)
  : option (option string * W) :=
  match resolveImage texBaseDir imgPath w with
  | None => Some (None, w)
  | Some resolved =>
      let ext := toLowerCase (path_extname h resolved) in
      if String.eqb ext ".pdf" then Some (convertPdfToPng resolved figuresDir w)
      else if existsb (String.eqb ext) [".png"; ".jpg"; ".jpeg"] then
        let outputFilename := path_basename h resolved in
        let dest := path_join h figuresDir outputFilename in
        if existsSync h w dest then Some (Some outputFilename, w)
        else
          match copyFileSync h w resolved dest with
          | Some w => Some (Some outputFilename, w)
          | None => None
          end
      else if String.eqb ext ".eps" then
        let basename := path_basename_ext h resolved ".eps" in
        let '(ok, w) :=
          execSync h w ("convert " +:+ quoted resolved +:+ " "
                        +:+ quoted (path_join h figuresDir (basename +:+ ".png"))) in
        if ok then Some (Some (basename +:+ ".png"), w) else Some (None, w)
      else Some (None, w)
  end.

(** A loop whose body may throw: the first exception ends it. *)
Fixpoint loop {A B : Type} (body : A -> B -> option A) (l : list B) (a : A)
  : option A :=
  match l with
  | [] => Some a
  | x :: l' =>
      match body a x with
      | Some a' => loop body l' a'
      | None => None
      end
  end.

Definition image_step (texBaseDir figuresDir : string)
  (acc : list string * W) (imgPath : string) : option (list string * W) :=
  match processImage texBaseDir figuresDir imgPath (snd acc) with
  | None => None
  | Some (Some outputFilename, w) => Some (fst acc ++ [outputFilename], w)
  | Some (None, w) => Some (fst acc, w)
  end.

(** One turn of the loop over the figure environments; every turn that does
    not throw pushes one figure, so the counter [index] is one more than the
    figures pushed. *)
Definition figure_step (texBaseDir figuresDir : string)
  (acc : list figure * W) (m : jsmatch) : option (list figure * W) :=
  let block := group 1 m in
  let index := S (length (fst acc)) in
  let caption :=
    match first_match captionPattern block with
    | Some cm => trim (group 1 cm)
    | None => "Figure " +:+ nat_to_string index
    end in
  let caption := cleanCaption caption in
  let label :=
    match first_match labelPattern block with
    | Some lm => group 1 lm
    | None => "fig:" +:+ nat_to_string index
    end in
  match
    loop (image_step texBaseDir figuresDir)
      (map (group 1) (exec_all graphicsPattern block)) ([], snd acc)
  with
  | None => None
  | Some (images, w) =>
      let width :=
        match first_match widthPattern block with
        | Some wm => Some (group 1 wm)
        | None => None
        end in
      Some (fst acc ++ [Figure index label caption images width], w)
  end.

(** [None] when an exception leaves the function: the figures directory
    cannot be made, or an image cannot be copied. *)
Definition extractFigures (texContent texBaseDir outputDir : string) (w : W)
  : option (list figure * W) :=
  let figuresDir := path_join h outputDir "figures" in
  match
    (if existsSync h w figuresDir then Some w else mkdirSync h w figuresDir)
  with
  | None => None
  | Some w =>
      loop (figure_step texBaseDir figuresDir)
        (exec_all figurePattern texContent) ([], w)
  end.

(** The image cannot be resolved or converted in any state of the file
    system that satisfies [P]: the loop body says [continue]. *)
Definition unusable (P : W -> Prop) (texBaseDir figuresDir imgPath : string)
  : Prop :=
  forall w, P w ->
    exists w', processImage texBaseDir figuresDir imgPath w = Some (None, w').

(** [P] is kept by everything that [extractFigures] does to the file
    system: making the figures directory, copying a file into it, running a
    converter. *)
Definition kept (P : W -> Prop) (figuresDir : string) : Prop :=
  (forall w w', P w -> mkdirSync h w figuresDir = Some w' -> P w') /\
  (forall w src name w',
     P w -> copyFileSync h w src (path_join h figuresDir name) = Some w' ->
     P w') /\
  (forall w cmd, P w -> P (snd (execSync h w cmd))).

End Extract.


(** The part of a path after its last slash, and the extension of that. *)
Definition basename_of (p : string) : string :=
  List.last (split_on "/" p) EmptyString.
Definition extname_of (p : string) : string :=
  match split_on "." (basename_of p) with
  | (_ :: _ :: _) as parts => "." +:+ List.last parts EmptyString
  | _ => EmptyString
  end.

(** A file system without converter: the state is the list of the paths
    that exist; making a directory and copying a file add a path, and a copy
    throws when its source is missing or the disk is full. *)
Definition diskHost (disk_full : bool) : host (list string) :=
  Host (list string)
    (fun w p => existsb (String.eqb p) w)
    (fun w dir => Some (dir :: w))
    (fun w src dest =>
       if disk_full || negb (existsb (String.eqb src) w) then None
       else Some (dest :: w))
    (fun w _ => (false, w)) (fun a b => a +:+ "/" +:+ b) basename_of
    (fun p _ => basename_of p) extname_of.

Definition img_tag (fig : figure) (img : string) : string :=
  "<img src=" +:+ quoted ("./figures/" +:+ img) +:+ " alt="
  +:+ quoted (escapeHtml (caption fig)) +:+ " loading=" +:+ quoted "lazy"
  +:+ " style=" +:+ quoted "max-width:100%" +:+ ">".

Definition figure_html (fig : figure) : string :=
  let imgs := join nl (map (img_tag fig) (images fig)) in
  nl +:+ "<figure id=" +:+ quoted (label fig) +:+ ">" +:+ nl +:+ imgs +:+ nl
  +:+ "<figcaption><strong>Figure " +:+ nat_to_string (id fig) +:+ ".</strong> "
  +:+ escapeHtml (caption fig) +:+ "</figcaption>" +:+ nl +:+ "</figure>" +:+ nl.

Definition figuresToHtml (figures : list figure) : string :=
  join nl (map figure_html figures).

Definition blockPattern : regex :=
  Lit "\begin{figure" · Opt (Lit "*") · Lit "}" · lazy_any ·
  Lit "\end{figure" · Opt (Lit "*") · Lit "}".

(** What the callback returns for [fig = figures[k]]. *)
Definition figure_replacement (fig : option figure) : string :=
  match fig with
  | None => EmptyString
  | Some fig =>
      match images fig with
      | [] => EmptyString
      | _ :: _ => figure_html fig
      end
  end.

(** The callback with its counter: [const fig = figures[figIndex++]]. *)
Definition figure_cb (figures : list figure) (figIndex : nat) (_ : jsmatch)
  : string * nat :=
  (figure_replacement (figures !! figIndex), S figIndex).

Definition replaceFiguresInText (text : string) (figures : list figure) : string :=
  fst (replace_st blockPattern (figure_cb figures) 0 text).

(** A figure environment, starred or not, after the text that precedes it. *)
Record block : Type := Block {
  before : string;
  starred : bool;
  body : string
}.





(** A document with two figures, of which only the first has its image in
    the source tree. *)
Definition mixed_document : string :=
  "\begin{figure}\includegraphics{plot}\caption{Loss}\end{figure} and "
  +:+ "\begin{figure}\includegraphics{missing}\caption{Attention}\end{figure}".
Definition mixed_host (disk_full : bool) : host (list string) :=
  diskHost disk_full.
Definition mixed_tree : list string := ["/src/plot.png"].
(** No path of the state begins with [/src/missing]. *)
Definition not_missing (w : list string) : Prop :=
  forallb (fun p => negb (startsWith p "/src/missing")) w = true.


End Figures.

(** ** Citation badges: the bracket pass of [importArxiv] (arxiv-pipeline.js) *)

Module Citations.
Import Js Re.
Local Open Scope regex_scope.

Record bibentry : Type := BibEntry {
  key : string;
  authors : string;
  title : string;
  venue : string;
  arxivId : string
}.

(** [escapeHtml] of the pipeline (quotes are not escaped). *)
Definition escapeHtml (str : string) : string :=
  replace_str (Lit ">") "&gt;"
    (replace_str (Lit "<") "&lt;"
       (replace_str (Lit "&") "&amp;" str)).

(** [bibliography.forEach((ref, i) => { keyToNum[ref.key] = i + 1; })] *)
Definition keyToNum_step (acc : gmap string nat * nat) (ref : bibentry)
  : gmap string nat * nat :=
  (JsObj.set (fst acc) (key ref) (snd acc + 1), S (snd acc)).

Definition build_keyToNum (bibliography : list bibentry) : gmap string nat :=
  fst (fold_left keyToNum_step bibliography (∅, 0)).

Definition key_char (c : ascii) : bool :=
  is_alpha c || is_digit c || Ascii.eqb c "_" || Ascii.eqb c ":" ||
  Ascii.eqb c "." || Ascii.eqb c "-".

(** [[A-Za-z][A-Za-z0-9_:.-]*] *)
Definition key_re : regex := Cls is_alpha · Star true (Cls key_char).

(** The bracket pattern of the badge pass: an opening bracket, group 1 made
    of a key followed by any number of [,\s*] and a key, a closing bracket. *)
Definition bracketPattern : regex :=
  Lit "[" ·
  Grp 1 (key_re · Star true (Lit "," · Star true (Cls is_space) · key_re)) ·
  Lit "]".

(** [bibliography.find(r => r.key === k)] *)
Definition find_ref (bibliography : list bibentry) (k : string) : option bibentry :=
  List.find (fun r => String.eqb (key r) k) bibliography.

(** [keyToNum[k] || k], as printed in the template. *)
Definition num_of (keyToNum : gmap string nat) (k : string) : string :=
  match JsObj.get keyToNum k with
  | JsObj.VNum n => if Nat.eqb n 0 then k else nat_to_string n
  | JsObj.VInherited p => JsObj.inherited_to_string p
  | JsObj.VUndefined => k
  end.

Definition badge (bibliography : list bibentry) (keyToNum : gmap string nat)
  (k : string) : string :=
  let num := num_of keyToNum k in
  let ref := find_ref bibliography k in
  let title := match ref with Some r => title r | None => k end in
  let arxivAttr :=
    match ref with
    | Some r =>
        if String.eqb (arxivId r) EmptyString then EmptyString
        else " data-arxiv-id=" +:+ dq +:+ arxivId r +:+ dq
    | None => EmptyString
    end in
  "<sup class=" +:+ dq +:+ "ref-badge" +:+ dq +:+ " data-ref=" +:+ dq +:+ num
  +:+ dq +:+ " data-title=" +:+ dq +:+ escapeHtml title +:+ dq +:+ arxivAttr
  +:+ ">" +:+ num +:+ "</sup>".

(** [keys.split(',').map(k => k.trim())] *)
Definition parts_of (keys : string) : list string :=
  map trim (split_on "," keys).

(** [parts.some(k => keyToNum[k])] *)
Definition anyMatch (keyToNum : gmap string nat) (parts : list string) : bool :=
  existsb (fun k => JsObj.truthy (JsObj.get keyToNum k)) parts.

Definition badge_cb (bibliography : list bibentry) (keyToNum : gmap string nat)
  (m : jsmatch) : string :=
  let parts := parts_of (group 1 m) in
  if negb (anyMatch keyToNum parts) then m_text m
  else concat_all (map (badge bibliography keyToNum) parts).

Definition citeBadges (bibliography : list bibentry) (content : string) : string :=
  replace_fn bracketPattern (badge_cb bibliography (build_keyToNum bibliography))
    content.

(** An example bibliography with one entry. *)
Definition example_bibliography : list bibentry :=
  [BibEntry "vaswani2017" "Vaswani et al." "Attention is all you need" "NeurIPS"
     "1706.03762"].

(** The intended reading of a key that matches a known bibliography entry. *)
Definition known (bibliography : list bibentry) (k : string) : bool :=
  existsb (fun r => String.eqb (key r) k) bibliography.

End Citations.

(** ** Macro resolver: [extractMacros] and [applyMacros] (tex2html.js) *)

Module Macros.
Import Js Re.
Local Open Scope regex_scope.

Record macro : Type := Macro { args : nat; replacement : string }.

(** The [\newcommand] pattern: optional brace, group 1 the name [\w+],
    optional brace, optional [[digits]] as group 2, and the braced body as
    group 3, which may hold one level of nested braces. *)
Definition newcommandPattern : regex :=
  let no_brace := Star true (Cls (not_char "}")) in
  Lit "\newcommand" · Opt (Lit "{") · Lit "\" · Grp 1 (Plus true (Cls is_word)) ·
  Opt (Lit "}") ·
  Opt (Lit "[" · Grp 2 (Plus true (Cls is_digit)) · Lit "]") ·
  Lit "{" ·
  Grp 3 (no_brace · Star true (Lit "{" · no_brace · Lit "}" · no_brace)) ·
  Lit "}".

(** [parseInt(m[2] || '0')] on a run of digits. *)
Definition parseInt (s : string) : nat :=
  N.to_nat (JsObj.to_N (if String.eqb s EmptyString then "0" else s)).

Definition extractMacros (tex : string) : JsObj.entries macro :=
  fold_left
    (fun macros m =>
       JsObj.entries_set macros (group 1 m)
         (Macro (parseInt (group 2 m)) (group 3 m)))
    (exec_all newcommandPattern tex) [].

(** [new RegExp(`\\\\${name}(?![a-zA-Z])`, 'g')]; a name matched by [\w+]
    holds no regular-expression operator. *)
Definition zeroArgPattern (name : string) : regex :=
  Lit ("\" +:+ name) · NotAhead (Cls is_alpha).

(** The one-argument pattern built by [new RegExp]: the command name, an
    opening brace, group 1 of characters other than a closing brace, and the
    closing brace. *)
Definition oneArgPattern (name : string) : regex :=
  Lit ("\" +:+ name) · Lit "{" · Grp 1 (Star true (Cls (not_char "}"))) · Lit "}".

Definition zero_step (tex : string) (entry : string * macro) : string :=
  let '(name, def) := entry in
  if Nat.eqb (args def) 0
  then replace_str (zeroArgPattern name) (replacement def) tex
  else tex.

Definition one_step (tex : string) (entry : string * macro) : string :=
  let '(name, def) := entry in
  if Nat.eqb (args def) 1
  then replace_fn (oneArgPattern name)
         (fun m => replace_str (Lit "#1") (group 1 m) (replacement def)) tex
  else tex.

Definition applyMacros (tex : string) (macros : JsObj.entries macro) : string :=
  let tex := fold_left zero_step macros tex in
  fold_left one_step macros tex.


(** A replacement text without any [$] holds no replacement pattern. *)
Definition dollar_free (s : string) : bool := all_chars (not_char "$") s.

(** Example tables: [\a] defined through [\b] after [\b], and a source that
    defines [\d] as a display-math delimiter. *)
Definition nested_table : JsObj.entries macro :=
  [("b", Macro 0 "x"); ("a", Macro 0 "\b")].
Definition dollar_source : string := "\newcommand{\d}{$$} \d".

(** An arity-0 invocation of [name] left in [tex]. *)
Definition invoked (name tex : string) : bool :=
  match exec_all (zeroArgPattern name) tex with
  | [] => false
  | _ :: _ => true
  end.

End Macros.

(** ** Math renderer: render-math.js *)

Module RenderMath.
Import Js Re.
Local Open Scope regex_scope.

(** The typesetting collaborator [katex.renderToString(clean, options)]: the
    HTML, or the message of the exception it throws. *)
Definition typesetter : Type :=
  string -> bool -> gmap string string -> string + string.

(** A stand-in typesetter for examples: a formula that is exactly one macro
    of the table is expanded, and the result is put in brackets. *)
Definition lookupTypesetter : typesetter :=
  fun latex _ macros => inl ("K[" +:+ default latex (macros !! latex) +:+ "]").

(** An example text with the three kinds of math span. *)
Definition three_spans : string :=
  "a $x$ b $$y$$ c \begin{equation}z\end{equation}".

(** The module-level variable [_customMacros]. *)
Definition store : Type := gmap string string.

(** A computation that reads and writes the module-level variable. *)
Definition M (A : Type) : Type := store -> A * store.
#[global] Instance M_ret : MRet M := fun A (a : A) s => (a, s).
#[global] Instance M_bind : MBind M :=
  fun A B (f : A -> M B) (m : M A) s => let '(a, s') := m s in f a s'.
Definition get_store : M store := fun s => (s, s).
Definition put_store (s : store) : M unit := fun _ => (tt, s).
Definition run {A} (m : M A) (s : store) : A := fst (m s).

(** A computation that leaves the module-level variable as it found it. *)
Definition preserves {A} (m : M A) : Prop := forall s, snd (m s) = s.

(** [function setCustomMacros(m) { _customMacros = m || {}; }] *)
Definition setCustomMacros (m : option store) : M unit :=
  put_store (default ∅ m).

Definition defaultMacros : gmap string string :=
  list_to_map
    [ ("\R", "\mathbb{R}"); ("\N", "\mathbb{N}"); ("\Z", "\mathbb{Z}");
      ("\softmax", "\text{softmax}"); ("\Attention", "\text{Attention}");
      ("\MultiHead", "\text{MultiHead}"); ("\FFN", "\text{FFN}");
      ("\LayerNorm", "\text{LayerNorm}"); ("\Concat", "\text{Concat}");
      ("\head", "\text{head}") ].

Definition escapeHtml (str : string) : string :=
  replace_str (Lit dq) "&quot;"
    (replace_str (Lit ">") "&gt;"
       (replace_str (Lit "<") "&lt;"
          (replace_str (Lit "&") "&amp;" str))).

Definition upto_brace : regex := Star true (Cls (not_char "}")).

Definition strip_label (s : string) : string :=
  replace_str (Lit "\label{" · upto_brace · Lit "}") EmptyString s.
Definition strip_tag (s : string) : string :=
  replace_str (Lit "\tag{" · upto_brace · Lit "}") EmptyString s.
Definition strip_nonumber (s : string) : string :=
  replace_str (Lit "\nonumber") EmptyString s.
(** [/<[^>]+>/g] *)
Definition strip_html (s : string) : string :=
  replace_str (Lit "<" · Plus true (Cls (not_char ">")) · Lit ">") EmptyString s.

Definition math_error (message latex : string) : string :=
  "<span class=" +:+ dq +:+ "math-error" +:+ dq +:+ " title=" +:+ dq
  +:+ message +:+ dq +:+ ">" +:+ escapeHtml latex +:+ "</span>".

Definition VAR_DESCRIPTIONS : JsObj.entries string :=
  [ ("Q", "Query matrix — packed queries (shape: seq_len × d_k)");
    ("K", "Key matrix — packed keys (shape: seq_len × d_k)");
    ("V", "Value matrix — packed values (shape: seq_len × d_v)");
    ("d_k", "Dimension of key and query vectors (d_k = 64)");
    ("d_v", "Dimension of value vectors (d_v = 64)");
    ("d_model", "Model embedding dimension (d_model = 512)");
    ("h", "Number of parallel attention heads (h = 8)");
    ("W", "Weight matrix");
    ("b", "Bias vector");
    ("x", "Input tensor");
    ("n", "Sequence length");
    ("T", "Transpose") ].

Definition VAR_COLORS : JsObj.entries string :=
  [ ("Q", "#f0a050"); ("K", "#58a6ff"); ("V", "#7ee787"); ("d_k", "#79c0ff");
    ("d_v", "#ffa657"); ("d_model", "#d2a8ff"); ("h", "#ff7b72");
    ("W", "#a5d6ff"); ("b", "#ffd700"); ("x", "#98c379"); ("n", "#c678dd") ].

(** The pattern built for a one-character variable: three groups, the
    opening [mord mathnormal] span, the letter and the closing tag. *)
Definition varPattern (varName : string) : regex :=
  Grp 1 (Lit ("<span class=" +:+ dq +:+ "mord mathnormal" +:+ dq) ·
         Star true (Cls (not_char ">")) · Lit ">") ·
  Grp 2 (Lit varName) · Grp 3 (Lit "</span>").

Definition var_cb (varName desc color : string) (m : jsmatch) : string :=
  "<span class=" +:+ dq +:+ "var" +:+ dq +:+ " data-var=" +:+ dq +:+ varName
  +:+ dq +:+ " data-desc=" +:+ dq +:+ escapeHtml desc +:+ dq +:+ " style=" +:+ dq
  +:+ "--var-color: " +:+ color +:+ dq +:+ ">"
  +:+ group 1 m +:+ group 2 m +:+ group 3 m +:+ "</span>".

Definition annotate_step (html : string) (entry : string * string) : string :=
  let '(varName, desc) := entry in
  let color := default "#f0a050" (JsObj.entries_get VAR_COLORS varName) in
  if Nat.eqb (String.length varName) 1
  then replace_fn (varPattern varName) (var_cb varName desc color) html
  else html.

Definition annotateVarsInMath (html : string)
  (varDescriptions : JsObj.entries string) : string :=
  fold_left annotate_step
    (JsObj.entries_spread VAR_DESCRIPTIONS varDescriptions) html.

(** [text.replace(re, callback)] where the callback runs in [M]. *)
Fixpoint render_m (f : jsmatch -> M string) (ts : list token) : M string :=
  match ts with
  | [] => mret EmptyString
  | TChar c :: ts' => out ← render_m f ts'; mret (String c out)
  | TMatch m :: ts' =>
      rep ← f m; out ← render_m f ts'; mret (rep +:+ out)
  end.
Definition replace_m (r : regex) (f : jsmatch -> M string) (s : string)
  : M string :=
  render_m f (tokens r s).

Fixpoint map_m {A B} (f : A -> M B) (l : list A) : M (list B) :=
  match l with
  | [] => mret []
  | a :: l' => b ← f a; bs ← map_m f l'; mret (b :: bs)
  end.

(** [/\\begin\{(equation|align|gather|multline)\*?\}([\s\S]*?)\\end\{\1\*?\}/g] *)
Definition envPattern : regex :=
  Lit "\begin{" ·
  Grp 1 (Alt (Lit "equation") (Alt (Lit "align") (Alt (Lit "gather") (Lit "multline")))) ·
  Opt (Lit "*") · Lit "}" · Grp 2 (Star false (Cls any_char)) ·
  Lit "\end{" · Ref 1 · Opt (Lit "*") · Lit "}".

(** [/\$\$([\s\S]*?)\$\$/g] *)
Definition displayPattern : regex :=
  Lit "$$" · Grp 1 (Star false (Cls any_char)) · Lit "$$".

(** The inline pattern: not after a dollar, a dollar not followed by a dollar,
    group 1 a lazy run of one or more items, each a character other than
    dollar, backslash and line feed or a backslash with the character after
    it, and a closing dollar. *)
Definition inline_char (c : ascii) : bool :=
  negb (Ascii.eqb c "$" || Ascii.eqb c "\" || Ascii.eqb c (chr 10)).
(** The class of the second copy: line feeds are allowed. *)
Definition inline_char2 (c : ascii) : bool :=
  negb (Ascii.eqb c "$" || Ascii.eqb c "\").
(** [.] excludes the line terminators. *)
Definition dot_char (c : ascii) : bool :=
  negb (Ascii.eqb c (chr 10) || Ascii.eqb c (chr 13)).

Definition inlinePattern (plain : ascii -> bool) : regex :=
  NotBehind (is_char "$") · Lit "$" · NotAhead (Lit "$") ·
  Grp 1 (Plus false (Alt (Cls plain) (Lit "\" · Cls dot_char))) ·
  Lit "$".

(** The body shared by the two copies of [renderAllMath]: the three
    replacement passes, over the copy's [renderMath] and inline pattern. *)
Section RenderAll.
Variable renderMath : string -> bool -> M string.
Variable inline : regex.
Variable varDescriptions : JsObj.entries string.

Definition display_block (line : string) : M string :=
  html ← renderMath line true;
  mret ("<div class=" +:+ dq +:+ "math-display" +:+ dq +:+ ">"
        +:+ annotateVarsInMath html varDescriptions +:+ "</div>").

(** [content.split('\\\\').map(l => l.replace(/&/g, ' ').trim()).filter(l => l)] *)
Definition align_lines (content : string) : list string :=
  filter (fun l => l <> EmptyString)
    (map (fun l => trim (replace_str (Lit "&") " " l)) (split_on "\\" content)).

Definition env_cb (m : jsmatch) : M string :=
  let env := group 1 m in
  let content := group 2 m in
  let lines :=
    if String.eqb env "align" then align_lines content else [trim content] in
  rendered ← map_m display_block lines;
  mret (nl +:+ join nl rendered +:+ nl).

Definition display_cb (m : jsmatch) : M string :=
  html ← renderMath (trim (group 1 m)) true;
  mret (nl +:+ "<div class=" +:+ dq +:+ "math-display" +:+ dq +:+ ">"
        +:+ annotateVarsInMath html varDescriptions +:+ "</div>" +:+ nl).

Definition inline_cb (m : jsmatch) : M string :=
  html ← renderMath (trim (group 1 m)) false;
  mret ("<span class=" +:+ dq +:+ "math-inline" +:+ dq +:+ ">"
        +:+ annotateVarsInMath html varDescriptions +:+ "</span>").

Definition renderAll (text : string) : M string :=
  result ← replace_m envPattern env_cb text;
  result ← replace_m displayPattern display_cb result;
  replace_m inline inline_cb result.

End RenderAll.

(** The first copy of the file. *)
Module First.

Definition clean (latex : string) : string :=
  let clean := trim latex in
  let clean := strip_label clean in
  let clean := strip_tag clean in
  let clean := strip_nonumber clean in
  let clean := strip_html clean in
  let clean := replace_str (Lit "&lt;") "<" clean in
  let clean := replace_str (Lit "&gt;") ">" clean in
  let clean := replace_str (Lit "&amp;") "&" clean in
  replace_str (Lit "&quot;") dq clean.

Definition renderMath (katex : typesetter) (latex : string) (displayMode : bool)
  (extraMacros : gmap string string) : M string :=
  custom ← get_store;
  mret match katex (clean latex) displayMode
               (extraMacros ∪ custom ∪ defaultMacros) with
       | inl html => html
       | inr message => math_error message latex
       end.

Definition renderAllMath (katex : typesetter) (text : string)
  (varDescriptions : JsObj.entries string) : M string :=
  renderAll (fun latex displayMode => renderMath katex latex displayMode ∅)
    (inlinePattern inline_char) varDescriptions text.

End First.

(** The second copy of the file. *)
Module Second.

Definition clean (latex : string) : string :=
  let clean := trim latex in
  let clean := strip_html clean in
  let clean := strip_label clean in
  let clean := strip_tag clean in
  let clean := strip_nonumber clean in
  let clean := replace_str (Lit "&amp;") "&" clean in
  let clean := replace_str (Lit "&lt;") "<" clean in
  replace_str (Lit "&gt;") ">" clean.

Definition renderMath (katex : typesetter) (latex : string) (displayMode : bool)
  : M string :=
  custom ← get_store;
  mret match katex (clean latex) displayMode (custom ∪ defaultMacros) with
       | inl html => html
       | inr message => math_error message latex
       end.

Definition renderAllMath (katex : typesetter) (text : string)
  (varDescriptions : JsObj.entries string) : M string :=
  renderAll (renderMath katex) (inlinePattern inline_char2) varDescriptions text.

(** The steps of [importArxiv] that touch the renderer: the macro table of
    the preamble is installed, then every section is rendered. *)
Definition renderDocument (katex : typesetter) (katexMacros : store)
  (sections : list string) : M (list string) :=
  setCustomMacros (Some katexMacros);;
  map_m (fun content => renderAllMath katex content []) sections.

End Second.

End RenderMath.

(** ** Further string notions used in the statements *)

Module Text.
Import Js Re.

(** Every occurrence of the character [a] replaced by the text [t]. *)
Fixpoint subst_char (a : ascii) (t : string) (s : string) : string :=
  match s with
  | EmptyString => EmptyString
  | String c s' =>
      if Ascii.eqb c a then t +:+ subst_char a t s'
      else String c (subst_char a t s')
  end.

(** Text without any of the characters that [escapeHtml] rewrites. *)
Definition html_inert (s : string) : bool :=
  all_chars (fun c => negb (Ascii.eqb c "&" || Ascii.eqb c "<" || Ascii.eqb c ">"
                            || Ascii.eqb c (chr 34))) s.

(** A citation key as the bracket pattern reads it: a letter, then letters,
    digits and the characters [_ : . -]. *)
Definition valid_key (k : string) : bool :=
  match k with
  | EmptyString => false
  | String c k' => is_alpha c && all_chars Citations.key_char k'
  end.

(** The class [P] cannot go on at the start of [rest]. *)
Definition stops (P : ascii -> bool) (rest : string) : Prop :=
  match rest with EmptyString => True | String c _ => P c = false end.

End Text.

(** ** Table converter: convert-tables.js *)

Module Tables.
Import Js Re.
Local Open Scope regex_scope.

Definition upto_brace : regex := Star true (Cls (not_char "}")).
Definition lazy_any : regex := Star false (Cls any_char).

(** [~(?!\\)]: a tilde that no backslash follows. *)
Definition tildePattern : regex := Lit "~" · NotAhead (Lit "\").

(** The three rule-removing replacements at the head of [parseTabular]. *)
Definition strip_rules (content : string) : string :=
  let content :=
    replace_str
      (Lit "\" · Grp 1 (Alt (Lit "toprule") (Alt (Lit "midrule")
                           (Alt (Lit "bottomrule") (Lit "hline")))))
      EmptyString content in
  let content :=
    replace_str (Lit "\cline{" · upto_brace · Lit "}") EmptyString content in
  replace_str (Lit "\rule{" · upto_brace · Lit "}{" · upto_brace · Lit "}")
    EmptyString content.

(** The callback that cleans one cell. *)
Definition clean_cell (cell : string) : string :=
  let c := trim cell in
  let c := replace_str (Lit "\textbf{" · Grp 1 upto_brace · Lit "}") "**$1**" c in
  let c := replace_str (Lit "\textit{" · Grp 1 upto_brace · Lit "}") "*$1*" c in
  let c := replace_str (Lit "\emph{" · Grp 1 upto_brace · Lit "}") "*$1*" c in
  let c := replace_str
             (Lit "\cite" · Opt (Cls (fun x => Ascii.eqb x "p" || Ascii.eqb x "t"))
              · Lit "{" · upto_brace · Lit "}") EmptyString c in
  let c := replace_str tildePattern " " c in
  replace_str (Lit "$" · Grp 1 (Plus true (Cls (not_char "$"))) · Lit "$")
    "$$$1$$" c.

Definition parseTabular (tabularContent colSpec : string) : list (list string) :=
  let content := strip_rules tabularContent in
  let rows :=
    filter (fun r => r <> EmptyString) (map trim (split_on "\\" content)) in
  map (fun row => map clean_cell (split_on "&" row)) rows.

(** [Math.max(...table.map(row => row.length))] of a table that is not empty. *)
Definition max_cols (table : list (list string)) : nat :=
  foldr Nat.max 0 (map length table).

(** [while (row.length < maxCols) row.push('')]; at most [maxCols] turns. *)
Fixpoint pad_row (fuel maxCols : nat) (row : list string) : list string :=
  match fuel with
  | O => row
  | S fuel' =>
      if Nat.ltb (length row) maxCols
      then pad_row fuel' maxCols (row ++ [EmptyString])
      else row
  end.

Definition normalize (table : list (list string)) : list (list string) :=
  let maxCols := max_cols table in
  map (pad_row maxCols maxCols) table.

Definition md_row (cells : list string) : string :=
  "| " +:+ join " | " cells +:+ " |" +:+ nl.

Definition tableToMarkdown (table : list (list string)) (caption : string)
  : string :=
  match normalize table with
  | [] => EmptyString
  | header :: rows =>
      let md :=
        if String.eqb caption EmptyString then EmptyString
        else nl +:+ "**" +:+ caption +:+ "**" +:+ nl +:+ nl in
      let md := md +:+ md_row header in
      let md := md +:+ md_row (map (fun _ => "---") header) in
      md +:+ concat_all (map md_row rows)
  end.

Definition html_cells (tag : string) (cells : list string) : string :=
  concat_all
    (map (fun cell => "    <" +:+ tag +:+ ">" +:+ cell +:+ "</" +:+ tag +:+ ">" +:+ nl)
       cells).

Definition tableToHtml (table : list (list string)) (caption : string) : string :=
  match table with
  | [] => EmptyString
  | header :: rows =>
      let html := "<table class=" +:+ dq +:+ "article-table" +:+ dq +:+ ">" +:+ nl in
      let html :=
        if String.eqb caption EmptyString then html
        else html +:+ "  <caption>" +:+ caption +:+ "</caption>" +:+ nl in
      let html := html +:+ "  <thead><tr>" +:+ nl in
      let html := html +:+ html_cells "th" header in
      let html := html +:+ "  </tr></thead>" +:+ nl in
      let html := html +:+ "  <tbody>" +:+ nl in
      let html :=
        html +:+ concat_all
          (map (fun row => "  <tr>" +:+ nl +:+ html_cells "td" row +:+ "  </tr>" +:+ nl)
             rows) in
      html +:+ "  </tbody>" +:+ nl +:+ "</table>" +:+ nl
  end.

Definition tablePattern : regex :=
  Lit "\begin{table" · Opt (Lit "*") · Lit "}" · Grp 1 lazy_any ·
  Lit "\end{table" · Opt (Lit "*") · Lit "}".

Definition tabularPattern : regex :=
  Lit "\begin{tabular}{" · Grp 1 upto_brace · Lit "}" · Grp 2 lazy_any ·
  Lit "\end{tabular}".

Definition render_table (format : string) (table : list (list string))
  (caption : string) : string :=
  if String.eqb format "markdown" then tableToMarkdown table caption
  else tableToHtml table caption.

Definition table_cb (format : string) (m : jsmatch) : string :=
  let content := group 1 m in
  let caption :=
    match Figures.first_match Figures.captionPattern content with
    | Some cm =>
        trim (replace_str (Lit "\textbf{" · Grp 1 upto_brace · Lit "}") "$1"
                (replace_str (Lit "\label{" · upto_brace · Lit "}") EmptyString
                   (group 1 cm)))
    | None => EmptyString
    end in
  match Figures.first_match tabularPattern content with
  | None => m_text m
  | Some tm => render_table format (parseTabular (group 2 tm) (group 1 tm)) caption
  end.

Definition tabular_cb (format : string) (m : jsmatch) : string :=
  render_table format (parseTabular (group 2 m) (group 1 m)) EmptyString.

Definition convertTables (text format : string) : string :=
  let result := replace_fn tablePattern (table_cb format) text in
  replace_fn tabularPattern (tabular_cb format) result.

(** A tabular body written from a grid of cells: the cells of a row joined
    by an ampersand between spaces, every row closed by a double backslash
    between spaces. *)
Definition row_text (row : list string) : string := join " & " row +:+ " \\ ".
Definition grid_text (grid : list (list string)) : string :=
  concat_all (map row_text grid).

End Tables.

(** ** Shapes of text used in the statements about tables *)

Module Shape.
Import Js Re.

(** The text begins with [a] followed by a character of the class [P]. *)
Definition second_is (a : ascii) (P : ascii -> bool) (s : string) : bool :=
  match s with
  | String c (String d _) => Ascii.eqb c a && P d
  | _ => false
  end.

(** A pattern that can only match at an [a] followed by a character of [P]. *)
Definition anchored2 (a : ascii) (P : ascii -> bool) (r : regex) : Prop :=
  forall k st, second_is a P (m_rest st) = false -> rmatch r k st = None.

(** No [a] of the text is followed by a character of [P]. *)
Fixpoint clear (a : ascii) (P : ascii -> bool) (s : string) : bool :=
  negb (second_is a P s) &&
  match s with
  | EmptyString => true
  | String _ s' => clear a P s'
  end.

Definition head_ok (s : string) : bool :=
  match s with
  | EmptyString => false
  | String c _ => negb (is_space c)
  end.
Definition last_ok (s : string) : bool :=
  match last_char s None with
  | Some d => negb (is_space d)
  | None => false
  end.
(** A text that is not empty and has no white space at either end. *)
Definition tidy (s : string) : bool := head_ok s && last_ok s.

(** The characters of a cell on which [parseTabular] does not act. *)
Definition cell_char (c : ascii) : bool :=
  negb (Ascii.eqb c "\" || Ascii.eqb c "&" || Ascii.eqb c "~" || Ascii.eqb c "$").

Definition simple_cell (s : string) : bool := tidy s && all_chars cell_char s.

Definition simple_row (row : list string) : bool :=
  match row with
  | [] => false
  | _ => forallb simple_cell row
  end.

Definition simple_grid (grid : list (list string)) : bool :=
  forallb simple_row grid.

End Shape.

(** ** The section pipeline of [importArxiv] (arxiv-pipeline.js) *)

Module Pipeline.
Import Js Re.
Local Open Scope regex_scope.

Definition p_or_t (c : ascii) : bool := Ascii.eqb c "p" || Ascii.eqb c "t".
Definition brace (c : ascii) : bool := Ascii.eqb c "{" || Ascii.eqb c "}".
Definition lazy_any : regex := Star false (Cls any_char).
(** [[^c]+] and [[^c]*] *)
Definition some_upto (c : ascii) : regex := Plus true (Cls (not_char c)).
Definition any_upto (c : ascii) : regex := Star true (Cls (not_char c)).
(** [.] excludes the line terminators; [$] under the [m] flag stands before
    a line terminator or at the end of the text. *)
Definition dot_char : ascii -> bool := RenderMath.dot_char.
Definition line_end : regex := NotAhead (Cls dot_char).

(** [text.replace(re, replacementString)] without the [g] flag: the first
    match only. *)
Definition replace_first_str (r : regex) (tmpl : string) (s : string) : string :=
  match head (exec_all r s) with
  | None => s
  | Some m =>
      first_n (m_index m) s +:+ expand (ngroups r) s m tmpl
      +:+ skip_n (m_index m + String.length (m_text m)) s
  end.

(** [String.prototype.indexOf] of one character. *)
Fixpoint index_of (c : ascii) (s : string) : option nat :=
  match s with
  | EmptyString => None
  | String d s' => if Ascii.eqb d c then Some 0 else S <$> index_of c s'
  end.

(** *** [extractBracedContent] *)

(** The [while] loop: the text up to the brace that closes the one just
    opened, nested pairs included; the whole rest when it is never closed. *)
Fixpoint braced (depth : nat) (s : string) : string :=
  match s with
  | EmptyString => EmptyString
  | String c s' =>
      match depth with
      | O => EmptyString
      | S d =>
          if Ascii.eqb c "{" then String c (braced (S depth) s')
          else if Ascii.eqb c "}" then
            match d with
            | O => EmptyString
            | S _ => String c (braced d s')
            end
          else String c (braced depth s')
      end
  end.

(** The pattern built from [cmd] (a command name without special
    characters): the command, an optional bracketed argument and an
    opening brace. *)
Definition commandPattern (cmd : string) : regex :=
  Lit ("\" +:+ cmd) · Opt (Lit "[" · any_upto "]" · Lit "]") · Lit "{".

(** The last line of the function: the first double backslash becomes a
    space, white space is collapsed, the ends are trimmed, and an empty
    result is [null]. *)
Definition tidy_title (result : string) : option string :=
  let out :=
    trim (replace_str (Plus true (Cls is_space)) " "
            (replace_first_str (Lit "\\") " " result)) in
  if String.eqb out EmptyString then None else Some out.

Definition extractBracedContent (tex cmd : string) : option string :=
  match head (exec_all (commandPattern cmd) tex) with
  | None => None
  | Some m =>
      tidy_title (braced 1 (skip_n (m_index m + String.length (m_text m)) tex))
  end.

(** *** [extractMetadata] *)

Record metadata : Type := Metadata {
  md_title : string;
  md_authors : list string;
  md_abstract : string
}.

(** [/(?<!\\)%.*$/gm]: a per cent sign not after a backslash, to the end of
    its line. *)
Definition commentPattern : regex :=
  NotBehind (is_char "\") · Lit "%" · Star true (Cls dot_char) · line_end.

Definition clean_authors (raw : string) : string :=
  let raw := replace_str (Lit "\thanks{" · any_upto "}" · Lit "}") EmptyString raw in
  let raw := replace_str (Lit "\footnotemark[" · Plus true (Cls is_digit) · Lit "]")
               EmptyString raw in
  let raw := replace_str (Alt (Lit "\And") (Lit "\AND")) ", " raw in
  let raw := replace_str (Lit "\texttt{" · any_upto "}" · Lit "}") EmptyString raw in
  let raw := replace_str (Lit "\\") EmptyString raw in
  let raw := replace_str (Lit "\text{" · any_upto "}" · Lit "}") EmptyString raw in
  let raw := replace_str (Plus true (Cls is_space)) " " raw in
  trim raw.

Definition is_author (a : string) : bool :=
  negb (String.eqb a EmptyString) && negb (includes a "@") && negb (includes a "{")
  && Nat.ltb 2 (String.length a).

Definition extractMetadata (fullTex : string) : metadata :=
  let title :=
    match extractBracedContent fullTex "title" with
    | Some rawTitle =>
        trim (replace_str (Cls brace) EmptyString
                (replace_str (Lit "\" · Plus true (Cls is_alpha)) EmptyString
                   rawTitle))
    | None => "Untitled Paper"
    end in
  let authors :=
    match head (exec_all (Lit "\author{" · Grp 1 lazy_any · Lit "}") fullTex) with
    | Some authorMatch =>
        List.filter is_author
          (map trim (split_on "," (clean_authors (group 1 authorMatch))))
    | None => []
    end in
  let abstract :=
    match head (exec_all (Lit "\begin{abstract}" · Grp 1 lazy_any ·
                          Lit "\end{abstract}") fullTex) with
    | Some abstractMatch =>
        trim (replace_str commentPattern EmptyString (group 1 abstractMatch))
    | None => EmptyString
    end in
  Metadata title authors abstract.

(** *** [normalizeCitations] *)

Definition mboxCitePattern : regex :=
  Lit "\mbox{" ·
  Grp 1 (Lit "\cite" · Opt (Cls p_or_t) · Lit "{" · some_upto "}" · Lit "}") ·
  Lit "}".

Definition mboxBracketPattern : regex :=
  Opt (Lit "~") · Lit "\mbox{[" · Grp 1 (some_upto "]") · Lit "]}".

Definition tildeBracketPattern : regex := Lit "~" · Citations.bracketPattern.

Definition cite_of (m : jsmatch) : string := "\cite{" +:+ group 1 m +:+ "}".

Definition normalizeCitations (tex : string) : string :=
  let tex := replace_str mboxCitePattern "$1" tex in
  let tex := replace_fn mboxBracketPattern cite_of tex in
  replace_fn tildeBracketPattern cite_of tex.

(** *** [processSection] *)

Definition command1 (name : string) : regex :=
  Lit ("\" +:+ name +:+ "{") · Grp 1 (some_upto "}") · Lit "}".

Definition heading (name : string) : regex :=
  Lit ("\" +:+ name) · Opt (Lit "*") · Lit "{" · Grp 1 (some_upto "}") · Lit "}".

Definition tildePattern : regex := Lit "~" · NotAhead (Lit "\").

Definition listPattern (env : string) : regex :=
  Lit ("\begin{" +:+ env +:+ "}") · Grp 1 lazy_any · Lit ("\end{" +:+ env +:+ "}").

(** [items.split('\\item').filter(s => s.trim())] *)
Definition list_items (items : string) : list string :=
  List.filter (fun s => negb (String.eqb (trim s) EmptyString))
    (split_on "\item" items).

Definition itemize_cb (m : jsmatch) : string :=
  join nl (map (fun item => "- " +:+ trim item) (list_items (group 1 m))).

Definition enumerate_cb (m : jsmatch) : string :=
  join nl (imap (fun n item => nat_to_string (S n) +:+ ". " +:+ trim item)
             (list_items (group 1 m))).

Definition citePattern : regex :=
  Lit "\cite" · Opt (Cls p_or_t) · Lit "{" · Grp 1 (some_upto "}") · Lit "}".

(** [keys.split(',').map(k => `[${k.trim()}]`).join('')] *)
Definition cite_cb (m : jsmatch) : string :=
  concat_all (map (fun k => "[" +:+ trim k +:+ "]") (split_on "," (group 1 m))).

Definition processSection (content : string) : string :=
  let result := content in
  let result := replace_str commentPattern EmptyString result in
  let result := replace_str (heading "subsection") "<h3>$1</h3>" result in
  let result := replace_str (heading "subsubsection") "<h4>$1</h4>" result in
  let result := replace_str (command1 "textbf") "<strong>$1</strong>" result in
  let result := replace_str (command1 "textit") "<em>$1</em>" result in
  let result := replace_str (command1 "emph") "<em>$1</em>" result in
  let result := replace_str (command1 "url") "[$1]($1)" result in
  let result := replace_str (command1 "paragraph") "**$1.**" result in
  let result := replace_str tildePattern " " result in
  let result :=
    replace_str (Lit "\footnote{" · Grp 1 (any_upto "}") · Lit "}") EmptyString
      result in
  let result := replace_fn (listPattern "itemize") itemize_cb result in
  let result := replace_fn (listPattern "enumerate") enumerate_cb result in
  let result :=
    replace_str (Lit "\mbox{" · Grp 1 (any_upto "}") · Lit "}") "$1" result in
  replace_fn citePattern cite_cb result.

(** *** [extractBibliography] *)

Definition digits (n : nat) : regex :=
  Nat.iter n (fun r => Cls is_digit · r) (Lit EmptyString).

(** A literal under the [i] flag. *)
Fixpoint lit_ci (s : string) : regex :=
  match s with
  | EmptyString => Lit EmptyString
  | String c s' => Cls (fun x => Ascii.eqb (Figures.lower x) c) · lit_ci s'
  end.

(** [/arxiv[:\s/]*([0-9]{4}\.[0-9]{4,5})/i] *)
Definition arxivPattern : regex :=
  lit_ci "arxiv" ·
  Star true (Cls (fun c => Ascii.eqb c ":" || is_space c || Ascii.eqb c "/")) ·
  Grp 1 (digits 4 · Lit "." · digits 4 · Opt (Cls is_digit)).

Definition clean_entry (content : string) : string :=
  let content :=
    replace_str (Lit "\newblock" · Star true (Cls is_space)) EmptyString content in
  let content := replace_str (command1 "emph") "$1" content in
  let content := replace_str (command1 "textit") "$1" content in
  let content := replace_str (command1 "textbf") "$1" content in
  let content :=
    replace_str (Lit "{\em" · Plus true (Cls is_space) · Grp 1 (some_upto "}")
                 · Lit "}") "$1" content in
  let content := replace_str (command1 "url") "$1" content in
  let content := replace_str (Cls brace) EmptyString content in
  replace_str tildePattern " " content.

(** The body of the loop for one piece that follows a [\bibitem]; [None]
    stands for [continue]. *)
Definition bib_entry (piece : string) : option Citations.bibentry :=
  let item := trim piece in
  let item :=
    if startsWith item "[" then
      match index_of "]" item with
      | Some closeBracket => trim (skip_n (S closeBracket) item)
      | None => trim item
      end
    else item in
  if startsWith item "{" then
    let key :=
      match index_of "}" item with
      | Some closeBrace => first_n (closeBrace - 1) (skip_n 1 item)
      | None => first_n 1 item
      end in
    let item :=
      match index_of "}" item with
      | Some closeBrace => trim (skip_n (S closeBrace) item)
      | None => trim item
      end in
    let content := clean_entry item in
    let arxivId :=
      match head (exec_all arxivPattern content) with
      | Some arxivMatch => group 1 arxivMatch
      | None => EmptyString
      end in
    let parts :=
      List.filter (fun l => negb (String.eqb l EmptyString))
        (map trim (split_on nl content)) in
    Some (Citations.BibEntry key
            (nth 0 parts EmptyString) (nth 1 parts EmptyString)
            (join " " (skipn 2 parts)) arxivId)
  else None.

Definition extractBibliography (bibTex : string) : list Citations.bibentry :=
  omap bib_entry (tail (split_on "\bibitem" bibTex)).

(** *** The loop over the sections *)

(** [String.prototype.split] with a regular expression that has no groups
    and matches no empty text. *)
Fixpoint pieces (cur : string) (ts : list token) : list string :=
  match ts with
  | [] => [reverse cur]
  | TChar c :: ts' => pieces (String c cur) ts'
  | TMatch _ :: ts' => reverse cur :: pieces EmptyString ts'
  end.
Definition split_re (r : regex) (s : string) : list string :=
  pieces EmptyString (tokens r s).

(** [/\n\n+/] *)
Definition paragraphBreak : regex := Lit (nl +:+ nl) · Star true (Lit nl).

(** [p.match(/^\d+\./)] *)
Definition numbered (p : string) : bool :=
  match match_at (Plus true (Cls is_digit) · Lit ".") 0 None p with
  | Some _ => true
  | None => false
  end.

Definition wrap (p : string) : string :=
  let p := trim p in
  if String.eqb p EmptyString then EmptyString
  else if startsWith p "<" || startsWith p "#" || startsWith p "-"
          || startsWith p "|" || numbered p then p
  else "<p>" +:+ p +:+ "</p>".

Definition wrapParagraphs (content : string) : string :=
  join (nl +:+ nl)
    (List.filter (fun p => negb (String.eqb p EmptyString))
       (map wrap (split_re paragraphBreak content))).

Definition bibliographyBlock : regex :=
  Lit "\begin{thebibliography}" · lazy_any · Lit "\end{thebibliography}".

(** The body of the [for (const sec of sections)] loop; the renderer is the
    [renderAllMath] of render-math.js, which reads the module-level macro
    table. *)
Definition processContent (renderAllMath : string -> RenderMath.M string)
  (figures : list Figures.figure) (labels : gmap string Labels.label)
  (bibliography : list Citations.bibentry) (content : string)
  : RenderMath.M string :=
  let content := normalizeCitations content in
  let content := replace_str bibliographyBlock EmptyString content in
  let content := processSection content in
  let content := Figures.replaceFiguresInText content figures in
  let content := Tables.convertTables content "html" in
  let content := Labels.resolveRefs content labels in
  content ← renderAllMath content;
  let content := Citations.citeBadges bibliography content in
  mret (wrapParagraphs content).

End Pipeline.

(** ** Shapes of text used in the statements about the pipeline *)

Module Prose.
Import Js Re.

(** A pattern that can only match a text on which [Q] holds. *)
Definition guarded (Q : string -> bool) (r : regex) : Prop :=
  forall k st, Q (m_rest st) = false -> rmatch r k st = None.

(** [Q] holds at no position of the text. *)
Fixpoint free (Q : string -> bool) (s : string) : bool :=
  negb (Q s) &&
  match s with
  | EmptyString => true
  | String _ s' => free Q s'
  end.

(** [bal d s]: with [d] braces open before it, the text [s] closes every
    brace, never closes one that is not open, and leaves none open. *)
Fixpoint bal (d : nat) (s : string) : bool :=
  match s with
  | EmptyString => Nat.eqb d 0
  | String c s' =>
      if Ascii.eqb c "{" then bal (S d) s'
      else if Ascii.eqb c "}" then
        match d with
        | O => false
        | S d' => bal d' s'
        end
      else bal d s'
  end.
Definition balanced (s : string) : bool := bal 0 s.

(** [stays_open d s]: with [S d] braces open before it, the text [s] never
    closes the outermost of them. *)
Fixpoint stays_open (d : nat) (s : string) : bool :=
  match s with
  | EmptyString => true
  | String c s' =>
      if Ascii.eqb c "{" then stays_open (S d) s'
      else if Ascii.eqb c "}" then
        match d with
        | O => false
        | S d' => stays_open d' s'
        end
      else stays_open d s'
  end.

(** The optional bracketed argument of a command. *)
Definition bracket_arg (o : option string) : string :=
  match o with
  | Some a => "[" +:+ a +:+ "]"
  | None => EmptyString
  end.

(** Running text: no backslash, tilde, per cent sign, dollar, opening
    bracket or line feed. *)
Definition prose_char (c : ascii) : bool :=
  negb (Ascii.eqb c "\" || Ascii.eqb c "~" || Ascii.eqb c "%" || Ascii.eqb c "$"
        || Ascii.eqb c "[" || Ascii.eqb c (chr 10)).
Definition prose (s : string) : bool := all_chars prose_char s.

Definition starts_alpha (s : string) : bool :=
  match s with
  | String c _ => is_alpha c
  | EmptyString => false
  end.

(** Text on which no pass of [processSection] acts: no backslash, tilde or
    per cent sign. *)
Definition inert_char (c : ascii) : bool :=
  negb (Ascii.eqb c "\" || Ascii.eqb c "~" || Ascii.eqb c "%").
Definition inert (s : string) : bool := all_chars inert_char s.

(** A paragraph of running text: it begins with a letter and holds no line
    feed. *)
Definition paragraph (p : string) : bool :=
  starts_alpha p && all_chars (not_char (chr 10)) p.

(** The body of a list environment: every item introduced by [\item] and
    a space and closed by a line feed. *)
Definition list_text (items : list string) : string :=
  concat_all (map (fun it => "\item " +:+ it +:+ nl) items).
(** An item of running text: not empty, no white space at its ends, no
    backslash, tilde or per cent sign. *)
Definition list_item (it : string) : bool := Shape.tidy it && inert it.
(** A list environment with the given items. *)
Definition list_env (env : string) (items : list string) : string :=
  ("\begin{" +:+ env +:+ "}") +:+ (nl +:+ list_text items)
  +:+ ("\end{" +:+ env +:+ "}").

(** A bibliography written as a head followed by entries, each a
    [\bibitem{key}] and the text of the entry. *)
Definition entry_text (e : string * string) : string :=
  "\bibitem{" +:+ fst e +:+ "}" +:+ snd e.
Definition bib_text (head : string) (entries : list (string * string)) : string :=
  head +:+ concat_all (map entry_text entries).
(** What follows the [\bibitem] of an entry. *)
Definition entry_piece (e : string * string) : string :=
  "{" +:+ fst e +:+ "}" +:+ snd e.
(** The key holds no closing brace, and no [\bibitem] starts inside the
    entry. *)
Definition entry_ok (e : string * string) : bool :=
  all_chars (not_char "}") (fst e) &&
  negb (includes ("{" +:+ fst e +:+ "}" +:+ snd e) "\bibitem").

End Prose.

(** ** Bibliography of the stand-alone converter: [extractBibliography]
    and [cleanText] (tex2html.js) *)

Module TexBib.
Import Js Re.
Local Open Scope regex_scope.

Record bibref : Type := BibRef {
  key : string;
  authors : string;
  title : string;
  venue : string
}.

(** A character outside ASCII, written as its three UTF-8 bytes. *)
Definition utf8 (a b c : nat) : string :=
  String (chr a) (String (chr b) (String (chr c) EmptyString)).
Definition ldquo : string := utf8 226 128 156.
Definition rdquo : string := utf8 226 128 157.
Definition mdash : string := utf8 226 128 148.
Definition ndash : string := utf8 226 128 147.

Definition command1 (name : string) : regex :=
  Lit ("\" +:+ name +:+ "{") · Grp 1 (Plus true (Cls (not_char "}"))) · Lit "}".

Definition cleanText (text : string) : string :=
  let text := replace_str (command1 "textbf") "<strong>$1</strong>" text in
  let text := replace_str (command1 "textit") "<em>$1</em>" text in
  let text := replace_str (command1 "emph") "<em>$1</em>" text in
  let text :=
    replace_str (Lit "{\em" · Plus true (Cls is_space) ·
                 Grp 1 (Star true (Cls (not_char "}"))) · Lit "}")
      "<em>$1</em>" text in
  let text :=
    replace_str (command1 "url")
      ("<a href=" +:+ dq +:+ "$1" +:+ dq +:+ ">$1</a>") text in
  let text := replace_str (Lit "~" · NotAhead (Lit "\")) " " text in
  let text := replace_str (Lit "``") ldquo text in
  let text := replace_str (Lit "''") rdquo text in
  let text := replace_str (Lit "\&") "&amp;" text in
  let text := replace_str (Lit "---") mdash text in
  let text := replace_str (Lit "--") ndash text in
  replace_str (Lit "\\") EmptyString text.

(** The body of the first loop, for one piece that follows a [\bibitem{]. *)
Definition parse_item (item : string) : bibref :=
  let closeBrace := Pipeline.index_of "}" item in
  let key :=
    match closeBrace with
    | Some i => first_n i item
    | None => EmptyString
    end in
  let content :=
    trim (match closeBrace with
          | Some i => skip_n (S i) item
          | None => item
          end) in
  let content :=
    replace_str (Lit "\newblock" · Star true (Cls is_space)) EmptyString content in
  let parts :=
    List.filter (fun l => negb (String.eqb l EmptyString))
      (map trim (split_on nl content)) in
  BibRef key
    (cleanText (nth 0 parts EmptyString))
    (cleanText (nth 1 parts EmptyString))
    (cleanText (join " " (skipn 2 parts))).

Definition parsed_refs (bibTex : string) : list bibref :=
  map parse_item (tail (split_on "\bibitem{" bibTex)).

(** [ref.title.toLowerCase().replace(/[^a-z0-9]/g, '').substring(0, 40)] *)
Definition title_key (ref : bibref) : string :=
  first_n 40
    (replace_str (Cls (fun c => negb (is_lower c || is_digit c))) EmptyString
       (Figures.toLowerCase (title ref))).

(** The second loop: [seen] is the [Set] of the title keys met so far. *)
Definition dedupe_step (st : gset string * list bibref) (ref : bibref)
  : gset string * list bibref :=
  let key := title_key ref in
  if negb (String.eqb key EmptyString) && bool_decide (key ∈ fst st) then st
  else ((if String.eqb key EmptyString then fst st else {[ key ]} ∪ fst st),
        snd st ++ [ref]).

Definition dedupe (refs : list bibref) : list bibref :=
  snd (fold_left dedupe_step refs (∅, [])).

Definition extractBibliography (bibTex : string) : list bibref :=
  dedupe (parsed_refs bibTex).

End TexBib.

(** ** Macros of the preamble for the typesetter: [extractKatexMacros]
    (render-math.js, second copy) *)

Module KatexMacros.
Import Js Re.
Local Open Scope regex_scope.

Definition any_upto (c : ascii) : regex := Star true (Cls (not_char c)).

(** The pattern of the first loop: [\newcommand] or [\renewcommand], the
    name in braces (group 1), an optional number of arguments in brackets,
    and the definition in braces up to the first closing brace (group 2). *)
Definition newcmd : regex :=
  Lit "\" · Alt (Lit "newcommand") (Lit "renewcommand") · Lit "{\" ·
  Grp 1 (Plus true (Cls is_alpha)) · Lit "}" ·
  Opt (Lit "[" · Plus true (Cls is_digit) · Lit "]") · Lit "{" ·
  Grp 2 (any_upto "}") · Lit "}".

Definition clean_newcmd (def : string) : string :=
  let def :=
    replace_str (Lit "\mbox{\boldmath{$" · Grp 1 (any_upto "$") · Lit "$}}")
      "\boldsymbol{$1}" def in
  let def :=
    replace_str (Lit "\mbox{\boldmath{" · Grp 1 (any_upto "}") · Lit "}}")
      "\boldsymbol{$1}" def in
  let def :=
    replace_str (Lit "\ensuremath{" · Grp 1 (any_upto "}") · Lit "}") "$1" def in
  let def :=
    replace_str (Lit "\mbox{" · Grp 1 (any_upto "}") · Lit "}") "\text{$1}" def in
  replace_str (Lit "$") EmptyString def.

(** [macros['\\' + m[1]] = def]; a key that begins with a backslash is an
    ordinary own property. *)
Definition newcmd_step (macros : gmap string string) (m : jsmatch)
  : gmap string string :=
  <["\" +:+ group 1 m := clean_newcmd (group 2 m)]> macros.

(** The pattern of the second loop: [\def] and the name (group 1). *)
Definition defRe : regex := Lit "\def\" · Grp 1 (Plus true (Cls is_alpha)).

(** The [for] loop over the text from the opening brace: the offset of the
    brace at which the depth comes back to zero. *)
Fixpoint close_offset (depth : Z) (s : string) : option nat :=
  match s with
  | EmptyString => None
  | String c s' =>
      if Ascii.eqb c "{" then S <$> close_offset (depth + 1) s'
      else if Ascii.eqb c "}" then
        if Z.eqb (depth - 1) 0 then Some 0
        else S <$> close_offset (depth - 1) s'
      else S <$> close_offset depth s'
  end.

(** [tex.substring(start + 1, end)] for the text [s] from [start] on; when
    no closing brace is found [end] is [start], and [substring] swaps its
    arguments. *)
Definition def_value (s : string) : string :=
  match close_offset 0 s with
  | Some e => first_n (e - 1) (skip_n 1 s)
  | None => first_n 1 s
  end.

Definition clean_def (defVal : string) : string :=
  let defVal :=
    replace_str (Lit "\boldsymbol{\mathbf{#1}}") "\boldsymbol{#1}" defVal in
  replace_str (Lit "\vec{" · Grp 1 (any_upto "}") · Lit "}") "\boldsymbol{$1}"
    defVal.

Definition def_step (tex : string) (macros : gmap string string) (m : jsmatch)
  : gmap string string :=
  let rest := skip_n (m_index m + String.length (m_text m)) tex in
  match Pipeline.index_of "{" rest with
  | None => macros
  | Some j =>
      <["\" +:+ group 1 m := clean_def (def_value (skip_n j rest))]> macros
  end.

Definition extractKatexMacros (tex : string) : gmap string string :=
  let macros := fold_left newcmd_step (exec_all newcmd tex) ∅ in
  fold_left (def_step tex) (exec_all defRe tex) macros.

End KatexMacros.

(** ** Texts with reference and label commands *)

Module Commands.
Import Js Re Labels.

(** The four commands that [resolveRefs] rewrites, in the order of its
    passes. *)
Inductive command : Type := Eqref | Ref | Autoref | LabelCmd.

Definition command_name (c : command) : string :=
  match c with
  | Eqref => "eqref"
  | Ref => "ref"
  | Autoref => "autoref"
  | LabelCmd => "label"
  end.

Definition command_eqb (c c' : command) : bool :=
  match c, c' with
  | Eqref, Eqref | Ref, Ref | Autoref, Autoref | LabelCmd, LabelCmd => true
  | _, _ => false
  end.

(** The callback of the pass of a command. *)
Definition callback (labels : gmap string label) (c : command)
  : jsmatch -> string :=
  match c with
  | Eqref => eqref_cb labels
  | Ref => cross_ref ref_prefix labels
  | Autoref => cross_ref autoref_prefix labels
  | LabelCmd => anchor_cb
  end.

(** A command as it is written in the source text. *)
Definition written (c : command) (key : string) : string :=
  ("\" +:+ command_name c +:+ "{") +:+ key +:+ "}".

(** A command with its key, after the text that precedes it. *)
Record invocation : Type := Invocation {
  inv_text : string;
  inv_cmd : command;
  inv_key : string
}.

(** A text with commands; [tail] follows the last of them. *)
Fixpoint with_commands (items : list invocation) (tail : string) : string :=
  match items with
  | [] => tail
  | i :: items' =>
      inv_text i +:+ written (inv_cmd i) (inv_key i) +:+ with_commands items' tail
  end.

(** None of the four commands opens in the text; other commands may. *)
Definition quiet (s : string) : bool :=
  negb (includes s "\eqref{") && negb (includes s "\ref{") &&
  negb (includes s "\autoref{") && negb (includes s "\label{").

(** A key that the patterns capture in full: not empty, without closing
    brace, and without one of the four commands inside. *)
Definition key_ok (key : string) : bool :=
  negb (String.eqb key EmptyString) && all_chars (not_char "}") key && quiet key.

Definition invocation_ok (i : invocation) : bool :=
  quiet (inv_text i) && key_ok (inv_key i).

(** The stretches of a text during the passes: text without backslash,
    text in which none of the four commands opens, and commands still to be
    rewritten. *)
Inductive chunk : Type :=
| Plain (s : string)
| Quiet (s : string)
| Cmd (c : command) (key : string).

Definition chunk_text (ch : chunk) : string :=
  match ch with
  | Plain s => s
  | Quiet s => s
  | Cmd c key => written c key
  end.

Definition text_of (chs : list chunk) : string := concat_all (map chunk_text chs).

(** A character that stands in none of the four command names: a command
    cannot begin before it and run over it. *)
Definition safe_char (g : ascii) : bool := all_chars (not_char g) "eqrf{autolb".
Definition safe_head (s : string) : bool :=
  match s with
  | EmptyString => true
  | String g _ => safe_char g
  end.

Fixpoint wf (chs : list chunk) : bool :=
  match chs with
  | [] => true
  | Plain s :: chs' => plain s && wf chs'
  | Quiet s :: chs' => quiet s && safe_head (text_of chs') && wf chs'
  | Cmd _ key :: chs' => key_ok key && wf chs'
  end.

(** What the callback of a command writes, in stretches. *)
Definition output (labels : gmap string label) (c : command) (key : string)
  : list chunk :=
  match c with
  | Eqref =>
      match labels !! key with
      | Some l =>
          [Plain ("<a href=" +:+ dq +:+ "#"); Quiet key;
           Plain (dq +:+ " class=" +:+ dq +:+ "eq-ref" +:+ dq +:+ ">("
                  +:+ number_to_string (number l) +:+ ")</a>")]
      | None => [Plain "(?)"]
      end
  | Ref =>
      match labels !! key with
      | Some l =>
          [Plain ("<a href=" +:+ dq +:+ "#"); Quiet key;
           Plain (dq +:+ " class=" +:+ dq +:+ "cross-ref" +:+ dq +:+ ">"
                  +:+ ref_prefix (type l) +:+ " "
                  +:+ number_to_string (number l) +:+ "</a>")]
      | None => [Plain "?"]
      end
  | Autoref =>
      match labels !! key with
      | Some l =>
          [Plain ("<a href=" +:+ dq +:+ "#"); Quiet key;
           Plain (dq +:+ " class=" +:+ dq +:+ "cross-ref" +:+ dq +:+ ">"
                  +:+ autoref_prefix (type l) +:+ " "
                  +:+ number_to_string (number l) +:+ "</a>")]
      | None => [Plain "?"]
      end
  | LabelCmd =>
      [Plain ("<span id=" +:+ dq); Quiet key;
       Plain (dq +:+ " class=" +:+ dq +:+ "label-anchor" +:+ dq +:+ "></span>")]
  end.

(** The effect of the pass of [c0] on a stretch. *)
Definition pass (labels : gmap string label) (c0 : command) (ch : chunk)
  : list chunk :=
  match ch with
  | Cmd c key => if command_eqb c c0 then output labels c key else [ch]
  | _ => [ch]
  end.

Definition chunks_of (items : list invocation) (tail : string) : list chunk :=
  flat_map (fun i => [Quiet (inv_text i); Cmd (inv_cmd i) (inv_key i)]) items
  ++ [Quiet tail].

(** Example data: three unresolved references and a label among other
    commands. *)
Definition example_invocations : list invocation :=
  [Invocation "By \textbf{Eq.} " Eqref "eq:loss";
   Invocation " and \cite{x}, Fig. " Ref "fig:arch";
   Invocation ". \section{Intro}" LabelCmd "sec:intro";
   Invocation " see " Autoref "tab:1"].

(** A table that holds the key of the first of them. *)
Definition example_labels : gmap string label :=
  {[ "eq:loss" := Label equation (Num 1) ]}.

End Commands.

(** * Properties *)

(** ** Facts about strings and the matcher *)

Module ReFacts.
Import Js Re.
#[local] Arguments String.append !_ _ /.

Lemma app_nil_r (s : string) : s +:+ EmptyString = s.
Proof. induction s as [|c s IH]; simpl; [done|by rewrite IH]. Qed.

Lemma app_assoc (a b c : string) : (a +:+ b) +:+ c = a +:+ b +:+ c.
Proof. induction a as [|x a IH]; simpl; [done|by rewrite IH]. Qed.

Lemma app_assoc3 (a b c d : string) :
  (a +:+ b +:+ c) +:+ d = a +:+ b +:+ c +:+ d.
Proof. by rewrite !app_assoc. Qed.

Lemma length_app (a b : string) :
  String.length (a +:+ b) = String.length a + String.length b.
Proof. induction a as [|x a IH]; simpl; [done|by rewrite IH]. Qed.

Lemma first_n_app (a b : string) : first_n (String.length a) (a +:+ b) = a.
Proof. induction a as [|x a IH]; simpl; [by destruct b|by rewrite IH]. Qed.

Lemma consumed_app (a b : string) : consumed (a +:+ b) b = a.
Proof.
  unfold consumed. rewrite length_app.
  replace (String.length a + String.length b - String.length b)
    with (String.length a) by lia.
  apply first_n_app.
Qed.

Lemma strip_prefix_app (p s : string) : strip_prefix p (p +:+ s) = Some s.
Proof.
  induction p as [|a p IH]; simpl; [done|].
  by rewrite Ascii.eqb_refl.
Qed.

Lemma all_chars_app (p : ascii -> bool) (a b : string) :
  all_chars p (a +:+ b) = all_chars p a && all_chars p b.
Proof.
  induction a as [|x a IH]; simpl; [done|].
  rewrite IH. by rewrite andb_assoc.
Qed.

Lemma plain_app a b : plain (a +:+ b) = plain a && plain b.
Proof. apply all_chars_app. Qed.

Lemma last_char_app (a b : string) (d : option ascii) :
  last_char (a +:+ b) d = last_char b (last_char a d).
Proof. revert d. induction a as [|x a IH]; intros d; simpl; [done|apply IH]. Qed.

Lemma lit_step_app l k prev rest caps :
  lit_step l k (MState prev (l +:+ rest) caps)
  = k (MState (last_char l prev) rest caps).
Proof. unfold lit_step. cbn [m_rest m_prev m_caps]. by rewrite strip_prefix_app. Qed.

Lemma lit_step_miss a l k prev c s caps :
  not_char a c = true ->
  lit_step (String a l) k (MState prev (String c s) caps) = None.
Proof.
  intros H. unfold lit_step. cbn [m_rest strip_prefix].
  unfold not_char in H. apply negb_true_iff in H.
  by rewrite Ascii.eqb_sym, H.
Qed.

(** An optional literal that is absent is skipped. *)
Lemma opt_lit_miss l k st :
  strip_prefix l (m_rest st) = None ->
  rmatch (Opt (Lit l)) k st = k (MState (m_prev st) (m_rest st) (m_caps st)).
Proof. intros H. unfold Opt. cbn [rmatch]. unfold lit_step. by rewrite H. Qed.

(** *** Patterns that can only start at a given character *)

Lemma anchored_lit (a : ascii) (l : string) (r : regex) :
  anchored a (Seq (Lit (String a l)) r).
Proof.
  intros k [prev rest caps] H. simpl in *. unfold lit_step. simpl.
  destruct rest as [|c rest]; [done|].
  simpl in H. rewrite Ascii.eqb_sym, H. done.
Qed.

Lemma anchored_match_at a r idx prev s :
  anchored a r -> starts_with a s = false -> match_at r idx prev s = None.
Proof. intros Ha Hs. unfold match_at. by rewrite Ha. Qed.

Lemma scan_app_plain a r pre s idx prev :
  anchored a r -> all_chars (not_char a) pre = true ->
  scan r 0 idx prev (pre +:+ s)
  = chars pre ++ scan r 0 (idx + String.length pre) (last_char pre prev) s.
Proof.
  intros Ha. revert idx prev.
  induction pre as [|c pre IH]; intros idx prev Hp; simpl.
  - by rewrite Nat.add_0_r.
  - simpl in Hp. apply andb_prop in Hp as [Hc Hp].
    rewrite (anchored_match_at a); [|done|].
    + rewrite IH by done. do 3 f_equal. lia.
    + simpl. unfold not_char in Hc. by apply negb_true_iff in Hc.
Qed.

Lemma scan_plain a r s idx prev :
  anchored a r -> all_chars (not_char a) s = true ->
  scan r 0 idx prev s = chars s.
Proof.
  intros Ha Hs.
  rewrite <- (app_nil_r s) at 1.
  rewrite (scan_app_plain a) by done.
  simpl. rewrite (anchored_match_at a) by done.
  apply List.app_nil_r.
Qed.

Lemma scan_skip r t s idx prev :
  scan r (String.length t) idx prev (t +:+ s)
  = scan r 0 (idx + String.length t) (last_char t prev) s.
Proof.
  revert idx prev. induction t as [|c t IH]; intros idx prev; simpl.
  - by rewrite Nat.add_0_r.
  - rewrite IH. f_equal. lia.
Qed.

(** A non-empty match at the cursor is emitted and the scan resumes behind it. *)
Lemma scan_match r idx prev mt s m :
  match_at r idx prev (mt +:+ s) = Some m ->
  m_text m = mt ->
  mt <> EmptyString ->
  scan r 0 idx prev (mt +:+ s)
  = TMatch m :: scan r 0 (idx + String.length mt) (last_char mt prev) s.
Proof.
  intros Hm Ht Hne. destruct mt as [|c t]; [done|].
  simpl in *. rewrite Hm, Ht. simpl.
  rewrite scan_skip. do 2 f_equal. lia.
Qed.

Lemma matches_of_app ts1 ts2 :
  matches_of (ts1 ++ ts2) = matches_of ts1 ++ matches_of ts2.
Proof.
  induction ts1 as [|[c|m] ts1 IH]; simpl; [done|done|by rewrite IH].
Qed.

Lemma matches_of_chars s : matches_of (chars s) = [].
Proof. induction s; simpl; done. Qed.

Lemma render_app f ts1 ts2 :
  render f (ts1 ++ ts2) = render f ts1 +:+ render f ts2.
Proof.
  induction ts1 as [|[c|m] ts1 IH]; simpl; [done|by rewrite IH|].
  by rewrite IH, app_assoc.
Qed.

Lemma render_chars f s : render f (chars s) = s.
Proof. induction s as [|c s IH]; simpl; [done|by rewrite IH]. Qed.

Lemma replace_fn_plain a r f s :
  anchored a r -> all_chars (not_char a) s = true -> replace_fn r f s = s.
Proof.
  intros Ha Hs. unfold replace_fn, tokens.
  rewrite (scan_plain a) by done. apply render_chars.
Qed.

Lemma render_st_chars {S} (f : S -> jsmatch -> string * S) st s ts :
  render_st f st (chars s ++ ts)
  = (s +:+ fst (render_st f st ts), snd (render_st f st ts)).
Proof.
  induction s as [|c s IH]; simpl.
  - by destruct (render_st f st ts).
  - rewrite IH. done.
Qed.

Lemma scan_miss r idx prev c s :
  match_at r idx prev (String c s) = None ->
  scan r 0 idx prev (String c s) = TChar c :: scan r 0 (S idx) (Some c) s.
Proof. intros H. simpl. by rewrite H. Qed.

(** One match between two stretches of text in which the pattern cannot start. *)
Lemma replace_fn_single a r f pre mt post grps :
  anchored a r ->
  all_chars (not_char a) pre = true ->
  all_chars (not_char a) post = true ->
  (forall idx prev, match_at r idx prev (mt +:+ post) = Some (JsMatch idx mt grps)) ->
  mt <> EmptyString ->
  (forall idx, f (JsMatch idx mt grps) = f (JsMatch 0 mt grps)) ->
  replace_fn r f (pre +:+ mt +:+ post) = pre +:+ f (JsMatch 0 mt grps) +:+ post.
Proof.
  intros Ha Hpre Hpost Hm Hne Hf. unfold replace_fn, tokens.
  rewrite (scan_app_plain a) by done.
  rewrite (scan_match r _ _ mt post _ (Hm _ _)) by done.
  rewrite (scan_plain a) by done.
  rewrite render_app, render_chars. simpl.
  by rewrite render_chars, Hf.
Qed.

(** A command at which the pattern fails, between two such stretches. *)
Lemma replace_fn_miss a r f pre rest :
  anchored a r ->
  all_chars (not_char a) pre = true ->
  all_chars (not_char a) rest = true ->
  (forall idx prev, match_at r idx prev (String a rest) = None) ->
  replace_fn r f (pre +:+ String a rest) = pre +:+ String a rest.
Proof.
  intros Ha Hpre Hrest Hm. unfold replace_fn, tokens.
  rewrite (scan_app_plain a) by done.
  rewrite scan_miss by done.
  rewrite (scan_plain a) by done.
  rewrite render_app, render_chars. simpl.
  by rewrite render_chars.
Qed.

(** *** A replacement that returns the matched text changes nothing *)

Lemma first_n_skip_n s : forall k,
  first_n k s +:+ skip_n (String.length (first_n k s)) s = s.
Proof.
  induction s as [|c s IH]; intros [|k]; simpl; try done.
  by rewrite IH.
Qed.

Lemma match_at_text r idx prev s m :
  match_at r idx prev s = Some m -> exists k, m_text m = first_n k s.
Proof.
  unfold match_at. destruct (rmatch r Some _) as [st|]; [|done].
  intros [= <-]. simpl. by eexists.
Qed.

Lemma render_text r s : forall skip idx prev,
  render m_text (scan r skip idx prev s) = skip_n skip s.
Proof.
  induction s as [|c s IH]; intros skip idx prev.
  - destruct skip; simpl; [|done].
    destruct (match_at r idx prev EmptyString) as [m|] eqn:E; [|done].
    apply match_at_text in E as [k E]. simpl. rewrite E. by destruct k.
  - destruct skip as [|n]; [|simpl; apply IH].
    cbn [scan].
    destruct (match_at r idx prev (String c s)) as [m|] eqn:E.
    + apply match_at_text in E as [k E]. cbn [render].
      destruct (String.length (m_text m)) as [|n] eqn:L.
      * destruct (m_text m); [|done]. simpl. by rewrite IH.
      * rewrite IH, E. rewrite E in L. simpl.
        pose proof (first_n_skip_n (String c s) k) as F.
        rewrite L in F. exact F.
    + simpl. by rewrite IH.
Qed.

Lemma render_ext f g ts :
  Forall (fun m => f m = g m) (matches_of ts) -> render f ts = render g ts.
Proof.
  induction ts as [|[c|m] ts IH]; simpl; intros H; [done| |].
  - by rewrite IH.
  - apply Forall_cons in H as [Hm H]. by rewrite Hm, IH.
Qed.

Lemma replace_fn_unchanged r f s :
  Forall (fun m => f m = m_text m) (exec_all r s) -> replace_fn r f s = s.
Proof.
  intros H. unfold replace_fn. rewrite (render_ext f m_text) by done.
  apply (render_text r s 0 0 None).
Qed.

(** *** Repetition *)

Lemma steps_cls (P Q : ascii -> bool) :
  (forall c, P c = true -> Q c = true) -> steps (Cls Q) P.
Proof.
  intros HPQ k prev c s caps res Hc Hk. simpl. unfold cls_step. simpl.
  by rewrite (HPQ c Hc).
Qed.

Lemma steps_alt_l (X Y : regex) (P : ascii -> bool) :
  steps X P -> steps (Alt X Y) P.
Proof.
  intros HX k prev c s caps res Hc Hk. simpl.
  by rewrite (HX k prev c s caps res).
Qed.

(** A lazy repetition runs over [run] when the continuation cannot succeed
    before the end of it. *)
Lemma star_lazy_run (X : regex) (P : ascii -> bool) (k : kont) rest res :
  steps X P ->
  (forall prev c s caps, P c = true -> k (MState prev (String c s) caps) = None) ->
  forall run fuel prev caps,
    all_chars P run = true ->
    String.length run <= fuel ->
    k (MState (last_char run prev) rest caps) = Some res ->
    star_loop false (rmatch X) k fuel (MState prev (run +:+ rest) caps) = Some res.
Proof.
  intros HX Hk. induction run as [|c run IH]; intros fuel prev caps Hrun Hfuel Hend.
  - simpl in *. destruct fuel; simpl; by rewrite Hend.
  - simpl in Hrun. apply andb_prop in Hrun as [Hc Hrun].
    destruct fuel as [|fuel]; [simpl in Hfuel; lia|].
    simpl. rewrite Hk by done.
    apply HX; [done|]. simpl.
    destruct (Nat.ltb_spec (String.length (run +:+ rest))
                (S (String.length (run +:+ rest)))) as [_|?]; [|lia].
    apply IH; [done|simpl in Hfuel; lia|done].
Qed.

(** A greedy repetition runs to the end of [run] when the item cannot go on
    there and the continuation succeeds there. *)
Lemma star_greedy_run (X : regex) (P : ascii -> bool) (k : kont) rest res :
  steps X P ->
  (forall k' prev caps, rmatch X k' (MState prev rest caps) = None) ->
  forall run fuel prev caps,
    all_chars P run = true ->
    String.length run <= fuel ->
    k (MState (last_char run prev) rest caps) = Some res ->
    star_loop true (rmatch X) k fuel (MState prev (run +:+ rest) caps) = Some res.
Proof.
  intros HX Hstop. induction run as [|c run IH]; intros fuel prev caps Hrun Hfuel Hend.
  - simpl in *. destruct fuel; simpl; [done|]. by rewrite Hstop.
  - simpl in Hrun. apply andb_prop in Hrun as [Hc Hrun].
    destruct fuel as [|fuel]; [simpl in Hfuel; lia|].
    simpl. erewrite HX; [done|done|]. simpl.
    destruct (Nat.ltb_spec (String.length (run +:+ rest))
                (S (String.length (run +:+ rest)))) as [_|?]; [|lia].
    apply IH; [done|simpl in Hfuel; lia|done].
Qed.

Lemma cls_stops (p : ascii -> bool) (rest : string) :
  match rest with EmptyString => True | String c _ => p c = false end ->
  forall k' prev caps, rmatch (Cls p) k' (MState prev rest caps) = None.
Proof.
  intros H k' prev caps. simpl. unfold cls_step. simpl.
  destruct rest as [|c rest]; [done|]. by rewrite H.
Qed.

End ReFacts.

(** ** The structural segmenter *)

Module SectionsSpec.
Import Js Re ReFacts Sections.
#[local] Arguments String.append !_ _ /.

Lemma sectionPattern_needs_command idx prev s :
  startsWith s "\section" = false -> match_at sectionPattern idx prev s = None.
Proof.
  intros H. unfold match_at, sectionPattern. cbn [rmatch].
  unfold lit_step at 1. cbn [m_rest].
  unfold startsWith in H.
  by destruct (strip_prefix "\section" s).
Qed.

(** A pattern that needs the literal [lit] at its start finds nothing in a
    text that does not contain [lit]. *)
Lemma scan_without r lit :
  (forall idx prev s, startsWith s lit = false -> match_at r idx prev s = None) ->
  forall s skip idx prev,
    includes s lit = false -> matches_of (scan r skip idx prev s) = [].
Proof.
  intros Hr. induction s as [|c s IH]; intros skip idx prev Hs.
  - simpl in Hs. apply orb_false_elim in Hs as [Hs _].
    destruct skip; simpl; [|done]. by rewrite Hr.
  - simpl in Hs. apply orb_false_elim in Hs as [Hs1 Hs2].
    destruct skip; simpl.
    + rewrite Hr by done. simpl. by apply IH.
    + by apply IH.
Qed.

(** C2, counterexample: a body without any sectioning command yields no
    section at all, so the statement that one implicit section holding the
    whole body is returned fails, here on the body [Hello world]. *)
Lemma extractSections_no_implicit_section :
  ~ (forall body : string,
       includes body "\section" = false ->
       exists s, extractSections body = [s] /\ content s = body).
Proof.
  intros H. destruct (H "Hello world") as [s [Hs _]]; [reflexivity|].
  vm_compute in Hs. discriminate.
Qed.

(** C2, as amended: for every document body that contains no [\section]
    command, [extractSections] returns the empty list of sections. *)
Theorem extractSections_without_sectioning (body : string) :
  includes body "\section" = false -> extractSections body = [].
Proof.
  intros H. unfold extractSections, sectionStarts, exec_all, tokens.
  rewrite (scan_without sectionPattern "\section"); [done| |done].
  apply sectionPattern_needs_command.
Qed.

Lemma extractSections_without_sectioning_witness :
  includes "Attention is all you need." "\section" = false /\
  extractSections "Attention is all you need." = [].
Proof.
  split; [reflexivity|].
  apply (extractSections_without_sectioning "Attention is all you need.").
  reflexivity.
Defined.

End SectionsSpec.

(** ** The label table *)

Module LabelsSpec.
Import Js Re ReFacts Labels.

Lemma last_assignment_app k t1 t2 :
  last_assignment k (t1 ++ t2)
  = match last_assignment k t2 with
    | Some v => Some v
    | None => last_assignment k t1
    end.
Proof.
  induction t1 as [|[k' v] t1 IH]; simpl.
  - by destruct (last_assignment k t2).
  - rewrite IH. by destruct (last_assignment k t2).
Qed.

(** A numbered loop leaves for each key the value of its last [set]. *)
Lemma typed_fold_lookup ty keys : forall labels n k,
  fst (fold_left (typed_step ty) keys (labels, n)) !! k
  = match last_assignment k (numbered_from ty n keys) with
    | Some v => Some v
    | None => labels !! k
    end.
Proof.
  induction keys as [|key keys IH]; intros labels n k; simpl; [done|].
  unfold typed_step at 2. simpl. rewrite IH.
  destruct (last_assignment k (numbered_from ty (S n) keys)); [done|].
  destruct (String.eqb_spec key k) as [->|Hne].
  - by rewrite lookup_insert_eq.
  - by rewrite lookup_insert_ne.
Qed.

Lemma typed_pass_lookup ty keys labels k :
  typed_pass ty keys labels !! k
  = match last_assignment k (numbered ty keys) with
    | Some v => Some v
    | None => labels !! k
    end.
Proof. apply typed_fold_lookup. Qed.

(** The catch-all loop never overwrites an entry. *)
Lemma standalone_pass_lookup keys : forall (labels : gmap string label) k,
  standalone_pass keys labels !! k
  = match labels !! k with
    | Some v => Some v
    | None =>
        if bool_decide (k ∈ keys) then Some (Label unknown Question) else None
    end.
Proof.
  induction keys as [|key keys IH]; intros labels k; simpl.
  - by destruct (labels !! k).
  - unfold standalone_pass in *. simpl. rewrite IH. unfold standalone_step.
    destruct (labels !! key) eqn:Hkey.
    + destruct (labels !! k) eqn:Hk; [done|].
      assert (key <> k) by (intros ->; congruence).
      rewrite (bool_decide_ext (k ∈ key :: keys) (k ∈ keys)); [done|].
      rewrite elem_of_cons. split; [intros [->|?]|by right]; done.
    + destruct (decide (key = k)) as [->|Hne].
      * rewrite lookup_insert_eq, Hkey.
        rewrite (bool_decide_eq_true_2 (k ∈ k :: keys)); [done|by left].
      * rewrite lookup_insert_ne by done.
        destruct (labels !! k); [done|].
        rewrite (bool_decide_ext (k ∈ key :: keys) (k ∈ keys)); [done|].
        rewrite elem_of_cons. split; [intros [->|?]|by right]; done.
Qed.

Lemma spanning_first :
  first_assignment "f" (typed_assignments spanning_document)
  = Some (Label equation (Num 1)).
Proof. vm_compute. reflexivity. Qed.

Lemma spanning_final :
  collectLabels spanning_document !! "f" = Some (Label figure (Num 1)).
Proof. vm_compute. reflexivity. Qed.

(** The labelled equation of [spanning_document] gets no equation number. *)
Lemma spanning_equation_unknown :
  collectLabels spanning_document !! "e" = Some (Label unknown Question).
Proof. vm_compute. reflexivity. Qed.

(** C3, counterexample: in [spanning_document], whose two keys are distinct,
    the key [f] is first entered as equation 1 and then overwritten by the
    figure loop, so the entry made on first sighting is not the final one. *)
Lemma collectLabels_overwrites :
  ~ (forall (text k : string) (v : label),
       first_assignment k (typed_assignments text) = Some v ->
       collectLabels text !! k = Some v).
Proof.
  intros H.
  pose proof (H spanning_document "f" (Label equation (Num 1)) spanning_first)
    as Hc.
  rewrite spanning_final in Hc. discriminate.
Qed.

(** C3, as amended: [collectLabels] is a function of the text that runs five
    successive left-to-right loops (equation, figure, table, section, then
    every remaining label).  In a numbered loop the n-th match is given the
    ordinal n and its [set] overwrites an earlier entry of the same key, so
    the final entry of a key is the one of its last numbered [set]; the
    catch-all loop enters a key as unknown with number [?] only when it is
    absent, and overwrites nothing. *)
Theorem collectLabels_last_assignment (text k : string) :
  collectLabels text !! k
  = match last_assignment k (typed_assignments text) with
    | Some v => Some v
    | None =>
        if bool_decide (k ∈ keys_of standalonePattern 1 text)
        then Some (Label unknown Question) else None
    end.
Proof.
  unfold collectLabels, typed_assignments.
  rewrite standalone_pass_lookup, !typed_pass_lookup, !last_assignment_app.
  rewrite lookup_empty.
  destruct (last_assignment k (numbered section _)); [done|].
  destruct (last_assignment k (numbered table _)); [done|].
  destruct (last_assignment k (numbered figure _)); [done|].
  by destruct (last_assignment k (numbered equation _)).
Qed.

End LabelsSpec.

(** ** The module-level macro table of the renderer *)

Module MacroTableSpec.
Import Js Re RenderMath.

(** C9, counterexample: with the table of document A installed, the formula
    [\foo] renders through A's macro; once the setter has been called with
    the table of another document the same formula renders differently. *)
Lemma renderMath_sees_other_table :
  ~ (forall (katex : typesetter) (mA mB : store) (latex : string) (dm : bool),
       run (setCustomMacros (Some mA);; Second.renderMath katex latex dm) ∅
       = run (setCustomMacros (Some mA);; setCustomMacros (Some mB);;
              Second.renderMath katex latex dm) ∅).
Proof.
  intros H.
  specialize (H lookupTypesetter {[ "\foo" := "a" ]} {[ "\foo" := "b" ]}
                "\foo" false).
  vm_compute in H. discriminate.
Qed.

Lemma preserves_ret {A} (a : A) : preserves (mret a).
Proof. by intros s. Qed.

Lemma preserves_bind {A B} (m : M A) (f : A -> M B) :
  preserves m -> (forall a, preserves (f a)) -> preserves (m ≫= f).
Proof.
  intros Hm Hf s. unfold mbind, M_bind.
  specialize (Hm s). destruct (m s) as [a s']. simpl in Hm. subst s'.
  apply Hf.
Qed.

Lemma preserves_render_m f ts :
  (forall m, preserves (f m)) -> preserves (render_m f ts).
Proof.
  intros Hf. induction ts as [|[c|m] ts IH]; cbn [render_m].
  - apply preserves_ret.
  - apply preserves_bind; [done|]. intros. apply preserves_ret.
  - apply preserves_bind; [done|]. intros rep.
    apply preserves_bind; [done|]. intros. apply preserves_ret.
Qed.

Lemma preserves_map_m {A B} (f : A -> M B) l :
  (forall a, preserves (f a)) -> preserves (map_m f l).
Proof.
  intros Hf. induction l as [|a l IH]; cbn [map_m].
  - apply preserves_ret.
  - apply preserves_bind; [done|]. intros b.
    apply preserves_bind; [done|]. intros. apply preserves_ret.
Qed.

Lemma preserves_renderMath katex latex dm :
  preserves (Second.renderMath katex latex dm).
Proof. by intros s. Qed.

Lemma preserves_renderAll renderMath inline vd text :
  (forall latex dm, preserves (renderMath latex dm)) ->
  preserves (renderAll renderMath inline vd text).
Proof.
  intros H. unfold renderAll, replace_m.
  apply preserves_bind.
  - apply preserves_render_m. intros m. unfold env_cb.
    apply preserves_bind; [|intros; apply preserves_ret].
    apply preserves_map_m. intros line. unfold display_block.
    apply preserves_bind; [done|]. intros. apply preserves_ret.
  - intros r1. apply preserves_bind.
    + apply preserves_render_m. intros m. unfold display_cb.
      apply preserves_bind; [done|]. intros. apply preserves_ret.
    + intros r2. apply preserves_render_m. intros m. unfold inline_cb.
      apply preserves_bind; [done|]. intros. apply preserves_ret.
Qed.

(** C9, as amended: the renderer reads the module-level macro table and
    never writes it, so what it produces is a function of the table
    installed by the last call of the setter: after the same setter call two
    renders of the same text agree, whatever table was there before.  A
    conversion run installs the table of its own preamble before it renders
    its sections, so what a run produces does not depend on the table an
    earlier run left behind. *)
Theorem renderMath_reads_last_table (katex : typesetter) (m : option store)
  (katexMacros : store) (latex text : string) (dm : bool)
  (varDescriptions : JsObj.entries string) (sections : list string)
  (s1 s2 : store) :
  snd (Second.renderMath katex latex dm s1) = s1 /\
  snd (Second.renderAllMath katex text varDescriptions s1) = s1 /\
  run (setCustomMacros m;; Second.renderMath katex latex dm) s1
  = run (setCustomMacros m;; Second.renderMath katex latex dm) s2 /\
  run (setCustomMacros m;; Second.renderAllMath katex text varDescriptions) s1
  = run (setCustomMacros m;; Second.renderAllMath katex text varDescriptions) s2 /\
  run (Second.renderDocument katex katexMacros sections) s1
  = run (Second.renderDocument katex katexMacros sections) s2.
Proof.
  split; [apply preserves_renderMath|].
  split; [|by repeat split].
  apply preserves_renderAll. intros. apply preserves_renderMath.
Qed.

End MacroTableSpec.

(** ** Reference resolution *)

Module RefsSpec.
Import Js Re ReFacts Labels.
#[local] Arguments String.append !_ _ /.

(** The pattern [lit{key}] of the four rewriting passes matches a command
    whose key is not empty and holds no closing brace. *)
Lemma keyed_match (l key post : string) idx prev :
  key <> EmptyString ->
  all_chars (not_char "}") key = true ->
  match_at (Lit l · Grp 1 key_chars · Lit "}")%re idx prev
    (l +:+ key +:+ "}" +:+ post)
  = Some (JsMatch idx (l +:+ key +:+ "}") [(1, key)]).
Proof.
  intros Hne Hkey. destruct key as [|c key]; [done|].
  simpl in Hkey. apply andb_prop in Hkey as [Hc Hkey].
  unfold match_at, key_chars, Plus. cbn [rmatch].
  unfold lit_step at 1. cbn [m_rest]. rewrite strip_prefix_app.
  unfold cls_step at 1. cbn [m_rest String.append]. rewrite Hc.
  cbn [m_rest m_caps m_prev].
  erewrite (star_greedy_run (Cls (not_char "}")) (not_char "}") _ _
              (MState (Some "}"%char) post [(1, String c key)])).
  - cbn [m_rest m_caps].
    assert (E : l +:+ String c (key +:+ String "}" post)
                = (l +:+ String c (key +:+ "}")) +:+ post).
    { rewrite app_assoc. f_equal. simpl. f_equal. by rewrite app_assoc. }
    by rewrite E, consumed_app.
  - by apply steps_cls.
  - by apply cls_stops.
  - exact Hkey.
  - rewrite length_app. lia.
  - cbn [m_rest m_caps m_prev]. unfold lit_step. cbn [m_rest strip_prefix].
    rewrite Ascii.eqb_refl. cbn [m_prev m_caps last_char].
    change (String c (key +:+ String "}" post))
      with (String c key +:+ String "}" post).
    by rewrite consumed_app.
Qed.

Lemma keyed_anchored cmd : anchored "\" (keyed cmd).
Proof. apply anchored_lit. Qed.

Lemma keyed_single l f pre key post :
  plain pre = true -> plain post = true ->
  key <> EmptyString -> all_chars (not_char "}") key = true ->
  (forall idx txt grps, f (JsMatch idx txt grps) = f (JsMatch 0 txt grps)) ->
  replace_fn (Lit (String "\" l) · Grp 1 key_chars · Lit "}")%re f
    (pre +:+ String "\" l +:+ key +:+ "}" +:+ post)
  = pre +:+ f (JsMatch 0 (String "\" l +:+ key +:+ "}") [(1, key)]) +:+ post.
Proof.
  intros Hpre Hpost Hne Hkey Hf.
  rewrite <- (app_assoc3 (String "\" l) key "}" post).
  apply (replace_fn_single "\"); [apply anchored_lit|done|done| |done|].
  - intros idx prev. rewrite app_assoc3. by apply keyed_match.
  - intros idx. apply Hf.
Qed.

End RefsSpec.

(** ** Figures *)

Module FiguresSpec.
Import Js Re ReFacts Figures.
#[local] Arguments String.append !_ _ /.

Lemma blockPattern_anchored : anchored "\" blockPattern.
Proof. apply anchored_lit. Qed.

(** *** The loops of the extractor *)

Lemma loop_invariant {A B} (body : A -> B -> option A) (I : A -> Prop) :
  (forall a x a', I a -> body a x = Some a' -> I a') ->
  forall l a a', I a -> loop body l a = Some a' -> I a'.
Proof.
  intros Hbody. induction l as [|x l IH]; intros a a' Ha H; cbn [loop] in H.
  - by injection H as <-.
  - destruct (body a x) as [a1|] eqn:E; [|done].
    eapply IH; [|exact H]. by eapply Hbody.
Qed.

Lemma loop_returns {A B} (body : A -> B -> option A) (I : A -> Prop) :
  (forall a x a', I a -> body a x = Some a' -> I a') ->
  (forall a x, I a -> is_Some (body a x)) ->
  forall l a, I a -> is_Some (loop body l a).
Proof.
  intros Hkeep Hbody. induction l as [|x l IH]; intros a Ha; cbn [loop]; [done|].
  destruct (Hbody a x Ha) as [a' E]. rewrite E. apply IH. by eapply Hkeep.
Qed.

Section Host.
Context {W : Type} (h : host W) (P : W -> Prop).
Context (texBaseDir figuresDir : string).
Hypothesis Hkept : kept h P figuresDir.

Lemma execSync_keeps w cmd : P w -> P (snd (execSync h w cmd)).
Proof. destruct Hkept as (_ & _ & H). apply H. Qed.

Lemma convertPdfToPng_keeps pdfPath w :
  P w -> P (snd (convertPdfToPng h pdfPath figuresDir w)).
Proof.
  intros Hw. unfold convertPdfToPng, hasPdftoppm. cbv zeta.
  pose proof (execSync_keeps w "which pdftoppm" Hw) as H1.
  destruct (execSync h w "which pdftoppm") as [has w1]. cbn [snd] in H1.
  assert (H2 : forall cmd, P (snd (if has then execSync h w1 cmd else (false, w1)))).
  { intros cmd. destruct has; [by apply execSync_keeps|done]. }
  match goal with
  | |- context [if has then execSync h w1 ?cmd else _] => specialize (H2 cmd)
  end.
  destruct (if has then _ else _) as [done1 w2]. cbn [snd] in H2.
  destruct done1; [done|].
  pose proof (execSync_keeps w2 "which convert" H2) as H3.
  destruct (execSync h w2 "which convert") as [which w3]. cbn [snd] in H3.
  assert (H4 : forall cmd, P (snd (if which then execSync h w3 cmd else (false, w3)))).
  { intros cmd. destruct which; [by apply execSync_keeps|done]. }
  match goal with
  | |- context [if which then execSync h w3 ?cmd else _] => specialize (H4 cmd)
  end.
  destruct (if which then _ else _) as [done2 w4]. cbn [snd] in H4.
  destruct done2; [done|].
  match goal with
  | |- context [execSync h w4 ?cmd] =>
      pose proof (execSync_keeps w4 cmd H4) as H5;
      destruct (execSync h w4 cmd) as [done3 w5]
  end.
  cbn [snd] in H5. by destruct (done3 && _).
Qed.

Lemma processImage_keeps imgPath w out w' :
  P w -> processImage h texBaseDir figuresDir imgPath w = Some (out, w') -> P w'.
Proof.
  intros Hw. unfold processImage.
  destruct (resolveImage h texBaseDir imgPath w) as [resolved|];
    [|by intros [= _ <-]].
  cbv zeta. destruct (String.eqb _ ".pdf").
  { intros [= E]. pose proof (convertPdfToPng_keeps resolved w Hw) as H.
    by rewrite E in H. }
  destruct (existsb _ _).
  { destruct (existsSync h w _); [by intros [= _ <-]|].
    destruct (copyFileSync h w resolved _) as [w1|] eqn:E; [|done].
    intros [= _ <-]. destruct Hkept as (_ & H & _). by eapply H. }
  destruct (String.eqb _ ".eps"); [|by intros [= _ <-]].
  match goal with
  | |- context [execSync h w ?cmd] =>
      pose proof (execSync_keeps w cmd Hw) as H;
      destruct (execSync h w cmd) as [ok w1]
  end.
  cbn [snd] in H. by destruct ok; intros [= _ <-].
Qed.

Lemma image_step_keeps acc imgPath acc' :
  P (snd acc) ->
  image_step h texBaseDir figuresDir acc imgPath = Some acc' -> P (snd acc').
Proof.
  intros Hw. unfold image_step.
  destruct (processImage h texBaseDir figuresDir imgPath (snd acc))
    as [[[out|] w']|] eqn:E; [| |done];
    intros [= <-]; by eapply processImage_keeps.
Qed.

Lemma images_keep paths acc acc' :
  P (snd acc) ->
  loop (image_step h texBaseDir figuresDir) paths acc = Some acc' -> P (snd acc').
Proof.
  apply (loop_invariant _ (fun a => P (snd a))).
  intros a x a'. apply image_step_keeps.
Qed.

Lemma figure_step_keeps acc m acc' :
  P (snd acc) ->
  figure_step h texBaseDir figuresDir acc m = Some acc' -> P (snd acc').
Proof.
  intros Hw. unfold figure_step. cbv zeta.
  destruct (loop _ _ _) as [[imgs w']|] eqn:E; [|done].
  intros [= <-]. by apply (images_keep _ ([], snd acc) (imgs, w') Hw) in E.
Qed.

(** **** When no copy throws, the loops return *)

Lemma resolveImage_exists imgPath w resolved :
  resolveImage h texBaseDir imgPath w = Some resolved ->
  existsSync h w resolved = true.
Proof.
  unfold resolveImage. intros H. apply head_Some_elem_of in H.
  by apply list_elem_of_filter in H as [H _].
Qed.

Section Returns.
(** The copy of a file that exists into the figures directory does not
    throw. *)
Hypothesis copies :
  forall w src name,
    P w -> existsSync h w src = true ->
    is_Some (copyFileSync h w src (path_join h figuresDir name)).

Lemma processImage_returns imgPath w :
  P w -> is_Some (processImage h texBaseDir figuresDir imgPath w).
Proof.
  intros Hw. unfold processImage.
  destruct (resolveImage h texBaseDir imgPath w) as [resolved|] eqn:Hres;
    [|done].
  apply resolveImage_exists in Hres.
  cbv zeta. repeat case_match; try done.
  match goal with
  | H : copyFileSync h ?w0 ?a ?b = None |- _ =>
      destruct (copies w0 a (path_basename h resolved) Hw Hres) as [? E];
      congruence
  end.
Qed.

Lemma image_step_returns acc imgPath :
  P (snd acc) -> is_Some (image_step h texBaseDir figuresDir acc imgPath).
Proof.
  intros Hw. unfold image_step.
  destruct (processImage_returns imgPath (snd acc) Hw) as [[[out|] w'] ->]; done.
Qed.

Lemma figure_step_returns acc m :
  P (snd acc) -> is_Some (figure_step h texBaseDir figuresDir acc m).
Proof.
  intros Hw. unfold figure_step. cbv zeta.
  match goal with
  | |- context [loop ?f ?l ?a0] =>
      destruct (loop_returns f (fun st => P (snd st))
                  (fun st x st' => image_step_keeps st x st')
                  image_step_returns l a0 Hw) as [[imgs w'] ->]
  end.
  done.
Qed.

Lemma figures_return ms acc :
  P (snd acc) -> is_Some (loop (figure_step h texBaseDir figuresDir) ms acc).
Proof.
  apply (loop_returns _ (fun a => P (snd a))).
  - intros a x a'. apply figure_step_keeps.
  - apply figure_step_returns.
Qed.

End Returns.

(** **** Figures without a usable image *)

Lemma images_none : forall paths acc,
  Forall (unusable h P texBaseDir figuresDir) paths ->
  P (snd acc) ->
  exists w',
    loop (image_step h texBaseDir figuresDir) paths acc = Some (fst acc, w').
Proof.
  induction paths as [|p paths IH]; intros [imgs w] Hp Hw; cbn [loop].
  - by eexists.
  - apply Forall_cons in Hp as [Hp Hps]. cbn [snd] in Hw.
    destruct (Hp w Hw) as [w' E].
    assert (image_step h texBaseDir figuresDir (imgs, w) p = Some (imgs, w'))
      as -> by (unfold image_step; cbn [fst snd]; by rewrite E).
    destruct (IH (imgs, w') Hps) as [w'' ->]; [|by eexists].
    cbn [snd]. by eapply processImage_keeps.
Qed.

(** A turn of the loop that does not throw pushes one figure, numbered
    after the figures before it; the figure has no image when none of its
    images can be used. *)
Lemma figure_step_pushes acc m acc' :
  figure_step h texBaseDir figuresDir acc m = Some acc' ->
  exists fig,
    fst acc' = fst acc ++ [fig] /\ id fig = S (length (fst acc)) /\
    (P (snd acc) ->
     Forall (unusable h P texBaseDir figuresDir)
       (map (group 1) (exec_all graphicsPattern (group 1 m))) ->
     images fig = []).
Proof.
  unfold figure_step. cbv zeta. intros H.
  destruct (loop _ _ _) as [[imgs w']|] eqn:E; [|done].
  injection H as <-. eexists. repeat split. cbn [images fst]. intros Hw Hp.
  destruct (images_none _ ([], snd acc) Hp Hw) as [w'' E'].
  rewrite E' in E. by injection E as <- _.
Qed.

Lemma figures_pushed : forall ms acc acc',
  loop (figure_step h texBaseDir figuresDir) ms acc = Some acc' ->
  exists figs,
    fst acc' = fst acc ++ figs /\ length figs = length ms /\
    map id figs = seq (S (length (fst acc))) (length ms) /\
    forall k m,
      P (snd acc) ->
      ms !! k = Some m ->
      Forall (unusable h P texBaseDir figuresDir)
        (map (group 1) (exec_all graphicsPattern (group 1 m))) ->
      exists fig, figs !! k = Some fig /\ images fig = [].
Proof.
  induction ms as [|m ms IH]; intros acc acc' H; cbn [loop] in H.
  - injection H as <-. exists []. rewrite List.app_nil_r. repeat split.
    intros k m _ Hk. by rewrite lookup_nil in Hk.
  - destruct (figure_step _ _ _ acc m) as [acc1|] eqn:E; [|done].
    pose proof (fun Hw => figure_step_keeps acc m acc1 Hw E) as Hkeep.
    apply figure_step_pushes in E as (fig & E1 & Hid & Himg).
    destruct (IH _ _ H) as (figs & E2 & Hlen & Hids & Hfigs).
    exists (fig :: figs). repeat split.
    + by rewrite E2, E1, <- List.app_assoc.
    + cbn [length]. by rewrite Hlen.
    + cbn [map length seq]. rewrite Hid. f_equal. rewrite Hids, E1.
      rewrite List.length_app. cbn [length]. by rewrite Nat.add_1_r.
    + intros [|k] m' Hw Hk Hp.
      * injection Hk as <-. exists fig. split; [done|by apply Himg].
      * apply (Hfigs k m'); [by apply Hkeep|done|done].
Qed.

End Host.

(** The state in which the loop over the figures starts. *)
Lemma figures_dir_made {W} (h : host W) (P : W -> Prop) figuresDir w w0 :
  kept h P figuresDir -> P w ->
  (if existsSync h w figuresDir then Some w else mkdirSync h w figuresDir)
  = Some w0 ->
  P w0.
Proof.
  intros (Hmk & _ & _) Hw. destruct (existsSync h w figuresDir).
  - by intros [= <-].
  - by apply Hmk.
Qed.

Lemma extractFigures_returns {W} (h : host W) (P : W -> Prop)
  (texContent texBaseDir outputDir : string) (w : W) :
  P w -> kept h P (path_join h outputDir "figures") ->
  existsSync h w (path_join h outputDir "figures") = true \/
    is_Some (mkdirSync h w (path_join h outputDir "figures")) ->
  (forall w0 src name,
     P w0 -> existsSync h w0 src = true ->
     is_Some (copyFileSync h w0 src
                (path_join h (path_join h outputDir "figures") name))) ->
  is_Some (extractFigures h texContent texBaseDir outputDir w).
Proof.
  intros Hw Hkept Hdir Hcopy. unfold extractFigures. cbv zeta.
  destruct (if existsSync h w (path_join h outputDir "figures") then Some w
            else mkdirSync h w (path_join h outputDir "figures"))
    as [w0|] eqn:E.
  - apply (figures_return h P _ _ Hkept Hcopy). cbn [snd].
    by eapply figures_dir_made.
  - destruct Hdir as [Hex|[w0 Hmk]]; [by rewrite Hex in E|].
    destruct (existsSync _ _ _); congruence.
Qed.

(** When the figures directory is missing and cannot be made, the
    exception leaves [extractFigures]. *)
Lemma extractFigures_mkdir_throws {W} (h : host W)
  (texContent texBaseDir outputDir : string) (w : W) :
  existsSync h w (path_join h outputDir "figures") = false ->
  mkdirSync h w (path_join h outputDir "figures") = None ->
  extractFigures h texContent texBaseDir outputDir w = None.
Proof. intros E1 E2. unfold extractFigures. cbv zeta. by rewrite E1, E2. Qed.

(** So does the exception of a copy that fails. *)
Lemma extractFigures_copy_throws :
  extractFigures (mixed_host true) mixed_document "/src" "/out" mixed_tree = None.
Proof. vm_compute. reflexivity. Qed.

(** *** The example source tree *)


Lemma mixed_host_kept disk_full :
  kept (mixed_host disk_full) not_missing "/out/figures".
Proof.
  unfold kept, not_missing. repeat split.
  - intros w w' Hw [= <-]. cbn [forallb]. by rewrite Hw.
  - intros w src name w' Hw. cbn [copyFileSync mixed_host diskHost].
    destruct (disk_full || _); [done|]. intros [= <-].
    cbn [forallb]. by rewrite Hw.
  - intros w cmd Hw. exact Hw.
Qed.


End FiguresSpec.

(** ** Macro application *)

Module MacrosSpec.
Import Js Re ReFacts Macros.
#[local] Arguments String.append !_ _ /.

Lemma expand_dollar_free ng input m tmpl :
  dollar_free tmpl = true -> expand ng input m tmpl = tmpl.
Proof.
  induction tmpl as [|c t IH]; intros H; [done|].
  simpl in H. apply andb_prop in H as [Hc Ht].
  cbn [expand]. unfold not_char in Hc. rewrite Hc. by rewrite IH.
Qed.

Lemma word_not_backslash c : is_word c = true -> not_char "\" c = true.
Proof.
  destruct c as [[] [] [] [] [] [] [] []]; vm_compute; congruence.
Qed.

Lemma word_plain name : all_chars is_word name = true -> plain name = true.
Proof.
  induction name as [|c name IH]; simpl; [done|].
  intros H. apply andb_prop in H as [Hc H].
  unfold plain in *. simpl. by rewrite word_not_backslash, IH.
Qed.

Lemma zeroArgPattern_anchored name : anchored "\" (zeroArgPattern name).
Proof. apply anchored_lit. Qed.


Lemma zero_arg_no_match name c post idx prev :
  is_alpha c = true ->
  match_at (zeroArgPattern name) idx prev (String "\" name +:+ String c post)
  = None.
Proof.
  intros Hc. unfold match_at, zeroArgPattern. cbn [rmatch].
  change ("\" +:+ name) with (String "\" name).
  rewrite lit_step_app. cbn [rmatch]. unfold cls_step. cbn [m_rest m_caps m_prev].
  by rewrite Hc.
Qed.


(** The invocation of a longer command is left as it is. *)
Lemma zero_arg_keeps_longer name body pre c post :
  plain pre = true -> plain post = true -> all_chars is_word name = true ->
  is_alpha c = true ->
  replace_str (zeroArgPattern name) body (pre +:+ String "\" name +:+ String c post)
  = pre +:+ String "\" name +:+ String c post.
Proof.
  intros Hpre Hpost Hname Hc. unfold replace_str.
  change (String "\" name +:+ String c post)
    with (String "\" (name +:+ String c post)).
  apply (replace_fn_miss "\"); [apply zeroArgPattern_anchored|done| |].
  - fold (plain (name +:+ String c post)). rewrite plain_app, word_plain by done.
    unfold plain. simpl. fold (plain post). rewrite Hpost.
    assert (is_word c = true) as Hw by (unfold is_word; by rewrite Hc).
    by rewrite (word_not_backslash c Hw).
  - intros idx prev. by apply zero_arg_no_match.
Qed.

Lemma nested_table_extracted :
  extractMacros "\newcommand{\b}{x}\newcommand{\a}{\b}" = nested_table.
Proof. vm_compute. reflexivity. Qed.









(** C8, the failing input: the source [dollar_source] defines [\d] with the
    body [$$]; the invocation [\d] is replaced by a single [$], because the
    body is passed to [replace] as a replacement pattern, where [$$] stands
    for one dollar sign. *)
Theorem applyMacros_dollar_body :
  extractMacros dollar_source = [("d", Macro 0 "$$")] /\
  applyMacros dollar_source (extractMacros dollar_source)
  = "\newcommand{$}{$$} $".
Proof. split; vm_compute; reflexivity. Qed.

End MacrosSpec.

(** ** Citation badges *)

Module CitationsSpec.
Import Js Re ReFacts Citations.

Lemma keyToNum_unknown k : forall bibliography acc n,
  known bibliography k = false ->
  fst (fold_left keyToNum_step bibliography (acc, n)) !! k = acc !! k.
Proof.
  induction bibliography as [|r rest IH]; intros acc n Hk; simpl; [done|].
  simpl in Hk. apply orb_false_elim in Hk as [Hr Hrest].
  unfold keyToNum_step at 2. simpl. rewrite IH by done.
  unfold JsObj.set. destruct (String.eqb (key r) "__proto__"); [done|].
  apply String.eqb_neq in Hr. by rewrite lookup_insert_ne.
Qed.

Lemma keyToNum_known k : forall bibliography acc n,
  known bibliography k = true -> k <> "__proto__" ->
  exists j, fst (fold_left keyToNum_step bibliography (acc, n)) !! k = Some (S j).
Proof.
  induction bibliography as [|r rest IH]; intros acc n Hk Hproto; simpl; [done|].
  simpl in Hk. unfold keyToNum_step at 2. simpl.
  destruct (known rest k) eqn:Hrest; [by apply IH|].
  rewrite orb_false_r in Hk. apply String.eqb_eq in Hk. subst k.
  rewrite keyToNum_unknown by done.
  unfold JsObj.set. apply String.eqb_neq in Hproto. rewrite Hproto.
  rewrite lookup_insert_eq. exists n. f_equal. lia.
Qed.

(** For keys that are not names of [Object.prototype], the test of the
    callback is the intended one: some key of the group is a bibliography
    key. *)
Lemma anyMatch_known bibliography parts :
  Forall (fun k => JsObj.inherited k = false) parts ->
  anyMatch (build_keyToNum bibliography) parts = existsb (known bibliography) parts.
Proof.
  induction 1 as [|k parts Hk _ IH]; simpl; [done|].
  rewrite IH. f_equal. unfold JsObj.get, build_keyToNum.
  destruct (known bibliography k) eqn:E.
  - destruct (keyToNum_known k bibliography ∅ 0 E) as [j ->]; [|done].
    intros ->. done.
  - rewrite keyToNum_unknown by done. rewrite lookup_empty. by rewrite Hk.
Qed.

(** A bracketed group none of whose keys passes the test of the callback
    is left as it is, byte for byte. *)
Lemma citeBadges_unmatched_unchanged bibliography content :
  Forall (fun m => anyMatch (build_keyToNum bibliography) (parts_of (group 1 m))
                   = false)
    (exec_all bracketPattern content) ->
  citeBadges bibliography content = content.
Proof.
  intros H. apply replace_fn_unchanged.
  eapply Forall_impl; [exact H|]. intros m Hm. unfold badge_cb. by rewrite Hm.
Qed.

(** C5, the failing input: [constructor] is no key of the bibliography, yet
    the bracketed group [[constructor]] is turned into a badge, because the
    lookup [keyToNum[k]] on a plain object also finds the members inherited
    from [Object.prototype]. *)
Theorem citeBadges_inherited_key :
  known example_bibliography "constructor" = false /\
  citeBadges example_bibliography "see [constructor]"
  = "see <sup class=" +:+ dq +:+ "ref-badge" +:+ dq +:+ " data-ref=" +:+ dq
    +:+ "function Object() { [native code] }" +:+ dq +:+ " data-title=" +:+ dq
    +:+ "constructor" +:+ dq +:+ ">function Object() { [native code] }</sup>".
Proof. split; vm_compute; reflexivity. Qed.

End CitationsSpec.

(** ** The wrapper emitted around rendered math *)

Module MathSpec.
Import Js Re ReFacts RenderMath.

Lemma render_m_chars f s (st : store) : render_m f (chars s) st = (s, st).
Proof.
  induction s as [|c s IH]; [done|].
  cbn [chars render_m]. unfold mbind, M_bind. rewrite IH. done.
Qed.

Lemma inline_env_tokens : tokens envPattern "$x$" = chars "$x$".
Proof. vm_compute. reflexivity. Qed.

Lemma inline_display_tokens : tokens displayPattern "$x$" = chars "$x$".
Proof. vm_compute. reflexivity. Qed.

Lemma inline_tokens :
  tokens (inlinePattern inline_char) "$x$" = [TMatch (JsMatch 0 "$x$" [(1, "x")])].
Proof. vm_compute. reflexivity. Qed.

(** C1, the failing input: for every typesetter the inline span [$x$] is
    emitted as a [math-inline] element that wraps the annotated HTML of the
    typesetter and carries the class attribute only; with the stand-in
    typesetter, a text with an inline span, a display span and an equation
    environment yields elements in which [data-raw] does not occur. *)
Theorem renderAllMath_emits_no_data_raw :
  (forall (katex : typesetter) (st : store),
     run (First.renderAllMath katex "$x$" []) st
     = "<span class=" +:+ dq +:+ "math-inline" +:+ dq +:+ ">"
       +:+ annotateVarsInMath (run (First.renderMath katex "x" false ∅) st) []
       +:+ "</span>") /\
  run (First.renderAllMath lookupTypesetter three_spans []) ∅
  = "a <span class=" +:+ dq +:+ "math-inline" +:+ dq +:+ ">K[x]</span> b " +:+ nl
    +:+ "<div class=" +:+ dq +:+ "math-display" +:+ dq +:+ ">K[y]</div>" +:+ nl
    +:+ " c " +:+ nl
    +:+ "<div class=" +:+ dq +:+ "math-display" +:+ dq +:+ ">K[z]</div>" +:+ nl /\
  includes (run (First.renderAllMath lookupTypesetter three_spans []) ∅) "data-raw"
  = false.
Proof.
  split; [|split; vm_compute; reflexivity].
  intros katex st.
  unfold First.renderAllMath, renderAll, replace_m, run.
  unfold mbind at 1 2. unfold M_bind at 1 2.
  rewrite inline_env_tokens, render_m_chars.
  rewrite inline_display_tokens, render_m_chars.
  rewrite inline_tokens. cbn [render_m]. unfold inline_cb.
  change (trim (group 1 (JsMatch 0 "$x$" [(1, "x")]))) with "x".
  unfold mbind, M_bind, mret, M_ret.
  destruct (First.renderMath katex "x" false ∅ st) as [html st'].
  cbn [fst]. apply app_nil_r.
Qed.
End MathSpec.

(** ** Escaping *)

Module EscapeSpec.
Import Js Re ReFacts Text.
#[local] Arguments String.append !_ _ /.

Lemma lit_char_at a idx prev c s :
  match_at (Lit (str1 a)) idx prev (String c s)
  = if Ascii.eqb c a then Some (JsMatch idx (str1 c) []) else None.
Proof.
  unfold match_at. cbn [rmatch]. unfold lit_step, str1. cbn [m_rest strip_prefix].
  rewrite (Ascii.eqb_sym a c). destruct (Ascii.eqb c a); [|done].
  cbn [m_rest m_caps]. f_equal. f_equal.
  change (String c s) with (str1 c +:+ s). by rewrite consumed_app.
Qed.

Lemma lit_char_end a idx prev : match_at (Lit (str1 a)) idx prev EmptyString = None.
Proof. done. Qed.

(** Replacing a one-character pattern by a text without [$] is the
    substitution of that character. *)
Lemma replace_lit_char a t s :
  all_chars (not_char "$") t = true ->
  replace_str (Lit (str1 a)) t s = subst_char a t s.
Proof.
  intros Ht. unfold replace_str, replace_fn, tokens.
  generalize 0 at 2 as idx. generalize (@None ascii) as prev.
  generalize s at 1 as input.
  induction s as [|c s IH]; intros input prev idx; [done|].
  cbn [scan subst_char]. rewrite lit_char_at.
  destruct (Ascii.eqb c a).
  - cbn [render m_text String.length str1]. rewrite IH.
    by rewrite MacrosSpec.expand_dollar_free.
  - cbn [render]. by rewrite IH.
Qed.

Lemma subst_char_clean x a t s :
  all_chars (not_char x) t = true ->
  x = a \/ all_chars (not_char x) s = true ->
  all_chars (not_char x) (subst_char a t s) = true.
Proof.
  intros Ht. induction s as [|c s IH]; intros Hs; [done|].
  cbn [subst_char]. destruct (Ascii.eqb_spec c a) as [->|Hne].
  - rewrite all_chars_app, Ht. apply IH.
    destruct Hs as [?|Hs]; [by left|right].
    simpl in Hs. by apply andb_prop in Hs as [_ ?].
  - simpl. destruct Hs as [->|Hs].
    + rewrite IH by (by left). unfold not_char.
      apply Ascii.eqb_neq in Hne. by rewrite Hne.
    + simpl in Hs. apply andb_prop in Hs as [Hc Hs]. rewrite Hc.
      apply IH. by right.
Qed.

Lemma subst_char_absent a t s :
  all_chars (not_char a) s = true -> subst_char a t s = s.
Proof.
  induction s as [|c s IH]; intros H; [done|].
  simpl in H. apply andb_prop in H as [Hc H].
  cbn [subst_char]. unfold not_char in Hc. apply negb_true_iff in Hc.
  by rewrite Hc, IH.
Qed.

Lemma figures_escapeHtml_subst s :
  Figures.escapeHtml s
  = subst_char (chr 34) "&quot;"
      (subst_char ">" "&gt;" (subst_char "<" "&lt;" (subst_char "&" "&amp;" s))).
Proof.
  unfold Figures.escapeHtml.
  change (Lit dq) with (Lit (str1 (chr 34))).
  change (Lit ">") with (Lit (str1 ">")).
  change (Lit "<") with (Lit (str1 "<")).
  change (Lit "&") with (Lit (str1 "&")).
  by rewrite !replace_lit_char.
Qed.

Lemma html_inert_split s :
  html_inert s = true ->
  all_chars (not_char "&") s = true /\ all_chars (not_char "<") s = true /\
  all_chars (not_char ">") s = true /\ all_chars (not_char (chr 34)) s = true.
Proof.
  induction s as [|c s IH]; [done|].
  unfold html_inert. simpl. intros H. apply andb_prop in H as [Hc H].
  destruct (IH H) as (H1 & H2 & H3 & H4). rewrite H1, H2, H3, H4.
  apply negb_true_iff in Hc. apply orb_false_elim in Hc as [Hc Hq].
  apply orb_false_elim in Hc as [Hc Hg]. apply orb_false_elim in Hc as [Ha Hl].
  unfold not_char. by rewrite Ha, Hl, Hg, Hq.
Qed.

(** X1: the text returned by [escapeHtml] of the figure tool holds no [<],
    no [>] and no double quote, whatever the input is; an input without any
    of [&], [<], [>] and the double quote is returned as it is. *)
Theorem escapeHtml_output_safe (s : string) :
  all_chars (not_char "<") (Figures.escapeHtml s) = true /\
  all_chars (not_char ">") (Figures.escapeHtml s) = true /\
  all_chars (not_char (chr 34)) (Figures.escapeHtml s) = true /\
  (html_inert s = true -> Figures.escapeHtml s = s).
Proof.
  rewrite figures_escapeHtml_subst. repeat split.
  - apply subst_char_clean; [done|right].
    apply subst_char_clean; [done|right].
    apply subst_char_clean; [done|by left].
  - apply subst_char_clean; [done|right].
    apply subst_char_clean; [done|by left].
  - apply subst_char_clean; [done|by left].
  - intros H. apply html_inert_split in H as (H1 & H2 & H3 & H4).
    by rewrite (subst_char_absent "&"), (subst_char_absent "<"),
      (subst_char_absent ">"), (subst_char_absent (chr 34)).
Qed.

End EscapeSpec.

(** ** More on the structural segmenter *)

Module SectionsMore.
Import Js Re ReFacts Sections.
#[local] Arguments String.append !_ _ /.

Lemma sections_from body starts : forall pre l,
  starts = pre ++ l ->
  map number (omap (section_at body starts) (seq (length pre) (length l)))
    = seq (S (length pre)) (length l) /\
  map title (omap (section_at body starts) (seq (length pre) (length l)))
    = map ss_title l.
Proof.
  intros pre l. revert pre. induction l as [|x l IH]; intros pre E; [done|].
  cbn [length seq].
  assert (Hx : starts !! length pre = Some x).
  { rewrite E. by rewrite list_lookup_middle. }
  assert (Hs : exists c, section_at body starts (length pre)
                         = Some (Section_ (ss_title x) c (length pre + 1))).
  { unfold section_at. rewrite Hx. by eexists. }
  destruct Hs as [c Hc]. unfold omap in *. cbn [list_omap]. rewrite Hc.
  destruct (IH (pre ++ [x])) as [H1 H2].
  { by rewrite <- List.app_assoc. }
  rewrite List.length_app in H1, H2. cbn [length] in H1, H2.
  rewrite Nat.add_1_r in H1, H2.
  simpl. rewrite H1, H2. split; [|done]. f_equal. lia.
Qed.

(** X2: [extractSections] returns one section for each heading found by the
    pattern, in order: the sections are numbered 1, 2, ... and their titles
    are the captured titles. *)
Theorem extractSections_numbering (body : string) :
  map number (extractSections body)
    = seq 1 (length (exec_all sectionPattern body)) /\
  map title (extractSections body)
    = map (group 1) (exec_all sectionPattern body).
Proof.
  unfold extractSections.
  destruct (sections_from body (sectionStarts body) [] (sectionStarts body) eq_refl)
    as [H1 H2].
  cbn [length] in H1, H2. rewrite H1, H2.
  unfold sectionStarts. rewrite length_map, map_map. done.
Qed.

End SectionsMore.

(** ** Further facts about the matcher *)

Module ReMore.
Import Js Re ReFacts Text.
#[local] Arguments String.append !_ _ /.

(** A group holding a greedy, non-empty run of a class takes the whole run. *)
Lemma grp_plus_greedy n (P : ascii -> bool) (k : kont) key rest prev caps res :
  key <> EmptyString -> all_chars P key = true -> stops P rest ->
  k (MState (last_char key prev) rest ((n, key) :: caps)) = Some res ->
  rmatch (Grp n (Plus true (Cls P))) k (MState prev (key +:+ rest) caps) = Some res.
Proof.
  intros Hne Hkey Hstop Hk. destruct key as [|c key]; [done|].
  simpl in Hkey. apply andb_prop in Hkey as [Hc Hkey].
  unfold Plus. cbn [rmatch]. unfold cls_step at 1.
  cbn [m_rest String.append]. rewrite Hc. cbn [m_rest m_caps m_prev].
  apply (star_greedy_run (Cls P) P).
  - by apply steps_cls.
  - apply cls_stops. exact Hstop.
  - exact Hkey.
  - rewrite length_app. lia.
  - cbn [m_rest m_caps m_prev].
    change (String c (key +:+ rest)) with (String c key +:+ rest).
    by rewrite consumed_app.
Qed.

(** The same for a run that may be empty. *)
Lemma grp_star_greedy n (P : ascii -> bool) (k : kont) key rest prev caps res :
  all_chars P key = true -> stops P rest ->
  k (MState (last_char key prev) rest ((n, key) :: caps)) = Some res ->
  rmatch (Grp n (Star true (Cls P))) k (MState prev (key +:+ rest) caps) = Some res.
Proof.
  intros Hkey Hstop Hk. cbn [rmatch m_rest].
  apply (star_greedy_run (Cls P) P).
  - by apply steps_cls.
  - apply cls_stops. exact Hstop.
  - exact Hkey.
  - rewrite length_app. lia.
  - cbn [m_rest m_caps m_prev]. by rewrite consumed_app.
Qed.

(** A group holding a lazy run of any characters stops where the rest of the
    pattern first succeeds; in text without the character [a] a rest that is
    anchored at [a] cannot succeed. *)
Lemma grp_lazy_any n (a : ascii) (k : kont) body rest prev caps res :
  all_chars (not_char a) body = true ->
  (forall prev' c s caps', not_char a c = true ->
     k (MState prev' (String c s) caps') = None) ->
  k (MState (last_char body prev) rest ((n, body) :: caps)) = Some res ->
  rmatch (Grp n (Star false (Cls any_char))) k (MState prev (body +:+ rest) caps)
  = Some res.
Proof.
  intros Hbody Hfail Hk. cbn [rmatch m_rest].
  apply (star_lazy_run (Cls any_char) (not_char a)).
  - by apply steps_cls.
  - intros prev' c s caps' Hc. cbn [m_prev m_rest m_caps]. by apply Hfail.
  - exact Hbody.
  - rewrite length_app. lia.
  - cbn [m_rest m_caps m_prev]. by rewrite consumed_app.
Qed.

(** An optional literal that is present is taken when the rest succeeds. *)
Lemma opt_lit_hit l (k : kont) prev rest caps res :
  k (MState (last_char l prev) rest caps) = Some res ->
  rmatch (Opt (Lit l)) k (MState prev (l +:+ rest) caps) = Some res.
Proof.
  intros H. unfold Opt. cbn [rmatch]. by rewrite lit_step_app, H.
Qed.

Lemma match_at_of_rmatch r idx prev mt post st :
  rmatch r Some (MState prev (mt +:+ post) []) = Some st ->
  m_rest st = post ->
  match_at r idx prev (mt +:+ post) = Some (JsMatch idx mt (m_caps st)).
Proof.
  intros H Hrest. unfold match_at. rewrite H, Hrest. by rewrite consumed_app.
Qed.

(** The tokens of a text with one match between two stretches in which the
    pattern cannot start. *)
Lemma tokens_single a r pre mt post grps :
  anchored a r ->
  all_chars (not_char a) pre = true ->
  all_chars (not_char a) post = true ->
  (forall idx prev, match_at r idx prev (mt +:+ post) = Some (JsMatch idx mt grps)) ->
  mt <> EmptyString ->
  tokens r (pre +:+ mt +:+ post)
  = chars pre ++ TMatch (JsMatch (String.length pre) mt grps) :: chars post.
Proof.
  intros Ha Hpre Hpost Hm Hne. unfold tokens.
  rewrite (scan_app_plain a) by done.
  rewrite (scan_match r _ _ mt post _ (Hm _ _)) by done.
  by rewrite (scan_plain a) by done.
Qed.

Lemma exec_all_single a r pre mt post grps :
  anchored a r ->
  all_chars (not_char a) pre = true ->
  all_chars (not_char a) post = true ->
  (forall idx prev, match_at r idx prev (mt +:+ post) = Some (JsMatch idx mt grps)) ->
  mt <> EmptyString ->
  exec_all r (pre +:+ mt +:+ post) = [JsMatch (String.length pre) mt grps].
Proof.
  intros. unfold exec_all. rewrite (tokens_single a r pre mt post grps) by done.
  rewrite matches_of_app, matches_of_chars. simpl. by rewrite matches_of_chars.
Qed.

Lemma exec_all_plain a r s :
  anchored a r -> all_chars (not_char a) s = true -> exec_all r s = [].
Proof.
  intros. unfold exec_all, tokens. rewrite (scan_plain a) by done.
  apply matches_of_chars.
Qed.

Lemma skip_n_app a b : skip_n (String.length a) (a +:+ b) = b.
Proof. induction a as [|c a IH]; simpl; [by destruct b|done]. Qed.

Lemma first_n_all s : first_n (String.length s) s = s.
Proof. induction s as [|c s IH]; simpl; [done|by rewrite IH]. Qed.

End ReMore.

(** ** More on the structural segmenter: the text before the first heading *)

Module SectionsPrefix.
Import Js Re ReFacts Text ReMore Sections.
#[local] Arguments String.append !_ _ /.

Lemma sectionPattern_anchored : anchored "\" sectionPattern.
Proof. apply anchored_lit. Qed.

Lemma section_match star title post idx prev :
  star = EmptyString \/ star = "*" ->
  title <> EmptyString -> all_chars (not_char "}") title = true ->
  match_at sectionPattern idx prev
    (("\section" +:+ star +:+ "{" +:+ title +:+ "}") +:+ post)
  = Some (JsMatch idx ("\section" +:+ star +:+ "{" +:+ title +:+ "}") [(1, title)]).
Proof.
  intros Hstar Hne Htitle.
  apply (match_at_of_rmatch _ _ _ _ _ (MState (Some "}"%char) post [(1, title)]));
    [|done].
  unfold sectionPattern. cbn [rmatch].
  rewrite !app_assoc. rewrite lit_step_app.
  assert (Hrest : forall p,
    rmatch (Lit "{" · Grp 1 (Plus true (Cls (not_char "}"))) · Lit "}")%re Some
      (MState p ("{" +:+ title +:+ "}" +:+ post) [])
    = Some (MState (Some "}"%char) post [(1, title)])).
  { intros p. cbn [rmatch]. rewrite lit_step_app.
    apply grp_plus_greedy; [done|done|done|].
    cbn [rmatch]. by rewrite lit_step_app. }
  destruct Hstar as [-> | ->].
  - rewrite opt_lit_miss by reflexivity. apply Hrest.
  - apply opt_lit_hit. apply Hrest.
Qed.

(** X3: a body that starts with text other than a heading loses that text:
    with one heading, starred or not, the only section holds the trimmed
    text after the heading, and the text before the heading is in no
    section.  The title is not empty and holds no closing brace; the texts
    before and after hold no command. *)
Theorem extractSections_drops_preamble (star pre title body : string) :
  star = EmptyString \/ star = "*" ->
  plain pre = true -> plain body = true ->
  title <> EmptyString -> all_chars (not_char "}") title = true ->
  extractSections (pre +:+ ("\section" +:+ star +:+ "{" +:+ title +:+ "}") +:+ body)
  = [Section_ title (trim body) 1].
Proof.
  intros Hstar Hpre Hbody Hne Htitle.
  set (heading := "\section" +:+ star +:+ "{" +:+ title +:+ "}").
  unfold extractSections, sectionStarts.
  rewrite (exec_all_single "\" sectionPattern pre heading body [(1, title)]);
    [|apply sectionPattern_anchored|done|done| |by destruct Hstar as [-> | ->]].
  2: { intros idx prev. by apply section_match. }
  cbn [map length seq]. unfold omap. cbn [list_omap].
  unfold section_at. cbn [lookup list_lookup Nat.add].
  cbn [ss_index ss_fullMatch ss_title m_index m_text group m_groups get_cap
       Nat.eqb default id].
  do 2 f_equal. unfold substring.
  rewrite <- (app_assoc pre heading body). rewrite <- length_app.
  rewrite skip_n_app. rewrite length_app.
  replace (String.length (pre +:+ heading) + String.length body
           - String.length (pre +:+ heading)) with (String.length body) by lia.
  by rewrite first_n_all.
Qed.

Lemma extractSections_drops_preamble_witness :
  extractSections
    ("Lost words. " +:+ ("\section" +:+ "*" +:+ "{" +:+ "Intro" +:+ "}") +:+ " Kept. ")
  = [Section_ "Intro" (trim " Kept. ") 1].
Proof.
  apply (extractSections_drops_preamble "*" "Lost words. " "Intro" " Kept. ");
    [by right|reflexivity|reflexivity|discriminate|reflexivity].
Defined.

End SectionsPrefix.

(** ** More on reference resolution *)

Module RefsMore.
Import Js Re ReFacts Text ReMore Labels.
#[local] Arguments String.append !_ _ /.

Lemma digit_plain d : d < 10 -> not_char "\" (digit d) = true.
Proof.
  intros H. do 10 (destruct d as [|d]; [reflexivity|]). lia.
Qed.

Lemma nat_to_string_go_plain fuel : forall n acc,
  plain acc = true -> plain (nat_to_string_go fuel n acc) = true.
Proof.
  induction fuel as [|fuel IH]; intros n acc Hacc; [done|].
  cbn [nat_to_string_go].
  assert (Hd : plain (String (digit (n mod 10)) acc) = true).
  { unfold plain. cbn [all_chars]. rewrite digit_plain; [done|].
    apply Nat.mod_upper_bound. lia. }
  destruct (Nat.ltb n 10); [done|]. by apply IH.
Qed.

Lemma number_plain n : plain (number_to_string n) = true.
Proof. destruct n; [|done]. by apply nat_to_string_go_plain. Qed.

Lemma prefix_plain ty : plain (ref_prefix ty) = true /\ plain (autoref_prefix ty) = true.
Proof. by destruct ty. Qed.

Lemma keyed_rest_plain cmd key post :
  plain cmd = true -> plain key = true -> plain post = true ->
  plain (cmd +:+ key +:+ "}" +:+ post) = true.
Proof. intros Hc Hk Hp. by rewrite !plain_app, Hc, Hk, Hp. Qed.

(** A pass over text without any command changes nothing. *)
Ltac inert cmd txt :=
  rewrite (replace_fn_plain "\" (keyed cmd) _ txt)
    by (apply RefsSpec.keyed_anchored || assumption).

(** A pass that meets one command of another name leaves it. *)
Lemma keyed_other cmd cmd' f pre key post :
  plain pre = true -> plain key = true -> plain post = true ->
  plain cmd' = true ->
  (forall idx prev,
     match_at (keyed cmd) idx prev (String "\" (cmd' +:+ key +:+ "}" +:+ post))
     = None) ->
  replace_fn (keyed cmd) f (pre +:+ String "\" (cmd' +:+ key +:+ "}" +:+ post))
  = pre +:+ String "\" (cmd' +:+ key +:+ "}" +:+ post).
Proof.
  intros Hpre Hkey Hpost Hcmd Hm.
  apply (replace_fn_miss "\"); [apply RefsSpec.keyed_anchored|done| |done].
  by apply keyed_rest_plain.
Qed.

(** X4: a reference whose key has an entry in the label table becomes a
    link to the key: [\eqref] shows the number in parentheses, [\ref] and
    [\autoref] show the prefix of the label's kind, a space and the number.
    The key is not empty and holds no closing brace; key and surrounding
    text hold no command. *)
Theorem resolveRefs_resolved (labels : gmap string label) (l : label)
  (pre key post : string) :
  plain pre = true -> plain post = true ->
  key <> EmptyString -> all_chars (not_char "}") key = true ->
  plain key = true ->
  labels !! key = Some l ->
  resolveRefs (pre +:+ "\eqref{" +:+ key +:+ "}" +:+ post) labels
    = pre +:+ ("<a href=" +:+ dq +:+ "#" +:+ key +:+ dq +:+ " class=" +:+ dq
               +:+ "eq-ref" +:+ dq +:+ ">(" +:+ number_to_string (number l)
               +:+ ")</a>") +:+ post /\
  resolveRefs (pre +:+ "\ref{" +:+ key +:+ "}" +:+ post) labels
    = pre +:+ ("<a href=" +:+ dq +:+ "#" +:+ key +:+ dq +:+ " class=" +:+ dq
               +:+ "cross-ref" +:+ dq +:+ ">" +:+ ref_prefix (type l) +:+ " "
               +:+ number_to_string (number l) +:+ "</a>") +:+ post /\
  resolveRefs (pre +:+ "\autoref{" +:+ key +:+ "}" +:+ post) labels
    = pre +:+ ("<a href=" +:+ dq +:+ "#" +:+ key +:+ dq +:+ " class=" +:+ dq
               +:+ "cross-ref" +:+ dq +:+ ">" +:+ autoref_prefix (type l) +:+ " "
               +:+ number_to_string (number l) +:+ "</a>") +:+ post.
Proof.
  intros Hpre Hpost Hne Hkey Hplain Hsome.
  pose proof (number_plain (number l)) as Hnum.
  destruct (prefix_plain (type l)) as [Hp1 Hp2].
  set (eq_link := "<a href=" +:+ dq +:+ "#" +:+ key +:+ dq +:+ " class=" +:+ dq
               +:+ "eq-ref" +:+ dq +:+ ">(" +:+ number_to_string (number l)
               +:+ ")</a>").
  set (ref_link := "<a href=" +:+ dq +:+ "#" +:+ key +:+ dq +:+ " class=" +:+ dq
               +:+ "cross-ref" +:+ dq +:+ ">" +:+ ref_prefix (type l) +:+ " "
               +:+ number_to_string (number l) +:+ "</a>").
  set (auto_link := "<a href=" +:+ dq +:+ "#" +:+ key +:+ dq +:+ " class=" +:+ dq
               +:+ "cross-ref" +:+ dq +:+ ">" +:+ autoref_prefix (type l) +:+ " "
               +:+ number_to_string (number l) +:+ "</a>").
  assert (H1 : plain (pre +:+ eq_link +:+ post) = true).
  { unfold eq_link. by rewrite !plain_app, Hpre, Hpost, Hplain, Hnum. }
  assert (H2 : plain (pre +:+ ref_link +:+ post) = true).
  { unfold ref_link. by rewrite !plain_app, Hpre, Hpost, Hplain, Hnum, Hp1. }
  assert (H3 : plain (pre +:+ auto_link +:+ post) = true).
  { unfold auto_link. by rewrite !plain_app, Hpre, Hpost, Hplain, Hnum, Hp2. }
  unfold resolveRefs. repeat split.
  - change (keyed "eqref") with (Lit "\eqref{" · Grp 1 key_chars · Lit "}")%re at 1.
    rewrite (RefsSpec.keyed_single "eqref{") by (done || (intros; reflexivity)).
    unfold eqref_cb, group. cbn [m_groups get_cap Nat.eqb default id].
    rewrite Hsome. fold eq_link.
    inert "ref" (pre +:+ eq_link +:+ post).
    inert "autoref" (pre +:+ eq_link +:+ post).
    by inert "label" (pre +:+ eq_link +:+ post).
  - change (pre +:+ "\ref{" +:+ key +:+ "}" +:+ post)
      with (pre +:+ String "\" ("ref{" +:+ key +:+ "}" +:+ post)) at 1.
    rewrite (keyed_other "eqref" "ref{") by (done || (intros; by vm_compute)).
    change (String "\" ("ref{" +:+ key +:+ "}" +:+ post))
      with ("\ref{" +:+ key +:+ "}" +:+ post).
    change (keyed "ref") with (Lit "\ref{" · Grp 1 key_chars · Lit "}")%re at 1.
    rewrite (RefsSpec.keyed_single "ref{") by (done || (intros; reflexivity)).
    unfold cross_ref, group. cbn [m_groups get_cap Nat.eqb default id].
    rewrite Hsome. fold ref_link.
    inert "autoref" (pre +:+ ref_link +:+ post).
    by inert "label" (pre +:+ ref_link +:+ post).
  - change (pre +:+ "\autoref{" +:+ key +:+ "}" +:+ post)
      with (pre +:+ String "\" ("autoref{" +:+ key +:+ "}" +:+ post)) at 1.
    rewrite (keyed_other "eqref" "autoref{") by (done || (intros; by vm_compute)).
    rewrite (keyed_other "ref" "autoref{") by (done || (intros; by vm_compute)).
    change (String "\" ("autoref{" +:+ key +:+ "}" +:+ post))
      with ("\autoref{" +:+ key +:+ "}" +:+ post).
    change (keyed "autoref") with (Lit "\autoref{" · Grp 1 key_chars · Lit "}")%re at 1.
    rewrite (RefsSpec.keyed_single "autoref{") by (done || (intros; reflexivity)).
    unfold cross_ref, group. cbn [m_groups get_cap Nat.eqb default id].
    rewrite Hsome. fold auto_link.
    by inert "label" (pre +:+ auto_link +:+ post).
Qed.

Lemma resolveRefs_resolved_witness :
  resolveRefs ("see " +:+ "\eqref{" +:+ "eq:attn" +:+ "}" +:+ ".")
    {[ "eq:attn" := Label equation (Num 1) ]}
    = "see " +:+ ("<a href=" +:+ dq +:+ "#" +:+ "eq:attn" +:+ dq +:+ " class=" +:+ dq
               +:+ "eq-ref" +:+ dq +:+ ">(" +:+ "1" +:+ ")</a>") +:+ "." /\
  resolveRefs ("see " +:+ "\ref{" +:+ "eq:attn" +:+ "}" +:+ ".")
    {[ "eq:attn" := Label equation (Num 1) ]}
    = "see " +:+ ("<a href=" +:+ dq +:+ "#" +:+ "eq:attn" +:+ dq +:+ " class=" +:+ dq
               +:+ "cross-ref" +:+ dq +:+ ">" +:+ "Eq." +:+ " "
               +:+ "1" +:+ "</a>") +:+ "." /\
  resolveRefs ("see " +:+ "\autoref{" +:+ "eq:attn" +:+ "}" +:+ ".")
    {[ "eq:attn" := Label equation (Num 1) ]}
    = "see " +:+ ("<a href=" +:+ dq +:+ "#" +:+ "eq:attn" +:+ dq +:+ " class=" +:+ dq
               +:+ "cross-ref" +:+ dq +:+ ">" +:+ "Equation" +:+ " "
               +:+ "1" +:+ "</a>") +:+ ".".
Proof.
  apply (resolveRefs_resolved {[ "eq:attn" := Label equation (Num 1) ]}
           (Label equation (Num 1)) "see " "eq:attn" ".");
    [reflexivity|reflexivity|discriminate|reflexivity|reflexivity|reflexivity].
Defined.

Lemma envPattern_anchored env : anchored "\" (envPattern env).
Proof. apply anchored_lit. Qed.

(** X6: a text that holds no backslash has no label and is returned
    unchanged by the rewriting pass, whatever the table holds. *)
Theorem plain_text_has_no_labels (labels : gmap string label) (text : string) :
  plain text = true ->
  collectLabels text = ∅ /\ resolveRefs text labels = text.
Proof.
  intros H. split.
  - unfold collectLabels, keys_of.
    rewrite (exec_all_plain "\" eqPattern) by (apply anchored_lit || done).
    rewrite (exec_all_plain "\" figPattern) by (apply envPattern_anchored || done).
    rewrite (exec_all_plain "\" tabPattern) by (apply envPattern_anchored || done).
    rewrite (exec_all_plain "\" secPattern) by (apply anchored_lit || done).
    by rewrite (exec_all_plain "\" standalonePattern) by (apply anchored_lit || done).
  - unfold resolveRefs.
    inert "eqref" text. inert "ref" text. inert "autoref" text.
    by inert "label" text.
Qed.

Lemma plain_text_has_no_labels_witness :
  collectLabels "Plain words, no commands." = ∅ /\
  resolveRefs "Plain words, no commands." ∅ = "Plain words, no commands.".
Proof.
  apply (plain_text_has_no_labels ∅ "Plain words, no commands."). reflexivity.
Defined.

(** X7: no label is lost: every key found by the catch-all pattern has an
    entry in the table, and every entry of the table belongs to a key that
    one of the five loops has seen. *)
Theorem collectLabels_complete (text k : string) :
  (k ∈ keys_of standalonePattern 1 text -> is_Some (collectLabels text !! k)) /\
  (is_Some (collectLabels text !! k) ->
   k ∈ keys_of standalonePattern 1 text \/
   is_Some (last_assignment k (typed_assignments text))).
Proof.
  unfold collectLabels, typed_assignments.
  rewrite LabelsSpec.standalone_pass_lookup, !LabelsSpec.typed_pass_lookup,
    !LabelsSpec.last_assignment_app, lookup_empty.
  destruct (last_assignment k (numbered section _)) as [v1|];
    [split; [done|by right]|].
  destruct (last_assignment k (numbered table _)) as [v2|];
    [split; [done|by right]|].
  destruct (last_assignment k (numbered figure _)) as [v3|];
    [split; [done|by right]|].
  destruct (last_assignment k (numbered equation _)) as [v4|];
    [split; [done|by right]|].
  split.
  - intros Hk. by rewrite bool_decide_eq_true_2.
  - destruct (bool_decide_reflect (k ∈ keys_of standalonePattern 1 text));
      [by left|by intros [? ?]].
Qed.

End RefsMore.

(** ** More on macro application *)

Module MacrosMore.
Import Js Re ReFacts Text ReMore Macros.
#[local] Arguments String.append !_ _ /.

Lemma oneArgPattern_anchored name : anchored "\" (oneArgPattern name).
Proof. apply anchored_lit. Qed.

Lemma zero_step_plain tex entry : plain tex = true -> zero_step tex entry = tex.
Proof.
  intros H. destruct entry as [name def]. unfold zero_step.
  destruct (Nat.eqb (args def) 0); [|done].
  unfold replace_str.
  by apply (replace_fn_plain "\"); [apply MacrosSpec.zeroArgPattern_anchored|].
Qed.

Lemma one_step_plain tex entry : plain tex = true -> one_step tex entry = tex.
Proof.
  intros H. destruct entry as [name def]. unfold one_step.
  destruct (Nat.eqb (args def) 1); [|done].
  by apply (replace_fn_plain "\"); [apply oneArgPattern_anchored|].
Qed.

(** X8: a text that holds no backslash is returned unchanged by
    [applyMacros], whatever the macro table holds. *)
Theorem applyMacros_plain (tex : string) (macros : JsObj.entries macro) :
  plain tex = true -> applyMacros tex macros = tex.
Proof.
  intros H. unfold applyMacros.
  assert (H0 : fold_left zero_step macros tex = tex).
  { induction macros as [|e macros IH]; [done|].
    simpl. by rewrite zero_step_plain. }
  rewrite H0.
  induction macros as [|e macros IH]; [done|].
  simpl. rewrite one_step_plain by done. apply IH.
  clear IH. revert H0. simpl. by rewrite zero_step_plain.
Qed.

Lemma applyMacros_plain_witness :
  applyMacros "x + y" [("a", Macro 0 "b"); ("f", Macro 1 "g(#1)")] = "x + y".
Proof.
  apply (applyMacros_plain "x + y" [("a", Macro 0 "b"); ("f", Macro 1 "g(#1)")]).
  reflexivity.
Defined.

Lemma one_arg_match name arg post idx prev :
  all_chars (not_char "}") arg = true ->
  match_at (oneArgPattern name) idx prev
    (("\" +:+ name +:+ "{" +:+ arg +:+ "}") +:+ post)
  = Some (JsMatch idx ("\" +:+ name +:+ "{" +:+ arg +:+ "}") [(1, arg)]).
Proof.
  intros Harg.
  apply (match_at_of_rmatch _ _ _ _ _ (MState (Some "}"%char) post [(1, arg)]));
    [|done].
  unfold oneArgPattern. cbn [rmatch].
  replace (("\" +:+ name +:+ "{" +:+ arg +:+ "}") +:+ post)
    with (("\" +:+ name) +:+ "{" +:+ arg +:+ "}" +:+ post)
    by (repeat first [rewrite app_assoc | progress simpl]; reflexivity).
  rewrite lit_step_app. cbn [rmatch]. rewrite lit_step_app.
  apply grp_star_greedy; [done|done|].
  cbn [rmatch]. by rewrite lit_step_app.
Qed.

Lemma param_anchored : anchored "#" (Lit "#1").
Proof.
  intros k [prev rest caps] H. cbn [rmatch]. unfold lit_step.
  cbn [m_rest strip_prefix] in *. destruct rest as [|c rest]; [done|].
  simpl in H. by rewrite Ascii.eqb_sym, H.
Qed.

Lemma param_match post idx prev :
  match_at (Lit "#1") idx prev ("#1" +:+ post) = Some (JsMatch idx "#1" []).
Proof.
  apply (match_at_of_rmatch _ _ _ _ _ (MState (Some "1"%char) post [])); [|done].
  cbn [rmatch]. by rewrite lit_step_app.
Qed.

(** X9: with a single one-argument macro whose body holds the parameter
    [#1] once, an invocation with a braced argument becomes the body with
    the argument in the place of the parameter.  The argument holds no
    closing brace and no dollar sign; the texts around hold no command and
    the body no other [#]. *)
Theorem applyMacros_one_arg (name b1 b2 pre arg post : string) :
  plain pre = true -> plain post = true ->
  all_chars (not_char "}") arg = true -> dollar_free arg = true ->
  all_chars (not_char "#") b1 = true -> all_chars (not_char "#") b2 = true ->
  applyMacros (pre +:+ ("\" +:+ name +:+ "{" +:+ arg +:+ "}") +:+ post)
    [(name, Macro 1 (b1 +:+ "#1" +:+ b2))]
  = pre +:+ (b1 +:+ arg +:+ b2) +:+ post.
Proof.
  intros Hpre Hpost Harg Hdollar Hb1 Hb2.
  unfold applyMacros.
  cbn [fold_left zero_step one_step args replacement Nat.eqb].
  rewrite (replace_fn_single "\" (oneArgPattern name) _ pre
             ("\" +:+ name +:+ "{" +:+ arg +:+ "}") post [(1, arg)]);
    [|apply oneArgPattern_anchored|done|done| |done|done].
  2: { intros idx prev. by apply one_arg_match. }
  f_equal. f_equal.
  unfold group. cbn [m_groups get_cap Nat.eqb default id].
  unfold replace_str.
  rewrite (replace_fn_single "#" (Lit "#1") _ b1 "#1" b2 []);
    [|apply param_anchored|done|done| |done|].
  - by rewrite MacrosSpec.expand_dollar_free.
  - intros idx prev. apply param_match.
  - intros idx. by rewrite !MacrosSpec.expand_dollar_free.
Qed.

Lemma applyMacros_one_arg_witness :
  applyMacros ("a " +:+ ("\" +:+ "vec" +:+ "{" +:+ "x" +:+ "}") +:+ " b")
    [("vec", Macro 1 ("\mathbf{" +:+ "#1" +:+ "}"))]
  = "a " +:+ ("\mathbf{" +:+ "x" +:+ "}") +:+ " b".
Proof.
  apply (applyMacros_one_arg "vec" "\mathbf{" "}" "a " "x" " b"); reflexivity.
Defined.

(** The argument is passed to [replace] as a replacement pattern: a doubled
    dollar sign in it comes out as one, and [$&] as the parameter that was
    matched, so such arguments are not copied as they stand. *)
Lemma applyMacros_dollar_argument :
  applyMacros "\f{a$$b}" [("f", Macro 1 "[#1]")] = "[a$b]" /\
  applyMacros "\f{$&}" [("f", Macro 1 "[#1]")] = "[#1]".
Proof. split; vm_compute; reflexivity. Qed.

End MacrosMore.

(** ** More on strings: trimming and splitting *)

Module TextFacts.
Import Js Re ReFacts Text.
#[local] Arguments String.append !_ _ /.

Lemma rev_onto_rev_onto s : forall a b,
  rev_onto (rev_onto s a) b = rev_onto a (s +:+ b).
Proof.
  induction s as [|c s IH]; intros a b; [done|].
  simpl. by rewrite IH.
Qed.

Lemma reverse_involutive s : reverse (reverse s) = s.
Proof. unfold reverse. rewrite rev_onto_rev_onto. simpl. apply app_nil_r. Qed.

Lemma rev_onto_all P s : forall acc,
  all_chars P s = true -> all_chars P acc = true ->
  all_chars P (rev_onto s acc) = true.
Proof.
  induction s as [|c s IH]; intros acc Hs Hacc; [done|].
  simpl in *. apply andb_prop in Hs as [Hc Hs].
  apply IH; [done|]. simpl. by rewrite Hc.
Qed.

Lemma trimStart_id s :
  all_chars (fun c => negb (is_space c)) s = true -> trimStart s = s.
Proof.
  destruct s as [|c s]; [done|]. simpl. intros H.
  apply andb_prop in H as [Hc _]. apply negb_true_iff in Hc. by rewrite Hc.
Qed.

(** A text without white space is its own trimmed form. *)
Lemma trim_id s :
  all_chars (fun c => negb (is_space c)) s = true -> trim s = s.
Proof.
  intros H. unfold trim, trimEnd. rewrite (trimStart_id s) by done.
  rewrite trimStart_id; [apply reverse_involutive|].
  by apply rev_onto_all.
Qed.

(** A text in which the separator cannot start is one piece. *)
Lemma split_go_one h t s : forall cur,
  all_chars (not_char h) s = true ->
  split_go (String h t) 0 cur s = [reverse (rev_onto s cur)].
Proof.
  induction s as [|c s IH]; intros cur H; [done|].
  simpl in H. apply andb_prop in H as [Hc H].
  cbn [split_go strip_prefix rev_onto].
  unfold not_char in Hc. apply negb_true_iff in Hc.
  rewrite Ascii.eqb_sym, Hc. by apply IH.
Qed.

Lemma split_on_one h t s :
  all_chars (not_char h) s = true -> split_on (String h t) s = [s].
Proof.
  intros H. unfold split_on. rewrite split_go_one by done.
  fold (reverse s). by rewrite reverse_involutive.
Qed.

End TextFacts.

(** ** More on citation badges *)

Module CitationsMore.
Import Js Re ReFacts Text ReMore TextFacts Citations.
#[local] Arguments String.append !_ _ /.

Lemma key_char_facts c :
  key_char c = true ->
  is_space c = false /\ not_char "," c = true /\ key_char "]" = false.
Proof.
  destruct c as [[] [] [] [] [] [] [] []]; vm_compute; intros; repeat split;
    congruence.
Qed.

Lemma alpha_key_char c : is_alpha c = true -> key_char c = true.
Proof. intros H. unfold key_char. by rewrite H. Qed.

Lemma valid_key_chars k :
  valid_key k = true -> k <> EmptyString /\ all_chars key_char k = true.
Proof.
  destruct k as [|c k]; [done|]. simpl. intros H.
  apply andb_prop in H as [Hc Hk]. split; [done|].
  by rewrite alpha_key_char, Hk.
Qed.

Lemma all_chars_impl (P Q : ascii -> bool) s :
  (forall c, P c = true -> Q c = true) ->
  all_chars P s = true -> all_chars Q s = true.
Proof.
  intros HPQ. induction s as [|c s IH]; [done|].
  simpl. intros H. apply andb_prop in H as [Hc H].
  by rewrite (HPQ c Hc), IH.
Qed.

Lemma parts_of_valid k : valid_key k = true -> parts_of k = [k].
Proof.
  intros H. apply valid_key_chars in H as [_ H]. unfold parts_of.
  rewrite split_on_one.
  - simpl. f_equal. apply trim_id.
    eapply all_chars_impl; [|exact H].
    intros c Hc. apply key_char_facts in Hc as (Hs & _). by rewrite Hs.
  - eapply all_chars_impl; [|exact H].
    intros c Hc. by apply key_char_facts in Hc as (_ & Hs & _).
Qed.

(** A greedy repetition whose item cannot start is skipped. *)
Lemma star_greedy_stop (body : kont -> kont) (k : kont) fuel st :
  (forall k', body k' st = None) -> star_loop true body k fuel st = k st.
Proof. intros H. destruct fuel; simpl; [done|]. by rewrite H. Qed.

Lemma bracketPattern_anchored : anchored "[" bracketPattern.
Proof. apply anchored_lit. Qed.

Lemma bracket_match k post idx prev :
  valid_key k = true ->
  match_at bracketPattern idx prev (("[" +:+ k +:+ "]") +:+ post)
  = Some (JsMatch idx ("[" +:+ k +:+ "]") [(1, k)]).
Proof.
  intros Hk.
  apply (match_at_of_rmatch _ _ _ _ _ (MState (Some "]"%char) post [(1, k)]));
    [|done].
  destruct k as [|c k]; [done|]. simpl in Hk. apply andb_prop in Hk as [Hc Hk].
  unfold bracketPattern, key_re. cbn [rmatch].
  rewrite !app_assoc. rewrite lit_step_app.
  unfold cls_step at 1. cbn [m_rest String.append]. rewrite Hc.
  cbn [m_rest m_caps m_prev].
  apply (star_greedy_run (Cls key_char) key_char).
  - by apply steps_cls.
  - by apply cls_stops.
  - exact Hk.
  - rewrite length_app. lia.
  - rewrite star_greedy_stop.
    + cbn [m_rest m_caps m_prev].
      change (String "]" post) with ("]" +:+ post). rewrite lit_step_app.
      change (String c (k +:+ "]" +:+ post)) with (String c k +:+ "]" +:+ post).
      by rewrite consumed_app.
    + intros k'. cbn [rmatch]. by unfold lit_step.
Qed.

(** The number stored for a key is the position, counted from one, of an
    entry with that key. *)
Lemma keyToNum_position k : forall bibliography acc n v,
  fst (fold_left keyToNum_step bibliography (acc, n)) !! k = Some v ->
  acc !! k = Some v \/
  exists i r, v = n + i + 1 /\ bibliography !! i = Some r /\ key r = k.
Proof.
  induction bibliography as [|r rest IH]; intros acc n v H; [by left|].
  cbn [fold_left] in H. unfold keyToNum_step at 2 in H. cbn [fst snd] in H.
  apply IH in H as [H|(i & r' & -> & Hi & Hr)].
  - unfold JsObj.set in H. destruct (String.eqb (key r) "__proto__"); [by left|].
    destruct (decide (key r = k)) as [E|E].
    + rewrite E, lookup_insert_eq in H. injection H as <-.
      right. exists 0, r. split; [lia|done].
    + rewrite lookup_insert_ne in H by done. by left.
  - right. exists (S i), r'. split; [lia|done].
Qed.

(** X10: for a bracketed group with one key that is no member name of
    [Object.prototype], the badge pass converts the group exactly when the
    key is the key of a bibliography entry, and otherwise leaves it as it
    is; the number of the badge is the position, counted from one, of an
    entry with that key.  The texts around hold no opening bracket. *)
Theorem citeBadges_single_key (bibliography : list bibentry)
  (pre k post : string) :
  all_chars (not_char "[") pre = true -> all_chars (not_char "[") post = true ->
  valid_key k = true -> JsObj.inherited k = false ->
  citeBadges bibliography (pre +:+ ("[" +:+ k +:+ "]") +:+ post)
  = pre +:+ (if known bibliography k
             then badge bibliography (build_keyToNum bibliography) k
             else "[" +:+ k +:+ "]") +:+ post /\
  (known bibliography k = true ->
   exists i r, bibliography !! i = Some r /\ key r = k /\
               num_of (build_keyToNum bibliography) k = nat_to_string (S i)).
Proof.
  intros Hpre Hpost Hk Hin. split.
  - unfold citeBadges.
    rewrite (replace_fn_single "[" bracketPattern _ pre ("[" +:+ k +:+ "]") post
               [(1, k)]);
      [|apply bracketPattern_anchored|done|done| |done|done].
    2: { intros idx prev. by apply bracket_match. }
    f_equal. f_equal. unfold badge_cb, group.
    cbn [m_groups get_cap Nat.eqb default id m_text].
    rewrite parts_of_valid by done.
    rewrite CitationsSpec.anyMatch_known by (by repeat constructor).
    cbn [existsb]. rewrite orb_false_r.
    destruct (known bibliography k); cbn [negb map concat_all foldr]; [|done].
    apply app_nil_r.
  - intros Hknown.
    assert (Hproto : k <> "__proto__") by (by intros ->).
    destruct (CitationsSpec.keyToNum_known k bibliography ∅ 0 Hknown Hproto)
      as [j Hj].
    pose proof Hj as Hpos. apply keyToNum_position in Hpos.
    destruct Hpos as [Hpos|(i & r & E & Hi & Hr)]; [by rewrite lookup_empty in Hpos|].
    exists i, r. split; [done|]. split; [done|].
    unfold num_of, JsObj.get, build_keyToNum. rewrite Hj. cbn [Nat.eqb].
    f_equal. lia.
Qed.

Lemma citeBadges_single_key_witness :
  citeBadges example_bibliography ("see " +:+ ("[" +:+ "vaswani2017" +:+ "]") +:+ ".")
  = "see " +:+ (if known example_bibliography "vaswani2017"
             then badge example_bibliography (build_keyToNum example_bibliography)
                    "vaswani2017"
             else "[" +:+ "vaswani2017" +:+ "]") +:+ "." /\
  (known example_bibliography "vaswani2017" = true ->
   exists i r, example_bibliography !! i = Some r /\ key r = "vaswani2017" /\
               num_of (build_keyToNum example_bibliography) "vaswani2017"
               = nat_to_string (S i)).
Proof.
  apply (citeBadges_single_key example_bibliography "see " "vaswani2017" ".");
    reflexivity.
Defined.

End CitationsMore.

(** ** More on the figure extractor *)

Module FiguresMore.
Import Js Re ReFacts Text ReMore Figures FiguresSpec.
#[local] Arguments String.append !_ _ /.

(** X11: whenever [extractFigures] returns, it returns one figure for each
    figure environment of the source, numbered 1, 2, ... in order, whether
    or not the images can be resolved or converted.  It returns when the
    figures directory exists or can be made and no copy of an existing file
    into it throws, in the states of the file system that the function can
    reach (those of an invariant [P] that its actions keep); when the
    directory
    is missing and cannot be made, the exception leaves the function and no
    figure is returned. *)
Theorem extractFigures_ids {W} (h : host W) (P : W -> Prop)
  (texContent texBaseDir outputDir : string) (w : W) :
  (forall figures w',
     extractFigures h texContent texBaseDir outputDir w = Some (figures, w') ->
     map id figures = seq 1 (length (exec_all figurePattern texContent))) /\
  (P w -> kept h P (path_join h outputDir "figures") ->
   existsSync h w (path_join h outputDir "figures") = true \/
     is_Some (mkdirSync h w (path_join h outputDir "figures")) ->
   (forall w0 src name,
      P w0 -> existsSync h w0 src = true ->
      is_Some (copyFileSync h w0 src
                 (path_join h (path_join h outputDir "figures") name))) ->
   is_Some (extractFigures h texContent texBaseDir outputDir w)) /\
  (existsSync h w (path_join h outputDir "figures") = false ->
   mkdirSync h w (path_join h outputDir "figures") = None ->
   extractFigures h texContent texBaseDir outputDir w = None).
Proof.
  split; [|split].
  - intros figures w'. unfold extractFigures. cbv zeta.
    destruct (if existsSync h w _ then _ else _) as [w0|]; [|done].
    intros H.
    apply (figures_pushed h (fun _ => True)) in H as (figs & E & _ & Hids & _);
      [|by repeat split].
    cbn [fst app] in E. by rewrite E.
  - apply extractFigures_returns.
  - apply extractFigures_mkdir_throws.
Qed.

Lemma extractFigures_ids_witness :
  (forall figures w',
     extractFigures (mixed_host false) mixed_document "/src" "/out" mixed_tree
     = Some (figures, w') ->
     map id figures = seq 1 (length (exec_all figurePattern mixed_document))) /\
  is_Some
    (extractFigures (mixed_host false) mixed_document "/src" "/out" mixed_tree) /\
  extractFigures (mixed_host false) mixed_document "/src" "/out" mixed_tree
  = Some ([Figure 1 "fig:1" "Loss" ["plot.png"] None;
           Figure 2 "fig:2" "Attention" [] None],
          ["/out/figures/plot.png"; "/out/figures"; "/src/plot.png"]).
Proof.
  destruct (extractFigures_ids (mixed_host false) not_missing
              mixed_document "/src" "/out" mixed_tree) as (H1 & H2 & _).
  split; [exact H1|]. split; [|vm_compute; reflexivity].
  apply H2.
  - reflexivity.
  - exact (mixed_host_kept false).
  - right. by eexists.
  - intros w0 src name _ Hex.
    cbn [copyFileSync mixed_host diskHost existsSync] in *.
    rewrite Hex. by eexists.
Defined.

End FiguresMore.

(** ** More on trimming and splitting *)

Module TextMore.
Import Js Re ReFacts Text ReMore TextFacts Shape.
#[local] Arguments String.append !_ _ /.

Lemma rev_onto_app a : forall b acc,
  rev_onto (a +:+ b) acc = rev_onto b (rev_onto a acc).
Proof. induction a as [|c a IH]; intros b acc; simpl; [done|apply IH]. Qed.

Lemma rev_onto_acc s : forall acc, rev_onto s acc = reverse s +:+ acc.
Proof.
  unfold reverse. induction s as [|c s IH]; intros acc; simpl; [done|].
  rewrite IH, (IH (String c EmptyString)), app_assoc. done.
Qed.

Lemma reverse_rev_onto s cur : reverse (rev_onto s cur) = reverse cur +:+ s.
Proof.
  unfold reverse at 1. rewrite rev_onto_rev_onto. simpl.
  rewrite app_nil_r. apply rev_onto_acc.
Qed.

Lemma trimStart_spaces a s :
  all_chars is_space a = true -> trimStart (a +:+ s) = trimStart s.
Proof.
  induction a as [|c a IH]; intros H; simpl in *; [done|].
  apply andb_prop in H as [Hc H]. rewrite Hc. by apply IH.
Qed.

Lemma trimStart_head s : head_ok s = true -> trimStart s = s.
Proof.
  destruct s as [|c s]; [done|]. simpl. intros H.
  apply negb_true_iff in H. by rewrite H.
Qed.

Lemma last_char_cons c s d d' :
  last_char (String c s) d = last_char (String c s) d'.
Proof. done. Qed.

Lemma last_ok_cons c d s : last_ok (String c (String d s)) = last_ok (String d s).
Proof. done. Qed.

Lemma trimStart_rev_onto s : forall acc,
  last_ok s = true -> trimStart (rev_onto s acc) = rev_onto s acc.
Proof.
  induction s as [|c s IH]; intros acc H; [done|].
  destruct s as [|d s].
  - simpl. unfold last_ok in H. simpl in H.
    apply negb_true_iff in H. by rewrite H.
  - rewrite last_ok_cons in H. cbn [rev_onto]. apply (IH _ H).
Qed.

Lemma head_ok_app a b : head_ok a = true -> head_ok (a +:+ b) = true.
Proof. by destruct a. Qed.

Lemma last_ok_app a b : last_ok b = true -> last_ok (a +:+ b) = true.
Proof.
  unfold last_ok. rewrite last_char_app. destruct b as [|c b]; [done|].
  by change (last_char (String c b) (last_char a None))
    with (last_char (String c b) None).
Qed.

Lemma tidy_app a m b : tidy a = true -> tidy b = true -> tidy (a +:+ m +:+ b) = true.
Proof.
  unfold tidy. intros [Ha _]%andb_prop [_ Hb]%andb_prop.
  rewrite head_ok_app by done. simpl. by apply last_ok_app, last_ok_app.
Qed.

Lemma all_spaces_reverse s :
  all_chars is_space s = true -> all_chars is_space (reverse s) = true.
Proof. intros H. by apply rev_onto_all. Qed.

(** White space around a tidy text is what [trim] removes. *)
Lemma trim_pad a s b :
  all_chars is_space a = true -> all_chars is_space b = true ->
  tidy s = true -> trim (a +:+ s +:+ b) = s.
Proof.
  intros Ha Hb [Hh Hl]%andb_prop. unfold trim, trimEnd.
  rewrite trimStart_spaces by done.
  rewrite (trimStart_head (s +:+ b)) by by apply head_ok_app.
  unfold reverse at 2. rewrite rev_onto_app, rev_onto_acc.
  rewrite trimStart_spaces by by apply all_spaces_reverse.
  rewrite trimStart_rev_onto by done.
  apply reverse_involutive.
Qed.

Lemma trim_tidy s : tidy s = true -> trim s = s.
Proof.
  intros H. rewrite <- (trim_pad EmptyString s EmptyString) at 2 by done.
  simpl. by rewrite app_nil_r.
Qed.

Lemma trim_spaces s : all_chars is_space s = true -> trim s = EmptyString.
Proof.
  intros H. unfold trim, trimEnd.
  rewrite <- (app_nil_r s), trimStart_spaces by done. done.
Qed.

Lemma tidy_nonempty s : tidy s = true -> s <> EmptyString.
Proof. by destruct s. Qed.

(** The separator skipped after it has been found. *)
Lemma split_go_skip sep t : forall cur rest,
  split_go sep (String.length t) cur (t +:+ rest) = split_go sep 0 cur rest.
Proof.
  induction t as [|c t IH]; intros cur rest; [done|]. simpl. apply IH.
Qed.

(** The piece before the first occurrence of the separator. *)
Lemma split_go_piece h t a rest : forall cur,
  all_chars (not_char h) a = true ->
  split_go (String h t) 0 cur (a +:+ String h t +:+ rest)
  = (reverse cur +:+ a) :: split_go (String h t) 0 EmptyString rest.
Proof.
  induction a as [|c a IH]; intros cur H.
  - cbn [String.append split_go strip_prefix]. rewrite Ascii.eqb_refl.
    rewrite strip_prefix_app.
    replace (String.length (String h t) - 1) with (String.length t)
      by (simpl; lia).
    rewrite split_go_skip, app_nil_r. done.
  - simpl in H. apply andb_prop in H as [Hc H].
    unfold not_char in Hc. apply negb_true_iff in Hc.
    cbn [String.append split_go strip_prefix]. rewrite Ascii.eqb_sym, Hc.
    rewrite IH by done. f_equal.
    unfold reverse. cbn [rev_onto]. rewrite rev_onto_acc.
    by rewrite app_assoc.
Qed.

End TextMore.

(** ** The table converter *)

Module TablesSpec.
Import Js Re ReFacts Text ReMore TextFacts Shape TextMore Tables.
#[local] Arguments String.append !_ _ /.

(** *** Column normalisation of the Markdown writer *)

Lemma pad_row_spec maxCols : forall fuel row,
  maxCols <= length row + fuel ->
  pad_row fuel maxCols row = row ++ replicate (maxCols - length row) EmptyString.
Proof.
  induction fuel as [|fuel IH]; intros row H; simpl.
  - replace (maxCols - length row) with 0 by lia. by rewrite List.app_nil_r.
  - destruct (Nat.ltb_spec (length row) maxCols) as [Hlt|Hge].
    + rewrite IH by (rewrite List.length_app; simpl; lia).
      rewrite List.length_app. simpl.
      replace (maxCols - length row) with (S (maxCols - (length row + 1))) by lia.
      simpl. by rewrite <- List.app_assoc.
    + replace (maxCols - length row) with 0 by lia. by rewrite List.app_nil_r.
Qed.

Lemma max_cols_bound table row :
  row ∈ table -> length row <= max_cols table.
Proof.
  unfold max_cols. induction table as [|r table IH]; intros H.
  - by apply elem_of_nil in H.
  - apply elem_of_cons in H as [->|H]; simpl; [lia|].
    specialize (IH H). lia.
Qed.

(** X12: the Markdown writer pads every row with empty cells up to the
    width of the widest row: after the normalisation all rows have that
    width, and each is its original row followed by empty cells only. *)
Theorem tableToMarkdown_normalizes (table : list (list string)) :
  Forall (fun row => length row = max_cols table) (normalize table) /\
  Forall2 (fun row row' =>
             row' = row ++ replicate (max_cols table - length row) EmptyString)
    table (normalize table).
Proof.
  split.
  - unfold normalize. apply Forall_fmap, Forall_forall. intros row Hin. simpl.
    rewrite pad_row_spec by lia.
    rewrite List.length_app, length_replicate.
    pose proof (max_cols_bound table row Hin). lia.
  - unfold normalize. apply Forall2_fmap_r, Forall_Forall2_diag.
    apply Forall_forall. intros row _. apply pad_row_spec. lia.
Qed.

(** *** Parsing a grid of simple cells *)

Lemma scan_clear a P r : anchored2 a P r -> forall s idx prev,
  clear a P s = true -> scan r 0 idx prev s = chars s.
Proof.
  intros Ha. induction s as [|c s IH]; intros idx prev H.
  - cbn [scan chars]. unfold match_at. by rewrite Ha.
  - cbn [clear] in H. apply andb_prop in H as [H1 H2].
    apply negb_true_iff in H1.
    cbn [scan chars]. unfold match_at. rewrite Ha by done.
    f_equal. by apply IH.
Qed.

Lemma replace_str_clear a P r tmpl s :
  anchored2 a P r -> clear a P s = true -> replace_str r tmpl s = s.
Proof.
  intros Ha Hs. unfold replace_str, replace_fn, tokens.
  rewrite (scan_clear a P) by done. apply render_chars.
Qed.

Lemma replace_str_plain a r tmpl s :
  anchored a r -> all_chars (not_char a) s = true -> replace_str r tmpl s = s.
Proof. intros Ha Hs. unfold replace_str. by apply (replace_fn_plain a). Qed.

Lemma anchored2_lit a b l r (P : ascii -> bool) :
  P b = true -> anchored2 a P (Seq (Lit (String a (String b l))) r).
Proof.
  intros Hb k [prev rest caps] H. cbn [m_rest] in H. cbn [rmatch].
  unfold lit_step. cbn [m_rest strip_prefix].
  destruct rest as [|c [|d rest]]; [done| |].
  - by destruct (Ascii.eqb a c).
  - destruct (Ascii.eqb_spec a c) as [->|]; [|done].
    cbn [second_is] in H. rewrite Ascii.eqb_refl in H. cbn [andb] in H.
    destruct (Ascii.eqb_spec b d) as [->|]; [congruence|done].
Qed.

Lemma rule1_id s :
  clear "\" is_lower s = true ->
  replace_str
    (Lit "\" · Grp 1 (Alt (Lit "toprule") (Alt (Lit "midrule")
                        (Alt (Lit "bottomrule") (Lit "hline")))))
    EmptyString s = s.
Proof.
  apply replace_str_clear.
  intros k [prev rest caps] H. cbn [m_rest] in H. cbn [rmatch].
  unfold lit_step at 1. cbn [m_rest strip_prefix].
  destruct rest as [|c [|d rest]]; [done| |].
  - by destruct (Ascii.eqb "\" c).
  - destruct (Ascii.eqb_spec "\" c) as [<-|]; [|done].
    cbn [second_is] in H. rewrite Ascii.eqb_refl in H. cbn [andb] in H.
    assert (Hx : forall x l, is_lower x = true ->
                 strip_prefix (String x l) (String d rest) = None).
    { intros x l Hl. simpl. destruct (Ascii.eqb_spec x d) as [->|]; [congruence|done]. }
    unfold lit_step. cbn [m_rest]. by rewrite !Hx.
Qed.

Lemma rule2_id s :
  clear "\" is_lower s = true ->
  replace_str (Lit "\cline{" · upto_brace · Lit "}") EmptyString s = s.
Proof. apply replace_str_clear. by apply anchored2_lit. Qed.

Lemma rule3_id s :
  clear "\" is_lower s = true ->
  replace_str (Lit "\rule{" · upto_brace · Lit "}{" · upto_brace · Lit "}")
    EmptyString s = s.
Proof. apply replace_str_clear. by apply anchored2_lit. Qed.

Lemma strip_rules_clear s : clear "\" is_lower s = true -> strip_rules s = s.
Proof.
  intros H. unfold strip_rules. cbv zeta.
  rewrite rule1_id by done. rewrite rule2_id by done. by apply rule3_id.
Qed.

Lemma clear_plain_app a P x y :
  all_chars (not_char a) x = true -> clear a P (x +:+ y) = clear a P y.
Proof.
  induction x as [|c x IH]; intros H; [done|].
  simpl in H. apply andb_prop in H as [Hc H].
  unfold not_char in Hc. apply negb_true_iff in Hc.
  cbn [String.append clear].
  assert (Hs : second_is a P (String c (x +:+ y)) = false).
  { unfold second_is. destruct (x +:+ y); [done|]. by rewrite Hc. }
  rewrite Hs. simpl. by apply IH.
Qed.

Lemma all_chars_weaken (P Q : ascii -> bool) s :
  (forall c, P c = true -> Q c = true) ->
  all_chars P s = true -> all_chars Q s = true.
Proof.
  intros HPQ. induction s as [|c s IH]; [done|]. simpl.
  intros [Hc Hs]%andb_prop. by rewrite (HPQ c Hc), IH.
Qed.

Lemma cell_char_not x :
  cell_char x = false -> forall s,
  all_chars cell_char s = true -> all_chars (not_char x) s = true.
Proof.
  intros Hx s. apply all_chars_weaken. intros c Hc. unfold not_char.
  destruct (Ascii.eqb_spec c x) as [->|]; [congruence|done].
Qed.

Lemma join_all (P : ascii -> bool) sep row :
  all_chars P sep = true -> Forall (fun s => all_chars P s = true) row ->
  all_chars P (join sep row) = true.
Proof.
  intros Hsep. induction 1 as [|x row Hx Hrow IH]; [done|].
  destruct row as [|y row]; [done|].
  change (join sep (x :: y :: row)) with (x +:+ sep +:+ join sep (y :: row)).
  rewrite !all_chars_app, Hx, Hsep. by rewrite IH.
Qed.

Lemma simple_row_cells row :
  simple_row row = true -> Forall (fun s => simple_cell s = true) row.
Proof.
  destruct row as [|x row]; [done|]. unfold simple_row.
  intros H. apply Forall_forall. intros s Hs.
  rewrite forallb_forall in H. apply H. by apply list_elem_of_In.
Qed.

Lemma simple_cell_tidy s : simple_cell s = true -> tidy s = true.
Proof. by intros [H _]%andb_prop. Qed.

Lemma simple_cell_not x s :
  cell_char x = false -> simple_cell s = true ->
  all_chars (not_char x) s = true.
Proof. intros Hx [_ H]%andb_prop. by apply cell_char_not. Qed.

Lemma join_cons sep (x y : string) row :
  join sep (x :: y :: row) = x +:+ sep +:+ join sep (y :: row).
Proof. done. Qed.

Lemma tidy_join : forall row x,
  Forall (fun s => simple_cell s = true) (x :: row) ->
  tidy (join " & " (x :: row)) = true.
Proof.
  induction row as [|y row IH]; intros x H.
  - apply simple_cell_tidy. by inversion H.
  - rewrite join_cons. inversion H as [|? ? Hx Hrow]; subst.
    apply tidy_app; [by apply simple_cell_tidy|by apply IH].
Qed.

Lemma join_not a row :
  cell_char a = false -> all_chars (not_char a) " & " = true ->
  Forall (fun s => simple_cell s = true) row ->
  all_chars (not_char a) (join " & " row) = true.
Proof.
  intros Ha Hsep H. apply join_all; [done|].
  eapply Forall_impl; [exact H|]. intros s Hs. by apply simple_cell_not.
Qed.

(** Cleaning a simple cell with white space around it gives the cell. *)
Lemma clean_cell_pad a x b :
  all_chars is_space a = true -> all_chars is_space b = true ->
  simple_cell x = true -> clean_cell (a +:+ x +:+ b) = x.
Proof.
  intros Ha Hb Hx. unfold clean_cell. cbv zeta.
  rewrite trim_pad by (done || by apply simple_cell_tidy).
  pose proof (simple_cell_not "\" x eq_refl Hx) as Hbs.
  pose proof (simple_cell_not "~" x eq_refl Hx) as Hti.
  pose proof (simple_cell_not "$" x eq_refl Hx) as Hdo.
  rewrite (replace_str_plain "\" (Lit "\textbf{" · _)) by (done || apply anchored_lit).
  rewrite (replace_str_plain "\" (Lit "\textit{" · _)) by (done || apply anchored_lit).
  rewrite (replace_str_plain "\" (Lit "\emph{" · _)) by (done || apply anchored_lit).
  rewrite (replace_str_plain "\" (Lit "\cite" · _)) by (done || apply anchored_lit).
  rewrite (replace_str_plain "~" tildePattern) by (done || apply anchored_lit).
  apply (replace_str_plain "$"); [apply anchored_lit|done].
Qed.

Lemma cells_of_row : forall row x cur,
  all_chars is_space cur = true ->
  Forall (fun s => simple_cell s = true) (x :: row) ->
  map clean_cell (split_go "&" 0 cur (join " & " (x :: row))) = x :: row.
Proof.
  induction row as [|y row IH]; intros x cur Hcur H;
    inversion H as [|? ? Hx Hrow]; subst.
  - cbn [join]. rewrite split_go_one by by apply (simple_cell_not "&").
    rewrite reverse_rev_onto. cbn [map]. f_equal.
    rewrite <- (app_nil_r x) at 1.
    apply clean_cell_pad; [by apply all_spaces_reverse|done|done].
  - rewrite join_cons.
    replace (x +:+ " & " +:+ join " & " (y :: row))
      with ((x +:+ " ") +:+ "&" +:+ String " " (join " & " (y :: row)))
      by (rewrite !app_assoc; reflexivity).
    rewrite split_go_piece.
    2:{ rewrite all_chars_app. by rewrite (simple_cell_not "&" x). }
    cbn [map]. f_equal.
    + apply clean_cell_pad; [by apply all_spaces_reverse|done|done].
    + cbn [split_go strip_prefix]. cbn [Ascii.eqb Bool.eqb].
      by apply IH.
Qed.

Lemma clear_sep G :
  clear "\" is_lower (" \\ " +:+ G) = clear "\" is_lower G.
Proof. simpl. by destruct G. Qed.

Lemma clear_grid grid :
  simple_grid grid = true -> clear "\" is_lower (grid_text grid) = true.
Proof.
  induction grid as [|row grid IH]; [done|].
  unfold simple_grid. cbn [forallb]. intros [Hrow Hgrid]%andb_prop.
  unfold grid_text. cbn [map concat_all foldr]. fold (concat_all (map row_text grid)).
  fold (grid_text grid). unfold row_text. rewrite app_assoc.
  rewrite clear_plain_app.
  2:{ apply join_not; [done|done|by apply simple_row_cells]. }
  rewrite clear_sep. by apply IH.
Qed.

Lemma rows_of_grid : forall grid cur,
  all_chars is_space cur = true -> simple_grid grid = true ->
  filter (fun r => r <> EmptyString)
    (map trim (split_go "\\" 0 cur (grid_text grid)))
  = map (join " & ") grid.
Proof.
  induction grid as [|row grid IH]; intros cur Hcur H.
  - cbn [grid_text map concat_all foldr split_go].
    rewrite trim_spaces by by apply all_spaces_reverse.
    by rewrite filter_cons_False by (intros Hne; by apply Hne).
  - unfold simple_grid in H. cbn [forallb] in H.
    apply andb_prop in H as [Hrow Hgrid].
    pose proof (simple_row_cells row Hrow) as Hcells.
    destruct row as [|x row]; [done|].
    unfold grid_text. cbn [map concat_all foldr].
    fold (concat_all (map row_text grid)). fold (grid_text grid).
    unfold row_text.
    replace ((join " & " (x :: row) +:+ " \\ ") +:+ grid_text grid)
      with ((join " & " (x :: row) +:+ " ") +:+ "\\" +:+
            String " " (grid_text grid))
      by (rewrite !app_assoc; reflexivity).
    rewrite split_go_piece.
    2:{ rewrite all_chars_app. by rewrite (join_not "\"). }
    cbn [map]. rewrite trim_pad;
      [|by apply all_spaces_reverse|done|by apply tidy_join].
    rewrite filter_cons_True by by apply tidy_nonempty, tidy_join.
    f_equal. cbn [split_go strip_prefix]. cbn [Ascii.eqb Bool.eqb].
    by apply IH.
Qed.

(** X13: a tabular body written as a grid of simple cells, the cells of a
    row separated by [&] and every row closed by a double backslash, is
    parsed back into exactly that grid: no cell is lost, merged or altered,
    whatever the column specification. *)
Theorem parseTabular_grid (grid : list (list string)) (colSpec : string) :
  simple_grid grid = true ->
  parseTabular (grid_text grid) colSpec = grid.
Proof.
  intros H. unfold parseTabular. cbv zeta.
  rewrite strip_rules_clear by by apply clear_grid.
  unfold split_on. rewrite rows_of_grid by done.
  rewrite map_map. clear colSpec.
  induction grid as [|row grid IH]; [done|].
  unfold simple_grid in H. cbn [forallb] in H.
  apply andb_prop in H as [Hrow Hgrid].
  pose proof (simple_row_cells row Hrow) as Hcells.
  destruct row as [|x row]; [done|].
  cbn [map]. rewrite IH by done. f_equal.
  unfold split_on. by apply cells_of_row.
Qed.

Lemma parseTabular_grid_witness :
  parseTabular "Model & Top 1 \\ ours & 91.2 \\ " "lc"
  = [["Model"; "Top 1"]; ["ours"; "91.2"]].
Proof.
  apply (parseTabular_grid [["Model"; "Top 1"]; ["ours"; "91.2"]] "lc").
  reflexivity.
Defined.

End TablesSpec.

(** ** The title and the metadata *)

Module BracedSpec.
Import Js Re ReFacts Text ReMore TextFacts TextMore Prose Pipeline.
#[local] Arguments String.append !_ _ /.

Lemma braced_bal : forall body d e tail,
  bal d body = true ->
  braced (S e + d) (body +:+ tail) = body +:+ braced (S e) tail.
Proof.
  induction body as [|c body IH]; intros d e tail H.
  - simpl in H. apply Nat.eqb_eq in H. subst d. by rewrite Nat.add_0_r.
  - cbn [bal] in H. cbn [String.append braced plus].
    destruct (Ascii.eqb c "{").
    + f_equal. rewrite <- (IH (S d) e tail H). f_equal. lia.
    + destruct (Ascii.eqb c "}").
      * destruct d as [|d]; [done|].
        replace (e + S d) with (S (e + d)) by lia.
        f_equal. apply (IH d e tail H).
      * f_equal. apply (IH d e tail H).
Qed.

Lemma braced_open : forall s d, stays_open d s = true -> braced (S d) s = s.
Proof.
  induction s as [|c s IH]; intros d H; [done|].
  cbn [stays_open] in H. cbn [braced].
  destruct (Ascii.eqb c "{"); [by rewrite IH|].
  destruct (Ascii.eqb c "}"); [|by rewrite IH].
  destruct d as [|d]; [done|]. by rewrite IH.
Qed.

Lemma skip_n_add a : forall b s, skip_n (a + b) s = skip_n b (skip_n a s).
Proof.
  induction a as [|a IH]; intros b s; [done|].
  destruct s as [|c s]; simpl; [by destruct b|apply IH].
Qed.

(** The first match of a pattern that cannot start in the text before it. *)
Lemma exec_all_first a r pre mt post grps :
  anchored a r ->
  all_chars (not_char a) pre = true ->
  (forall idx prev, match_at r idx prev (mt +:+ post) = Some (JsMatch idx mt grps)) ->
  mt <> EmptyString ->
  head (exec_all r (pre +:+ mt +:+ post))
  = Some (JsMatch (String.length pre) mt grps).
Proof.
  intros Ha Hpre Hm Hne. unfold exec_all, tokens.
  rewrite (scan_app_plain a) by done.
  rewrite (scan_match r _ _ mt post _ (Hm _ _)) by done.
  rewrite matches_of_app, matches_of_chars. done.
Qed.

Lemma command_match cmd o post idx prev :
  all_chars (not_char "]") (default EmptyString o) = true ->
  match_at (commandPattern cmd) idx prev
    (("\" +:+ cmd +:+ bracket_arg o +:+ "{") +:+ post)
  = Some (JsMatch idx ("\" +:+ cmd +:+ bracket_arg o +:+ "{") []).
Proof.
  intros Ho.
  apply (match_at_of_rmatch _ _ _ _ _ (MState (Some "{"%char) post []));
    [|done].
  unfold commandPattern. cbn [rmatch].
  replace (("\" +:+ cmd +:+ bracket_arg o +:+ "{") +:+ post)
    with (("\" +:+ cmd) +:+ bracket_arg o +:+ "{" +:+ post)
    by (rewrite !app_assoc; reflexivity).
  rewrite lit_step_app.
  destruct o as [a|].
  - cbn [bracket_arg default] in *.
    replace (("[" +:+ a +:+ "]") +:+ "{" +:+ post)
      with ("[" +:+ a +:+ "]" +:+ "{" +:+ post)
      by (rewrite !app_assoc; reflexivity).
    unfold Opt, any_upto. cbn [rmatch m_rest].
    rewrite lit_step_app. cbn [m_rest].
    erewrite (star_greedy_run (Cls (not_char "]")) (not_char "]") _ _
               (MState (Some "{"%char) post [])); [done| | | | |].
    + by apply steps_cls.
    + by apply cls_stops.
    + exact Ho.
    + rewrite length_app. lia.
    + rewrite lit_step_app. change ("{" +:+ post) with (String "{" post).
      by unfold lit_step.
  - cbn [bracket_arg]. cbn [String.append].
    unfold Opt. cbn [rmatch]. unfold lit_step. cbn. done.
Qed.

Lemma command_anchored cmd : anchored "\" (commandPattern cmd).
Proof. apply anchored_lit. Qed.

Lemma command_text_nonempty cmd o :
  "\" +:+ cmd +:+ bracket_arg o +:+ "{" <> EmptyString.
Proof. done. Qed.

Lemma braced_after pre cmd o rest :
  plain pre = true ->
  all_chars (not_char "]") (default EmptyString o) = true ->
  extractBracedContent
    (pre +:+ ("\" +:+ cmd +:+ bracket_arg o +:+ "{") +:+ rest) cmd
  = tidy_title (braced 1 rest).
Proof.
  intros Hpre Ho. unfold extractBracedContent.
  rewrite (exec_all_first "\" _ _ _ _ []);
    [|apply command_anchored|exact Hpre
     |intros; by apply command_match|apply command_text_nonempty].
  cbn [m_index m_text]. by rewrite skip_n_add, !skip_n_app.
Qed.

(** X14: the content of a command is read up to the brace that closes it,
    nested pairs of braces included (an optional bracketed argument is
    skipped); what follows that brace plays no part. *)
Theorem extractBracedContent_balanced (pre cmd : string) (o : option string)
  (body rest : string) :
  plain pre = true ->
  all_chars (not_char "]") (default EmptyString o) = true ->
  balanced body = true ->
  extractBracedContent
    (pre +:+ ("\" +:+ cmd +:+ bracket_arg o +:+ "{") +:+ body +:+ "}" +:+ rest) cmd
  = tidy_title body.
Proof.
  intros Hpre Ho Hb. rewrite braced_after by done.
  rewrite (braced_bal body 0 0) by done. cbn [braced String.append].
  simpl. by rewrite app_nil_r.
Qed.

Lemma extractBracedContent_balanced_witness :
  extractBracedContent
    ("Paper. " +:+ ("\" +:+ "title" +:+ bracket_arg (Some "short") +:+ "{")
     +:+ "Deep {Nets} now" +:+ "}" +:+ " \author{A}") "title"
  = Some "Deep {Nets} now".
Proof.
  apply (extractBracedContent_balanced "Paper. " "title" (Some "short")
           "Deep {Nets} now" " \author{A}"); reflexivity.
Defined.

(** X15: when the brace of the command is never closed, everything up to
    the end of the text is taken as its content. *)
Theorem extractBracedContent_unclosed (pre cmd : string) (o : option string)
  (rest : string) :
  plain pre = true ->
  all_chars (not_char "]") (default EmptyString o) = true ->
  stays_open 0 rest = true ->
  extractBracedContent
    (pre +:+ ("\" +:+ cmd +:+ bracket_arg o +:+ "{") +:+ rest) cmd
  = tidy_title rest.
Proof.
  intros Hpre Ho Hopen. rewrite braced_after by done.
  by rewrite braced_open.
Qed.

Lemma extractBracedContent_unclosed_witness :
  extractBracedContent
    ("" +:+ ("\" +:+ "title" +:+ bracket_arg None +:+ "{")
     +:+ "Deep {Nets} \author{A} text") "title"
  = Some "Deep {Nets} \author{A} text".
Proof.
  apply (extractBracedContent_unclosed "" "title" None
           "Deep {Nets} \author{A} text"); reflexivity.
Defined.

(** X16: a source without any command has no title, author or abstract:
    the title is [Untitled Paper], the author list and the abstract are
    empty. *)
Theorem extractMetadata_defaults (fullTex : string) :
  plain fullTex = true ->
  extractMetadata fullTex = Metadata "Untitled Paper" [] EmptyString.
Proof.
  intros H. unfold extractMetadata, extractBracedContent.
  rewrite (exec_all_plain "\") by (done || apply anchored_lit).
  rewrite (exec_all_plain "\") by (done || apply anchored_lit).
  rewrite (exec_all_plain "\") by (done || apply anchored_lit).
  done.
Qed.

Lemma extractMetadata_defaults_witness :
  extractMetadata "Just some words." = Metadata "Untitled Paper" [] EmptyString.
Proof. apply extractMetadata_defaults. reflexivity. Defined.

End BracedSpec.

(** ** More on trimming and splitting: texts with a backslash *)

Module SplitFacts.
Import Js Re ReFacts Text ReMore TextFacts Shape TextMore.
#[local] Arguments String.append !_ _ /.

Lemma reverse_app x y : reverse (x +:+ y) = reverse y +:+ reverse x.
Proof. unfold reverse at 1. rewrite rev_onto_app. apply rev_onto_acc. Qed.

Lemma trimStart_app_head x y :
  head_ok y = true -> trimStart (x +:+ y) = trimStart x +:+ y.
Proof.
  intros Hy. induction x as [|c x IH]; simpl.
  - by apply trimStart_head.
  - destruct (is_space c); [exact IH|done].
Qed.

Lemma head_ok_rev_onto s : forall acc,
  last_ok s = true -> head_ok (rev_onto s acc) = true.
Proof.
  induction s as [|c s IH]; intros acc H; [done|].
  destruct s as [|d s].
  - exact H.
  - rewrite last_ok_cons in H. cbn [rev_onto]. apply (IH _ H).
Qed.

(** White space is trimmed from the end of the last part only. *)
Lemma trimEnd_app a b :
  last_ok a = true -> trimEnd (a +:+ b) = a +:+ trimEnd b.
Proof.
  intros Ha. unfold trimEnd. rewrite reverse_app.
  rewrite trimStart_app_head by by apply head_ok_rev_onto.
  by rewrite reverse_app, reverse_involutive.
Qed.

Lemma strip_prefix_straddle h t : forall x y,
  all_chars (not_char h) t = true ->
  strip_prefix t x = None ->
  strip_prefix t (x +:+ String h y) = None.
Proof.
  induction t as [|a t IH]; intros x y Ht H; [done|].
  simpl in Ht. apply andb_prop in Ht as [Ha Ht].
  unfold not_char in Ha. apply negb_true_iff in Ha.
  destruct x as [|c x]; simpl in *.
  - by rewrite Ha.
  - destruct (Ascii.eqb a c); [by apply IH|done].
Qed.

(** A separator whose first character does not come back in it cannot
    start inside a text that does not hold it and run over its end. *)
Lemma startsWith_straddle h t c x rest :
  all_chars (not_char h) t = true ->
  startsWith (String c x) (String h t) = false ->
  strip_prefix (String h t) (String c x +:+ String h t +:+ rest) = None.
Proof.
  intros Ht H. unfold startsWith in H. cbn [strip_prefix String.append] in *.
  destruct (Ascii.eqb h c); [|done].
  apply strip_prefix_straddle; [done|].
  by destruct (strip_prefix t x).
Qed.

Lemma includes_cons c a sep :
  includes (String c a) sep = false ->
  startsWith (String c a) sep = false /\ includes a sep = false.
Proof. cbn [includes]. by intros [? ?]%orb_false_elim. Qed.

(** The piece before the first occurrence of the separator. *)
Lemma split_go_before h t a rest : forall cur,
  all_chars (not_char h) t = true ->
  includes a (String h t) = false ->
  split_go (String h t) 0 cur (a +:+ String h t +:+ rest)
  = (reverse cur +:+ a) :: split_go (String h t) 0 EmptyString rest.
Proof.
  induction a as [|c a IH]; intros cur Ht H.
  - apply (split_go_piece h t EmptyString rest cur). done.
  - apply includes_cons in H as [Hs Hi].
    change (String c a +:+ String h t +:+ rest)
      with (String c (a +:+ String h t +:+ rest)).
    cbn [split_go].
    change (String c (a +:+ String h t +:+ rest))
      with (String c a +:+ String h t +:+ rest).
    rewrite startsWith_straddle by done.
    rewrite IH by done. f_equal.
    unfold reverse. cbn [rev_onto]. rewrite rev_onto_acc.
    by rewrite app_assoc.
Qed.

(** A text that does not hold the separator is one piece. *)
Lemma split_go_last h t a : forall cur,
  includes a (String h t) = false ->
  split_go (String h t) 0 cur a = [reverse cur +:+ a].
Proof.
  induction a as [|c a IH]; intros cur H.
  - cbn [split_go]. by rewrite app_nil_r.
  - apply includes_cons in H as [Hs Hi].
    cbn [split_go]. unfold startsWith in Hs.
    destruct (strip_prefix (String h t) (String c a)); [done|].
    rewrite IH by done. f_equal.
    unfold reverse. cbn [rev_onto]. rewrite rev_onto_acc.
    by rewrite app_assoc.
Qed.

End SplitFacts.

(** ** The bibliography of the pipeline *)

Module BibliographySpec.
Import Js Re ReFacts Text ReMore TextFacts Shape TextMore SplitFacts Prose Pipeline.
#[local] Arguments String.append !_ _ /.

Lemma index_of_app c k rest :
  all_chars (not_char c) k = true ->
  index_of c (k +:+ String c rest) = Some (String.length k).
Proof.
  induction k as [|d k IH]; intros H.
  - cbn. by rewrite Ascii.eqb_refl.
  - simpl in H. apply andb_prop in H as [Hd H].
    unfold not_char in Hd. apply negb_true_iff in Hd.
    cbn [String.append index_of]. rewrite Hd, IH by done. done.
Qed.

(** The entry read from the piece that follows a [\bibitem]: its key is the
    text between the braces. *)
Lemma bib_entry_key e :
  all_chars (not_char "}") (fst e) = true ->
  exists r, bib_entry (entry_piece e) = Some r /\ Citations.key r = fst e.
Proof.
  destruct e as [k body]. cbn [fst snd]. intros Hk.
  unfold bib_entry, entry_piece. cbn [fst snd].
  assert (Htrim : trim ("{" +:+ k +:+ "}" +:+ body)
                  = "{" +:+ k +:+ "}" +:+ trimEnd body).
  { unfold trim. rewrite (trimStart_head ("{" +:+ k +:+ "}" +:+ body)) by done.
    replace ("{" +:+ k +:+ "}" +:+ body) with (("{" +:+ k +:+ "}") +:+ body)
      by (rewrite !app_assoc; reflexivity).
    rewrite trimEnd_app; [by rewrite !app_assoc|].
    change ("{" +:+ k +:+ "}") with (String "{" k +:+ "}").
    by apply last_ok_app. }
  rewrite Htrim. cbv zeta.
  change ("{" +:+ k +:+ "}" +:+ trimEnd body)
    with (String "{" (k +:+ String "}" (trimEnd body))).
  cbn [startsWith strip_prefix Ascii.eqb Bool.eqb].
  cbn [index_of Ascii.eqb Bool.eqb]. rewrite index_of_app by done.
  cbn [fmap option_fmap option_map].
  eexists. split; [reflexivity|]. cbn [Citations.key skip_n].
  replace (S (String.length k) - 1) with (String.length k) by lia.
  apply first_n_app.
Qed.

Lemma pieces_of_bib : forall entries cur a,
  includes a "\bibitem" = false ->
  forallb entry_ok entries = true ->
  split_go "\bibitem" 0 cur (a +:+ concat_all (map entry_text entries))
  = (reverse cur +:+ a) :: map entry_piece entries.
Proof.
  induction entries as [|e entries IH]; intros cur a Ha H.
  - cbn [map concat_all foldr]. rewrite app_nil_r. by apply split_go_last.
  - cbn [forallb] in H. apply andb_prop in H as [He H].
    unfold entry_ok in He. apply andb_prop in He as [Hk Hin].
    apply negb_true_iff in Hin.
    cbn [map concat_all foldr]. fold (concat_all (map entry_text entries)).
    replace (entry_text e +:+ concat_all (map entry_text entries))
      with ("\bibitem" +:+ entry_piece e +:+ concat_all (map entry_text entries))
      by (unfold entry_text, entry_piece; rewrite !app_assoc; reflexivity).
    rewrite split_go_before by done. f_equal.
    apply (IH EmptyString (entry_piece e)); done.
Qed.

(** X17: the bibliography holds one entry for each [\bibitem{key}] of the
    text, in the order of the text and with exactly these keys. *)
Theorem extractBibliography_keys (head : string)
  (entries : list (string * string)) :
  includes head "\bibitem" = false ->
  forallb entry_ok entries = true ->
  map Citations.key (extractBibliography (bib_text head entries))
  = map fst entries.
Proof.
  intros Hhead H. unfold extractBibliography, bib_text, split_on.
  rewrite pieces_of_bib by done. cbn [tail].
  clear Hhead head. induction entries as [|e entries IH]; [done|].
  cbn [forallb] in H. apply andb_prop in H as [He H].
  unfold entry_ok in He. apply andb_prop in He as [Hk _].
  destruct (bib_entry_key e Hk) as (r & Hr & Hkey).
  cbn [map omap list_omap]. rewrite Hr. cbn [map].
  rewrite Hkey. f_equal. by apply IH.
Qed.

Lemma extractBibliography_keys_witness :
  map Citations.key
    (extractBibliography
       (bib_text "\begin{thebibliography}{9} "
          [("vaswani2017", " A. Vaswani. \newblock Attention. ");
           ("he2016", " K. He. \newblock Residual nets. \end{thebibliography}")]))
  = ["vaswani2017"; "he2016"].
Proof.
  apply (extractBibliography_keys "\begin{thebibliography}{9} "
          [("vaswani2017", " A. Vaswani. \newblock Attention. ");
           ("he2016", " K. He. \newblock Residual nets. \end{thebibliography}")]);
    reflexivity.
Defined.

End BibliographySpec.

(** ** Text without math *)

Module MathFreeSpec.
Import Js Re ReFacts Text ReMore TextFacts RenderMath.
#[local] Arguments String.append !_ _ /.

Lemma replace_m_plain a r (f : jsmatch -> M string) s st :
  anchored a r -> all_chars (not_char a) s = true ->
  replace_m r f s st = (s, st).
Proof.
  intros Ha Hs. unfold replace_m, tokens.
  rewrite (scan_plain a) by done. apply MathSpec.render_m_chars.
Qed.

Lemma inlinePattern_anchored P : anchored "$" (inlinePattern P).
Proof.
  intros k [prev rest caps] H. unfold inlinePattern. cbn [rmatch m_prev].
  assert (Hl : forall k' st', m_rest st' = rest -> lit_step "$" k' st' = None).
  { intros k' [prev' rest' caps'] E. cbn [m_rest] in E. subst rest'.
    unfold lit_step. cbn [m_rest strip_prefix].
    destruct rest as [|c rest]; [done|].
    cbn [m_rest starts_with] in H. by rewrite Ascii.eqb_sym, H. }
  destruct prev as [c|]; [destruct (is_char "$" c); [done|]|]; by apply Hl.
Qed.

(** The three passes leave a text without backslash and dollar as it is,
    whatever the renderer and the inline class. *)
Lemma renderAll_math_free renderMath P vd text st :
  plain text = true -> all_chars (not_char "$") text = true ->
  renderAll renderMath (inlinePattern P) vd text st = (text, st).
Proof.
  intros Hp Hd. unfold renderAll, mbind, M_bind.
  rewrite (replace_m_plain "\") by (done || apply anchored_lit).
  rewrite (replace_m_plain "$") by (done || apply anchored_lit).
  apply (replace_m_plain "$"); [apply inlinePattern_anchored|done].
Qed.

(** X18: a text that holds neither a backslash nor a dollar sign comes back
    from [renderAllMath] unchanged, in both copies of the renderer: the
    typesetter is not consulted and the macro table is left as it was. *)
Theorem renderAllMath_math_free (katex : typesetter) (text : string)
  (varDescriptions : JsObj.entries string) (table : store) :
  plain text = true -> all_chars (not_char "$") text = true ->
  First.renderAllMath katex text varDescriptions table = (text, table) /\
  Second.renderAllMath katex text varDescriptions table = (text, table).
Proof.
  intros Hp Hd. split; by apply renderAll_math_free.
Qed.

Lemma renderAllMath_math_free_witness :
  First.renderAllMath lookupTypesetter "No math here." [] ∅
  = ("No math here.", ∅) /\
  Second.renderAllMath lookupTypesetter "No math here." [] ∅
  = ("No math here.", ∅).
Proof.
  apply (renderAllMath_math_free lookupTypesetter "No math here." [] ∅);
    reflexivity.
Defined.

End MathFreeSpec.

(** ** A citation in running text, through the whole section pipeline *)

Module PipelineSpec.
Import Js Re ReFacts Text ReMore TextFacts Shape TextMore SplitFacts Prose.
Import TablesSpec MathFreeSpec Pipeline.
#[local] Arguments String.append !_ _ /.

Lemma scan_free Q r : guarded Q r -> forall s idx prev,
  free Q s = true -> scan r 0 idx prev s = chars s.
Proof.
  intros Hg. induction s as [|c s IH]; intros idx prev H.
  - cbn [free] in H. rewrite andb_true_r in H. apply negb_true_iff in H.
    cbn [scan chars]. unfold match_at. by rewrite Hg.
  - cbn [free] in H. apply andb_prop in H as [H1 H2].
    apply negb_true_iff in H1.
    cbn [scan chars]. unfold match_at. rewrite Hg by done.
    f_equal. by apply IH.
Qed.

Lemma replace_fn_free Q r f s :
  guarded Q r -> free Q s = true -> replace_fn r f s = s.
Proof.
  intros Hg Hs. unfold replace_fn, tokens.
  rewrite (scan_free Q) by done. apply render_chars.
Qed.

Lemma replace_fn_clear a P r f s :
  anchored2 a P r -> clear a P s = true -> replace_fn r f s = s.
Proof.
  intros Ha Hs. unfold replace_fn, tokens.
  rewrite (scan_clear a P) by done. apply render_chars.
Qed.

Lemma clear_plain a P s : all_chars (not_char a) s = true -> clear a P s = true.
Proof.
  intros H. rewrite <- (app_nil_r s). by rewrite clear_plain_app.
Qed.

Lemma prose_not x s :
  prose_char x = false -> prose s = true -> all_chars (not_char x) s = true.
Proof.
  intros Hx. apply all_chars_weaken. intros c Hc. unfold not_char.
  destruct (Ascii.eqb_spec c x) as [->|]; [congruence|done].
Qed.

Lemma key_not x k :
  Citations.key_char x = false -> valid_key k = true ->
  all_chars (not_char x) k = true.
Proof.
  intros Hx Hk. apply CitationsMore.valid_key_chars in Hk as [_ Hk].
  revert Hk. apply all_chars_weaken. intros c Hc. unfold not_char.
  destruct (Ascii.eqb_spec c x) as [->|]; [congruence|done].
Qed.

(** The pattern of the second pass of [normalizeCitations] starts at a
    tilde or at a backslash followed by an [m]. *)
Lemma mboxBracket_guarded :
  guarded (fun s => starts_with "~" s || second_is "\" (not_char "c") s)
    mboxBracketPattern.
Proof.
  intros k [prev rest caps] H. cbn [m_rest] in H.
  apply orb_false_elim in H as [H1 H2].
  unfold mboxBracketPattern, Opt. cbn [rmatch].
  assert (Hm : forall k' prev',
             lit_step "\mbox{[" k' (MState prev' rest caps) = None).
  { intros k' prev'.
    apply (anchored2_lit "\" "m" "box{[" (Lit EmptyString) (not_char "c") eq_refl
             (fun st => k' st) (MState prev' rest caps)) in H2 as H3.
    cbn [rmatch] in H3. unfold lit_step in *. cbn [m_rest] in *.
    by destruct (strip_prefix "\mbox{[" rest). }
  unfold lit_step at 1. cbn [m_rest].
  destruct rest as [|c rest].
  - cbn [strip_prefix]. unfold lit_step at 1. cbn [m_rest strip_prefix].
    cbn [m_prev m_caps last_char]. apply Hm.
  - cbn [starts_with] in H1. cbn [strip_prefix]. rewrite Ascii.eqb_sym, H1.
    unfold lit_step at 1. cbn [m_rest strip_prefix].
    cbn [m_prev m_caps last_char]. apply Hm.
Qed.

Lemma free_tilde_clear P s :
  all_chars (not_char "~") s = true -> clear "\" P s = true ->
  free (fun s => starts_with "~" s || second_is "\" P s) s = true.
Proof.
  induction s as [|c s IH]; intros Ht Hc; [done|].
  simpl in Ht. apply andb_prop in Ht as [Hc1 Ht].
  cbn [clear] in Hc. apply andb_prop in Hc as [Hc2 Hc].
  cbn [free]. rewrite IH by done. rewrite andb_true_r.
  apply negb_true_iff in Hc2. rewrite Hc2, orb_false_r.
  unfold not_char in Hc1. cbn [starts_with]. done.
Qed.

Section Cite.
Variables pre k post : string.
Hypothesis Hpre : prose pre = true.
Hypothesis Hpost : prose post = true.
Hypothesis Hk : valid_key k = true.

Local Notation "'cited'" := (pre +:+ ("\cite{" +:+ k +:+ "}") +:+ post).
Local Notation "'bracketed'" := (pre +:+ ("[" +:+ k +:+ "]") +:+ post).

Lemma cited_not x :
  prose_char x = false -> Citations.key_char x = false ->
  all_chars (not_char x) "\cite{}" = true ->
  all_chars (not_char x) cited = true.
Proof.
  intros Hx Hx' Hc. rewrite !all_chars_app.
  rewrite (prose_not x pre), (prose_not x post), (key_not x k) by done.
  cbn [all_chars] in Hc |- *. repeat (apply andb_prop in Hc as [? Hc]).
  repeat (apply andb_true_intro; split); done.
Qed.

Lemma cited_clear : clear "\" (not_char "c") cited = true.
Proof.
  rewrite clear_plain_app by by apply prose_not.
  change (("\cite{" +:+ k +:+ "}") +:+ post)
    with (String "\" ("cite{" +:+ (k +:+ "}") +:+ post)).
  cbn [clear second_is]. apply clear_plain.
  rewrite !all_chars_app.
  by rewrite (key_not "\" k), (prose_not "\" post).
Qed.

Lemma bracketed_not x :
  prose_char x = false -> Citations.key_char x = false ->
  all_chars (not_char x) "[]" = true ->
  all_chars (not_char x) bracketed = true.
Proof.
  intros Hx Hx' Hc. rewrite !all_chars_app.
  rewrite (prose_not x pre), (prose_not x post), (key_not x k) by done.
  cbn [all_chars] in Hc |- *. repeat (apply andb_prop in Hc as [? Hc]).
  repeat (apply andb_true_intro; split); done.
Qed.

Lemma normalizeCitations_cited : normalizeCitations cited = cited.
Proof.
  unfold normalizeCitations. cbv zeta.
  rewrite (replace_str_clear "\" (not_char "c") mboxCitePattern)
    by (by apply anchored2_lit || apply cited_clear).
  rewrite (replace_fn_free _ mboxBracketPattern _ _ mboxBracket_guarded)
    by (apply free_tilde_clear; [by apply cited_not|apply cited_clear]).
  apply (replace_fn_plain "~"); [apply anchored_lit|by apply cited_not].
Qed.

Lemma bibliographyBlock_cited :
  replace_str bibliographyBlock EmptyString cited = cited.
Proof.
  apply (replace_str_clear "\" (not_char "c"));
    [by apply anchored2_lit|apply cited_clear].
Qed.

Lemma commentPattern_anchored : anchored "%" commentPattern.
Proof.
  intros k' [prev rest caps] H. unfold commentPattern. cbn [rmatch m_prev].
  assert (Hl : forall k'' st', m_rest st' = rest -> lit_step "%" k'' st' = None).
  { intros k'' [prev' rest' caps'] E. cbn [m_rest] in E. subst rest'.
    unfold lit_step. cbn [m_rest strip_prefix].
    destruct rest as [|c rest]; [done|].
    cbn [m_rest starts_with] in H. by rewrite Ascii.eqb_sym, H. }
  destruct prev as [c|]; [destruct (is_char "\" c); [done|]|]; by apply Hl.
Qed.

Lemma cite_match idx prev :
  match_at citePattern idx prev (("\cite{" +:+ k +:+ "}") +:+ post)
  = Some (JsMatch idx ("\cite{" +:+ k +:+ "}") [(1, k)]).
Proof.
  apply (match_at_of_rmatch _ _ _ _ _ (MState (Some "}"%char) post [(1, k)]));
    [|done].
  unfold citePattern, Opt, some_upto. cbn [rmatch].
  change (("\cite{" +:+ k +:+ "}") +:+ post)
    with ("\cite" +:+ String "{" ((k +:+ "}") +:+ post)).
  rewrite lit_step_app.
  unfold cls_step at 1. cbn [m_rest p_or_t Ascii.eqb Bool.eqb orb].
  unfold lit_step at 1. cbn [m_rest strip_prefix m_prev m_caps last_char].
  unfold lit_step at 1. cbn [m_rest strip_prefix Ascii.eqb Bool.eqb].
  cbn [m_prev m_caps last_char].
  rewrite app_assoc.
  apply CitationsMore.valid_key_chars in Hk as Hk'. destruct Hk' as [Hne _].
  apply grp_plus_greedy; [done|by apply key_not|done|].
  by rewrite lit_step_app.
Qed.

Lemma cite_cb_key idx :
  cite_cb (JsMatch idx ("\cite{" +:+ k +:+ "}") [(1, k)]) = "[" +:+ k +:+ "]".
Proof.
  unfold cite_cb, group. cbn [m_groups get_cap Nat.eqb default id].
  rewrite split_on_one by by apply key_not.
  cbn [map concat_all foldr].
  rewrite trim_id; [by rewrite !app_nil_r|].
  apply CitationsMore.valid_key_chars in Hk as [_ Hk'].
  revert Hk'. apply all_chars_weaken. intros c Hc.
  apply CitationsMore.key_char_facts in Hc as (Hs & _). by rewrite Hs.
Qed.

Lemma processSection_cited : processSection cited = bracketed.
Proof.
  pose proof cited_clear as Hclear.
  unfold processSection. cbv zeta.
  rewrite (replace_str_plain "%" commentPattern)
    by (apply commentPattern_anchored || by apply cited_not).
  rewrite (replace_str_clear "\" (not_char "c") (heading "subsection"))
    by (done || by apply anchored2_lit).
  rewrite (replace_str_clear "\" (not_char "c") (heading "subsubsection"))
    by (done || by apply anchored2_lit).
  rewrite (replace_str_clear "\" (not_char "c") (command1 "textbf"))
    by (done || by apply anchored2_lit).
  rewrite (replace_str_clear "\" (not_char "c") (command1 "textit"))
    by (done || by apply anchored2_lit).
  rewrite (replace_str_clear "\" (not_char "c") (command1 "emph"))
    by (done || by apply anchored2_lit).
  rewrite (replace_str_clear "\" (not_char "c") (command1 "url"))
    by (done || by apply anchored2_lit).
  rewrite (replace_str_clear "\" (not_char "c") (command1 "paragraph"))
    by (done || by apply anchored2_lit).
  rewrite (replace_str_plain "~" tildePattern)
    by (apply anchored_lit || by apply cited_not).
  rewrite (replace_str_clear "\" (not_char "c") (Lit "\footnote{" · _))
    by (done || by apply anchored2_lit).
  rewrite (replace_fn_clear "\" (not_char "c") (listPattern "itemize"))
    by (done || by apply anchored2_lit).
  rewrite (replace_fn_clear "\" (not_char "c") (listPattern "enumerate"))
    by (done || by apply anchored2_lit).
  rewrite (replace_str_clear "\" (not_char "c") (Lit "\mbox{" · _))
    by (done || by apply anchored2_lit).
  rewrite (replace_fn_single "\" citePattern cite_cb pre ("\cite{" +:+ k +:+ "}")
             post [(1, k)]);
    [|apply anchored_lit|by apply prose_not|by apply prose_not
     |apply cite_match|done|intros; by rewrite !cite_cb_key].
  by rewrite cite_cb_key.
Qed.

Lemma replaceFiguresInText_plain text figures :
  plain text = true -> Figures.replaceFiguresInText text figures = text.
Proof.
  intros H. unfold Figures.replaceFiguresInText, replace_st, tokens.
  rewrite (scan_plain "\") by (done || apply FiguresSpec.blockPattern_anchored).
  rewrite <- (List.app_nil_r (chars text)), render_st_chars.
  cbn [render_st fst]. apply app_nil_r.
Qed.

Lemma convertTables_plain text format :
  plain text = true -> Tables.convertTables text format = text.
Proof.
  intros H. unfold Tables.convertTables. cbv zeta.
  rewrite (replace_fn_plain "\" Tables.tablePattern) by (done || apply anchored_lit).
  apply (replace_fn_plain "\"); [apply anchored_lit|done].
Qed.

Lemma resolveRefs_plain text labels :
  plain text = true -> Labels.resolveRefs text labels = text.
Proof.
  intros H. unfold Labels.resolveRefs. cbv zeta.
  rewrite (replace_fn_plain "\" (Labels.keyed "eqref"))
    by (done || apply RefsSpec.keyed_anchored).
  rewrite (replace_fn_plain "\" (Labels.keyed "ref"))
    by (done || apply RefsSpec.keyed_anchored).
  rewrite (replace_fn_plain "\" (Labels.keyed "autoref"))
    by (done || apply RefsSpec.keyed_anchored).
  apply (replace_fn_plain "\"); [apply RefsSpec.keyed_anchored|done].
Qed.

(** The badge pass on the bracketed key of a bibliography entry. *)
Lemma citeBadges_known bibliography :
  Citations.known bibliography k = true ->
  Citations.citeBadges bibliography bracketed
  = pre +:+ Citations.badge bibliography (Citations.build_keyToNum bibliography) k
    +:+ post.
Proof.
  intros Hknown. unfold Citations.citeBadges.
  rewrite (replace_fn_single "[" Citations.bracketPattern _ pre
             ("[" +:+ k +:+ "]") post [(1, k)]);
    [|apply CitationsMore.bracketPattern_anchored|by apply prose_not
     |by apply prose_not| |done|done].
  2: { intros idx prev. by apply CitationsMore.bracket_match. }
  f_equal. f_equal. unfold Citations.badge_cb, group.
  cbn [m_groups get_cap Nat.eqb default id m_text].
  rewrite CitationsMore.parts_of_valid by done.
  assert (Hproto : k <> "__proto__") by (by intros ->).
  destruct (CitationsSpec.keyToNum_known k bibliography ∅ 0 Hknown Hproto)
    as [j Hj].
  unfold Citations.anyMatch, JsObj.get, Citations.build_keyToNum.
  cbn [existsb]. rewrite Hj. cbn [JsObj.truthy Nat.eqb negb orb map].
  cbn [concat_all foldr]. apply app_nil_r.
Qed.

End Cite.

(** *** The paragraph wrapper *)

Lemma alpha_facts c :
  is_alpha c = true ->
  is_space c = false /\ is_digit c = false /\
  Ascii.eqb "<" c = false /\ Ascii.eqb "#" c = false /\
  Ascii.eqb "-" c = false /\ Ascii.eqb "|" c = false.
Proof.
  destruct c as [[] [] [] [] [] [] [] []]; vm_compute; intros;
    repeat split; congruence.
Qed.

Lemma pieces_chars s : forall cur,
  pieces cur (chars s) = [reverse cur +:+ s].
Proof.
  induction s as [|c s IH]; intros cur.
  - cbn [chars pieces]. by rewrite app_nil_r.
  - cbn [chars pieces]. rewrite IH. f_equal.
    unfold reverse. cbn [rev_onto]. rewrite rev_onto_acc.
    by rewrite app_assoc.
Qed.

(** A text that begins with a letter and holds no line feed is one
    paragraph. *)
Lemma wrapParagraphs_one s :
  starts_alpha s = true -> all_chars (not_char (chr 10)) s = true ->
  wrapParagraphs s = "<p>" +:+ trimEnd s +:+ "</p>".
Proof.
  intros Ha Hs. unfold wrapParagraphs, split_re, tokens.
  rewrite (scan_plain (chr 10)) by (done || apply (anchored_lit (chr 10))).
  rewrite pieces_chars. cbn [reverse rev_onto String.append map].
  destruct s as [|c s]; [done|]. cbn [starts_alpha] in Ha.
  apply alpha_facts in Ha as (Hsp & Hdi & H1 & H2 & H3 & H4).
  assert (Htrim : trim (String c s) = trimEnd (String c s)).
  { unfold trim. cbn [trimStart]. by rewrite Hsp. }
  assert (Hend : exists t, trimEnd (String c s) = String c t).
  { change (String c s) with (String c EmptyString +:+ s).
    rewrite trimEnd_app; [by eexists|].
    unfold last_ok. cbn [last_char]. by rewrite Hsp. }
  destruct Hend as [t Ht].
  unfold wrap. rewrite Htrim, Ht. cbv zeta.
  cbn [String.eqb]. unfold startsWith. cbn [strip_prefix].
  rewrite H1, H2, H3, H4.
  unfold numbered, match_at, Plus. cbn [rmatch]. unfold cls_step at 1.
  cbn [m_rest]. rewrite Hdi. cbn [orb].
  cbn [List.filter String.append String.eqb negb join]. done.
Qed.

(** The last character of a badge is the [>] of its closing tag. *)
Lemma badge_last_ok bibliography keyToNum key :
  last_ok (Citations.badge bibliography keyToNum key) = true.
Proof.
  unfold Citations.badge. cbv zeta. do 15 apply last_ok_app. done.
Qed.

(** X19: a [\cite{key}] in a paragraph of running text, with the key of a
    bibliography entry, comes out of the section pipeline (citation
    normalisation, LaTeX conversion, figures, tables, references, math,
    badges, paragraphs) as the paragraph in [<p>] tags with the badge of
    that entry in the place of the command; the text around is unchanged up
    to white space at its end, and the macro table is left as it was. *)
Theorem processContent_cite (katex : RenderMath.typesetter)
  (varDescriptions : JsObj.entries string)
  (figures : list Figures.figure) (labels : gmap string Labels.label)
  (bibliography : list Citations.bibentry) (pre k post : string)
  (table : RenderMath.store) :
  prose pre = true -> prose post = true -> starts_alpha pre = true ->
  valid_key k = true -> Citations.known bibliography k = true ->
  all_chars (not_char (chr 10))
    (Citations.badge bibliography (Citations.build_keyToNum bibliography) k) = true ->
  processContent
    (fun text => RenderMath.Second.renderAllMath katex text varDescriptions)
    figures labels bibliography
    (pre +:+ ("\cite{" +:+ k +:+ "}") +:+ post) table
  = ("<p>" +:+ pre
     +:+ Citations.badge bibliography (Citations.build_keyToNum bibliography) k
     +:+ trimEnd post +:+ "</p>", table).
Proof.
  intros Hpre Hpost Ha Hk Hknown Hbadge. unfold processContent. cbv zeta.
  rewrite normalizeCitations_cited by done.
  rewrite bibliographyBlock_cited by done.
  rewrite processSection_cited by done.
  pose proof (bracketed_not pre k post Hpre Hpost Hk "\" eq_refl eq_refl eq_refl)
    as Hplain.
  pose proof (bracketed_not pre k post Hpre Hpost Hk "$" eq_refl eq_refl eq_refl)
    as Hdollar.
  rewrite replaceFiguresInText_plain by done.
  rewrite convertTables_plain by done.
  rewrite resolveRefs_plain by done.
  unfold mbind, RenderMath.M_bind, RenderMath.Second.renderAllMath.
  rewrite renderAll_math_free by done.
  rewrite citeBadges_known by done.
  rewrite wrapParagraphs_one.
  - unfold mret, RenderMath.M_ret. f_equal.
    rewrite <- !app_assoc. rewrite trimEnd_app; [by rewrite !app_assoc|].
    apply last_ok_app, badge_last_ok.
  - by destruct pre.
  - rewrite !all_chars_app, Hbadge.
    by rewrite (prose_not (chr 10) pre), (prose_not (chr 10) post).
Qed.

Lemma processContent_cite_witness :
  processContent
    (fun text => RenderMath.Second.renderAllMath RenderMath.lookupTypesetter text [])
    [] ∅ Citations.example_bibliography
    ("As shown in " +:+ ("\cite{" +:+ "vaswani2017" +:+ "}") +:+ ", it works. ") ∅
  = ("<p>" +:+ "As shown in "
     +:+ Citations.badge Citations.example_bibliography
           (Citations.build_keyToNum Citations.example_bibliography) "vaswani2017"
     +:+ trimEnd ", it works. " +:+ "</p>", ∅).
Proof.
  apply (processContent_cite RenderMath.lookupTypesetter [] [] ∅
           Citations.example_bibliography "As shown in " "vaswani2017"
           ", it works. " ∅); reflexivity.
Defined.

End PipelineSpec.

(** ** The bibliography of the stand-alone converter *)

Module TexBibSpec.
Import Js Re TexBib.

Lemma dedupe_fold : forall refs seen acc,
  (forall k, k ∈ seen <-> k <> EmptyString /\ k ∈ map title_key acc) ->
  NoDup (filter (fun k => k <> EmptyString) (map title_key acc)) ->
  exists kept,
    snd (fold_left dedupe_step refs (seen, acc)) = acc ++ kept /\
    sublist kept refs /\
    NoDup (filter (fun k => k <> EmptyString) (map title_key (acc ++ kept))) /\
    (forall r, r ∈ refs ->
       exists r', r' ∈ acc ++ kept /\ title_key r' = title_key r) /\
    (forall r, r ∈ refs -> title_key r = EmptyString -> r ∈ kept).
Proof.
  induction refs as [|r refs IH]; intros seen acc Hseen Hnd.
  - exists []. rewrite List.app_nil_r.
    repeat split; try done; intros r Hr; by apply elem_of_nil in Hr.
  - cbn [fold_left]. unfold dedupe_step at 2. cbn [fst snd].
    destruct (String.eqb_spec (title_key r) EmptyString) as [He|Hne].
    + cbn [negb andb].
      destruct (IH seen (acc ++ [r])) as (kept & Hout & Hsub & Hnd' & Hall & Hemp).
      * intros k. rewrite Hseen, fmap_app, elem_of_app. cbn [fmap list_fmap].
        rewrite list_elem_of_singleton, He. tauto.
      * rewrite fmap_app, filter_app. cbn [fmap list_fmap].
        rewrite He, filter_cons_False, filter_nil, List.app_nil_r
          by (intros Hne; by apply Hne).
        done.
      * exists (r :: kept). rewrite Hout, <- List.app_assoc. cbn [app].
        rewrite <- List.app_assoc in Hnd'. cbn [app] in Hnd'.
        split; [done|]. split; [by apply sublist_skip|]. split; [done|].
        split.
        -- intros r0 [->|Hr0]%elem_of_cons.
           ++ exists r. split; [|done]. rewrite elem_of_app, elem_of_cons. auto.
           ++ destruct (Hall r0 Hr0) as (r' & Hr' & Hk). exists r'.
              split; [|done]. by rewrite <- List.app_assoc in Hr'.
        -- intros r0 [->|Hr0]%elem_of_cons Hk; [apply elem_of_cons; auto|].
           apply elem_of_cons. right. by apply Hemp.
    + cbn [negb andb]. case_bool_decide as Hin.
      * destruct (IH seen acc Hseen Hnd) as (kept & Hout & Hsub & Hnd' & Hall & Hemp).
        exists kept. split; [done|]. split; [by apply sublist_cons|].
        split; [done|]. split.
        -- intros r0 [->|Hr0]%elem_of_cons; [|by apply Hall].
           apply Hseen in Hin as [_ Hin].
           apply list_elem_of_fmap in Hin as (r' & Hk & Hr').
           exists r'. split; [|done]. rewrite elem_of_app. auto.
        -- intros r0 [->|Hr0]%elem_of_cons Hk; [done|]. by apply Hemp.
      * destruct (IH ({[title_key r]} ∪ seen) (acc ++ [r]))
          as (kept & Hout & Hsub & Hnd' & Hall & Hemp).
        -- intros k. rewrite elem_of_union, elem_of_singleton, Hseen.
           rewrite fmap_app, elem_of_app. cbn [fmap list_fmap].
           rewrite list_elem_of_singleton. intuition congruence.
        -- rewrite fmap_app, filter_app. cbn [fmap list_fmap].
           rewrite filter_cons_True, filter_nil by done.
           apply NoDup_app. split; [done|]. split; [|apply NoDup_singleton].
           intros k [_ Hk]%list_elem_of_filter ->%list_elem_of_singleton.
           apply Hin, Hseen. done.
        -- exists (r :: kept). rewrite Hout, <- List.app_assoc. cbn [app].
           rewrite <- List.app_assoc in Hnd'. cbn [app] in Hnd'.
           split; [done|]. split; [by apply sublist_skip|]. split; [done|].
           split.
           ++ intros r0 [->|Hr0]%elem_of_cons.
              ** exists r. split; [|done]. rewrite elem_of_app, elem_of_cons. auto.
              ** destruct (Hall r0 Hr0) as (r' & Hr' & Hk). exists r'.
                 split; [|done]. by rewrite <- List.app_assoc in Hr'.
           ++ intros r0 [->|Hr0]%elem_of_cons Hk; [apply elem_of_cons; auto|].
              apply elem_of_cons. right. by apply Hemp.
Qed.

(** X20: the bibliography returned by the stand-alone converter keeps the
    parsed entries in their order and drops repeated titles: no two kept
    entries share a title key (the title in lower case, reduced to letters
    and digits, cut at 40 characters) unless it is empty, every title key of
    a parsed entry is the key of a kept one, and an entry whose title key is
    empty is always kept. *)
Theorem extractBibliography_dedup (bibTex : string) :
  sublist (extractBibliography bibTex) (parsed_refs bibTex) /\
  NoDup (filter (fun k => k <> EmptyString)
           (map title_key (extractBibliography bibTex))) /\
  (forall r, r ∈ parsed_refs bibTex ->
     exists r', r' ∈ extractBibliography bibTex /\ title_key r' = title_key r) /\
  (forall r, r ∈ parsed_refs bibTex -> title_key r = EmptyString ->
     r ∈ extractBibliography bibTex).
Proof.
  unfold extractBibliography, dedupe.
  destruct (dedupe_fold (parsed_refs bibTex) ∅ [])
    as (kept & Hout & Hsub & Hnd & Hall & Hemp).
  - intros k. rewrite elem_of_empty. cbn [map]. rewrite elem_of_nil. tauto.
  - cbn. apply NoDup_nil_2.
  - rewrite Hout. cbn [app]. cbn [app] in Hnd, Hall. done.
Qed.

End TexBibSpec.

(** ** The macros handed to the typesetter *)

Module KatexMacrosSpec.
Import Js Re ReFacts Text ReMore TextFacts Shape TextMore SplitFacts Prose.
Import TablesSpec BracedSpec PipelineSpec KatexMacros.
#[local] Arguments String.append !_ _ /.

Lemma includes_free sep s :
  includes s sep = false -> free (fun t => startsWith t sep) s = true.
Proof.
  induction s as [|c s IH]; cbn [includes free].
  - intros H. rewrite orb_false_r in H. by rewrite H.
  - intros [H1 H2]%orb_false_elim. by rewrite H1, IH.
Qed.

Lemma free_or (Q1 Q2 : string -> bool) s :
  free Q1 s = true -> free Q2 s = true ->
  free (fun t => Q1 t || Q2 t) s = true.
Proof.
  induction s as [|c s IH]; cbn [free].
  - rewrite !andb_true_r. intros H1%negb_true_iff H2%negb_true_iff.
    by rewrite H1, H2.
  - intros [H1%negb_true_iff H1']%andb_prop [H2%negb_true_iff H2']%andb_prop.
    by rewrite H1, H2, IH.
Qed.

Lemma guarded_lit sep r : guarded (fun t => startsWith t sep) (Seq (Lit sep) r).
Proof.
  intros k [prev rest caps] H. cbn [m_rest] in H. cbn [rmatch].
  unfold lit_step. cbn [m_rest]. unfold startsWith in H.
  by destruct (strip_prefix sep rest).
Qed.

Lemma strip_prefix_cons a l c rest :
  strip_prefix (String a l) (String c rest)
  = if Ascii.eqb a c then strip_prefix l rest else None.
Proof. done. Qed.

Lemma newcmd_guarded :
  guarded (fun t => startsWith t "\newcommand" || startsWith t "\renewcommand")
    newcmd.
Proof.
  intros k [prev rest caps] H. cbn [m_rest] in H.
  apply orb_false_elim in H as [H1 H2]. unfold startsWith in H1, H2.
  unfold newcmd. cbn [rmatch]. unfold lit_step at 1. cbn [m_rest].
  destruct rest as [|c rest]; [done|]. rewrite strip_prefix_cons in *.
  destruct (Ascii.eqb "\" c); [|done].
  change (strip_prefix EmptyString rest) with (Some rest).
  assert (E1 : strip_prefix "newcommand" rest = None)
    by (revert H1; by destruct (strip_prefix "newcommand" rest)).
  assert (E2 : strip_prefix "renewcommand" rest = None)
    by (revert H2; by destruct (strip_prefix "renewcommand" rest)).
  cbn [m_prev m_rest m_caps]. unfold lit_step at 1. cbn [m_rest].
  rewrite E1. unfold lit_step at 1. cbn [m_rest]. by rewrite E2.
Qed.

Lemma exec_all_free Q r s :
  guarded Q r -> free Q s = true -> exec_all r s = [].
Proof.
  intros Hg Hs. unfold exec_all, tokens. rewrite (scan_free Q) by done.
  apply matches_of_chars.
Qed.

Lemma no_newcmd tex :
  includes tex "\newcommand" = false -> includes tex "\renewcommand" = false ->
  exec_all newcmd tex = [].
Proof.
  intros H1 H2. apply (exec_all_free _ _ _ newcmd_guarded).
  by apply free_or; apply includes_free.
Qed.

Lemma no_def tex : includes tex "\def\" = false -> exec_all defRe tex = [].
Proof.
  intros H. apply (exec_all_free (fun t => startsWith t "\def\")).
  - apply guarded_lit.
  - by apply includes_free.
Qed.

(** *** Definitions made with [\newcommand] *)

Local Notation "'newcmd_tail'" :=
  (Lit "{\" · Grp 1 (Plus true (Cls is_alpha)) · Lit "}" ·
   Opt (Lit "[" · Plus true (Cls is_digit) · Lit "]") · Lit "{" ·
   Grp 2 (any_upto "}") · Lit "}")%re.

Lemma newcmd_tail_match name b1 post prev :
  name <> EmptyString -> all_chars is_alpha name = true ->
  all_chars (not_char "}") b1 = true ->
  rmatch newcmd_tail Some
    (MState prev ("{\" +:+ name +:+ "}{" +:+ b1 +:+ "}" +:+ post) [])
  = Some (MState (Some "}"%char) post [(2, b1); (1, name)]).
Proof.
  intros Hne Hname Hb1. cbn [rmatch]. rewrite lit_step_app.
  apply grp_plus_greedy; [done|done|done|].
  change ("}{" +:+ b1 +:+ "}" +:+ post) with ("}" +:+ "{" +:+ b1 +:+ "}" +:+ post).
  rewrite lit_step_app.
  unfold Opt. cbn [rmatch]. unfold lit_step at 1.
  cbn [m_rest String.append strip_prefix Ascii.eqb Bool.eqb].
  unfold lit_step at 1. cbn [m_rest strip_prefix m_prev m_caps last_char].
  unfold lit_step at 1. cbn [m_rest strip_prefix Ascii.eqb Bool.eqb].
  cbn [m_prev m_caps last_char].
  apply grp_star_greedy; [done|done|].
  change (String "}" post) with ("}" +:+ post). by rewrite lit_step_app.
Qed.

Lemma newcmd_match (renew : bool) name b1 post idx prev :
  name <> EmptyString -> all_chars is_alpha name = true ->
  all_chars (not_char "}") b1 = true ->
  match_at newcmd idx prev
    (((if renew then "\renewcommand" else "\newcommand") +:+ "{\" +:+ name
      +:+ "}{" +:+ b1 +:+ "}") +:+ post)
  = Some (JsMatch idx
            ((if renew then "\renewcommand" else "\newcommand") +:+ "{\" +:+ name
             +:+ "}{" +:+ b1 +:+ "}")
            [(2, b1); (1, name)]).
Proof.
  intros Hne Hname Hb1.
  apply (match_at_of_rmatch _ _ _ _ _
           (MState (Some "}"%char) post [(2, b1); (1, name)])); [|done].
  change (rmatch newcmd Some)
    with (lit_step "\" (fun st1 =>
            match lit_step "newcommand" (rmatch newcmd_tail Some) st1 with
            | Some res => Some res
            | None => lit_step "renewcommand" (rmatch newcmd_tail Some) st1
            end)).
  destruct renew.
  - replace (("\renewcommand" +:+ "{\" +:+ name +:+ "}{" +:+ b1 +:+ "}") +:+ post)
      with ("\" +:+ "renewcommand" +:+ "{\" +:+ name +:+ "}{" +:+ b1 +:+ "}" +:+ post)
      by (rewrite !app_assoc; reflexivity).
    rewrite lit_step_app.
    assert (E : lit_step "newcommand" (rmatch newcmd_tail Some)
                  (MState (last_char "\" prev)
                     ("renewcommand" +:+ "{\" +:+ name +:+ "}{" +:+ b1 +:+ "}" +:+ post)
                     []) = None) by done.
    rewrite E. rewrite lit_step_app. by apply newcmd_tail_match.
  - replace (("\newcommand" +:+ "{\" +:+ name +:+ "}{" +:+ b1 +:+ "}") +:+ post)
      with ("\" +:+ "newcommand" +:+ "{\" +:+ name +:+ "}{" +:+ b1 +:+ "}" +:+ post)
      by (rewrite !app_assoc; reflexivity).
    rewrite lit_step_app. rewrite lit_step_app.
    by rewrite newcmd_tail_match.
Qed.

(** X21: a [\newcommand] or [\renewcommand] defines its macro as the text
    between the opening brace of the definition and the FIRST closing brace
    after it (cleaned): a definition that holds braces of its own is cut
    there. *)
Theorem extractKatexMacros_newcommand (renew : bool)
  (pre name b1 post : string) :
  plain pre = true -> plain post = true ->
  name <> EmptyString -> all_chars is_alpha name = true ->
  all_chars (not_char "}") b1 = true ->
  includes (pre +:+ ((if renew then "\renewcommand" else "\newcommand") +:+ "{\"
                     +:+ name +:+ "}{" +:+ b1 +:+ "}") +:+ post) "\def\" = false ->
  extractKatexMacros
    (pre +:+ ((if renew then "\renewcommand" else "\newcommand") +:+ "{\"
              +:+ name +:+ "}{" +:+ b1 +:+ "}") +:+ post)
  = {[ "\" +:+ name := clean_newcmd b1 ]}.
Proof.
  intros Hpre Hpost Hne Hname Hb1 Hdef. unfold extractKatexMacros. cbv zeta.
  rewrite no_def by done.
  rewrite (exec_all_single "\" newcmd pre _ post [(2, b1); (1, name)]);
    [done|apply anchored_lit|done|done| |by destruct renew].
  intros idx prev. by apply newcmd_match.
Qed.

Lemma extractKatexMacros_newcommand_witness :
  extractKatexMacros
    ("" +:+ ((if false then "\renewcommand" else "\newcommand") +:+ "{\"
             +:+ "R" +:+ "}{" +:+ "\mathbb{R" +:+ "}") +:+ "}")
  = {[ "\" +:+ "R" := clean_newcmd "\mathbb{R" ]}.
Proof.
  apply (extractKatexMacros_newcommand false "" "R" "\mathbb{R" "}");
    done || reflexivity.
Defined.

(** *** Definitions made with [\def] *)

Lemma close_offset_bal : forall body d tail,
  bal d body = true ->
  close_offset (Z.of_nat d + 1) (body +:+ String "}" tail)
  = Some (String.length body).
Proof.
  induction body as [|c body IH]; intros d tail H.
  - simpl in H. apply Nat.eqb_eq in H. subst d. done.
  - cbn [bal] in H. cbn [String.append close_offset String.length].
    destruct (Ascii.eqb c "{").
    + replace (Z.of_nat d + 1 + 1)%Z with (Z.of_nat (S d) + 1)%Z by lia.
      by rewrite IH.
    + destruct (Ascii.eqb c "}").
      * destruct d as [|d]; [done|].
        destruct (Z.eqb_spec (Z.of_nat (S d) + 1 - 1) 0) as [E|_]; [lia|].
        replace (Z.of_nat (S d) + 1 - 1)%Z with (Z.of_nat d + 1)%Z by lia.
        by rewrite IH.
      * by rewrite IH.
Qed.

Lemma close_offset_open : forall rest d,
  stays_open d rest = true -> close_offset (Z.of_nat d + 1) rest = None.
Proof.
  induction rest as [|c rest IH]; intros d H; [done|].
  cbn [stays_open] in H. cbn [close_offset].
  destruct (Ascii.eqb c "{").
  - replace (Z.of_nat d + 1 + 1)%Z with (Z.of_nat (S d) + 1)%Z by lia.
    by rewrite IH.
  - destruct (Ascii.eqb c "}").
    + destruct d as [|d]; [done|].
      destruct (Z.eqb_spec (Z.of_nat (S d) + 1 - 1) 0) as [E|_]; [lia|].
      replace (Z.of_nat (S d) + 1 - 1)%Z with (Z.of_nat d + 1)%Z by lia.
      by rewrite IH.
    + by rewrite IH.
Qed.

Lemma def_match name rest idx prev :
  name <> EmptyString -> all_chars is_alpha name = true ->
  match_at defRe idx prev (("\def\" +:+ name) +:+ String "{" rest)
  = Some (JsMatch idx ("\def\" +:+ name) [(1, name)]).
Proof.
  intros Hne Hname.
  apply (match_at_of_rmatch _ _ _ _ _
           (MState (last_char name (Some "\"%char)) (String "{" rest) [(1, name)]));
    [|done].
  unfold defRe. cbn [rmatch]. rewrite app_assoc, lit_step_app.
  by apply grp_plus_greedy.
Qed.

(** A text with one [\def] and no [\newcommand]: the table holds the one
    macro, defined as the loops read it from the opening brace on. *)
Lemma def_single pre name rest :
  plain pre = true ->
  name <> EmptyString -> all_chars is_alpha name = true ->
  includes (String "{" rest) "\def\" = false ->
  includes (pre +:+ ("\def\" +:+ name) +:+ String "{" rest) "\newcommand" = false ->
  includes (pre +:+ ("\def\" +:+ name) +:+ String "{" rest) "\renewcommand" = false ->
  extractKatexMacros (pre +:+ ("\def\" +:+ name) +:+ String "{" rest)
  = {[ "\" +:+ name := clean_def (def_value (String "{" rest)) ]}.
Proof.
  intros Hpre Hne Hname Hdef Hn Hr. unfold extractKatexMacros. cbv zeta.
  rewrite no_newcmd by done. cbn [fold_left].
  assert (Hm : exec_all defRe (pre +:+ ("\def\" +:+ name) +:+ String "{" rest)
               = [JsMatch (String.length pre) ("\def\" +:+ name) [(1, name)]]).
  { unfold exec_all, tokens.
    rewrite (scan_app_plain "\") by (done || apply anchored_lit).
    rewrite (scan_match defRe _ _ ("\def\" +:+ name) (String "{" rest) _
               (def_match name rest _ _ Hne Hname)) by done.
    rewrite (scan_free (fun t => startsWith t "\def\"));
      [|apply guarded_lit|by apply includes_free].
    rewrite matches_of_app, matches_of_chars. cbn [matches_of app].
    by rewrite matches_of_chars. }
  rewrite Hm. cbn [fold_left]. unfold def_step. cbn [m_index m_text].
  rewrite skip_n_add, !skip_n_app.
  cbn [Pipeline.index_of Ascii.eqb Bool.eqb skip_n].
  unfold group. cbn [m_groups get_cap Nat.eqb default id]. done.
Qed.

(** X22: a [\def] defines its macro as the text between the brace that
    follows the name and the brace that closes it, nested pairs of braces
    included (cleaned). *)
Theorem extractKatexMacros_def (pre name body post : string) :
  plain pre = true ->
  name <> EmptyString -> all_chars is_alpha name = true ->
  balanced body = true ->
  includes ("{" +:+ body +:+ "}" +:+ post) "\def\" = false ->
  includes (pre +:+ ("\def\" +:+ name) +:+ "{" +:+ body +:+ "}" +:+ post)
    "\newcommand" = false ->
  includes (pre +:+ ("\def\" +:+ name) +:+ "{" +:+ body +:+ "}" +:+ post)
    "\renewcommand" = false ->
  extractKatexMacros
    (pre +:+ ("\def\" +:+ name) +:+ "{" +:+ body +:+ "}" +:+ post)
  = {[ "\" +:+ name := clean_def body ]}.
Proof.
  intros Hpre Hne Hname Hbal Hdef Hn Hr.
  change ("{" +:+ body +:+ "}" +:+ post)
    with (String "{" (body +:+ String "}" post)) in *.
  rewrite def_single by done. do 2 f_equal.
  unfold def_value. cbn [close_offset Ascii.eqb Bool.eqb].
  change (0 + 1)%Z with (Z.of_nat 0 + 1)%Z.
  rewrite (close_offset_bal body 0 post Hbal).
  cbn [fmap option_fmap option_map skip_n].
  replace (S (String.length body) - 1) with (String.length body) by lia.
  apply first_n_app.
Qed.

Lemma extractKatexMacros_def_witness :
  extractKatexMacros
    ("% macros " +:+ ("\def\" +:+ "x") +:+ "{" +:+ "\mathbf{x}" +:+ "}" +:+ " text")
  = {[ "\" +:+ "x" := clean_def "\mathbf{x}" ]}.
Proof.
  apply (extractKatexMacros_def "% macros " "x" "\mathbf{x}" " text");
    done || reflexivity.
Defined.

(** X23: when the brace that follows the name of a [\def] is never closed,
    the macro is defined as a single opening brace. *)
Theorem extractKatexMacros_def_unclosed (pre name rest : string) :
  plain pre = true ->
  name <> EmptyString -> all_chars is_alpha name = true ->
  stays_open 0 rest = true ->
  includes ("{" +:+ rest) "\def\" = false ->
  includes (pre +:+ ("\def\" +:+ name) +:+ "{" +:+ rest) "\newcommand" = false ->
  includes (pre +:+ ("\def\" +:+ name) +:+ "{" +:+ rest) "\renewcommand" = false ->
  extractKatexMacros (pre +:+ ("\def\" +:+ name) +:+ "{" +:+ rest)
  = {[ "\" +:+ name := "{" ]}.
Proof.
  intros Hpre Hne Hname Hopen Hdef Hn Hr.
  change ("{" +:+ rest) with (String "{" rest) in *.
  rewrite def_single by done. do 2 f_equal.
  unfold def_value. cbn [close_offset Ascii.eqb Bool.eqb].
  change (0 + 1)%Z with (Z.of_nat 0 + 1)%Z.
  by rewrite (close_offset_open rest 0 Hopen).
Qed.

Lemma extractKatexMacros_def_unclosed_witness :
  extractKatexMacros ("" +:+ ("\def\" +:+ "bad") +:+ "{" +:+ "open {a} text")
  = {[ "\" +:+ "bad" := "{" ]}.
Proof.
  apply (extractKatexMacros_def_unclosed "" "bad" "open {a} text");
    done || reflexivity.
Defined.

End KatexMacrosSpec.

(** ** A stand-alone tabular through the table converter *)

Module TabularSpec.
Import Js Re ReFacts Text ReMore TextFacts Shape TextMore SplitFacts Prose.
Import TablesSpec PipelineSpec Tables.
#[local] Arguments String.append !_ _ /.

(** A lazy run of any characters goes on up to the first place where the
    text that must follow it stands. *)
Lemma star_lazy_until h t (K : kont) post res :
  all_chars (not_char h) t = true ->
  (forall prev s caps, strip_prefix (String h t) s = None ->
     K (MState prev s caps) = None) ->
  forall body fuel prev caps,
    includes body (String h t) = false ->
    String.length body <= fuel ->
    K (MState (last_char body prev) (String h t +:+ post) caps) = Some res ->
    star_loop false (rmatch (Cls any_char)) K fuel
      (MState prev (body +:+ String h t +:+ post) caps) = Some res.
Proof.
  intros Ht HK. induction body as [|c body IH]; intros fuel prev caps Hin Hfuel Hend.
  - cbn [String.append last_char] in *. destruct fuel; cbn [star_loop]; by rewrite Hend.
  - apply includes_cons in Hin as [Hs Hin].
    destruct fuel as [|fuel]; [simpl in Hfuel; lia|].
    cbn [star_loop].
    rewrite HK by by apply startsWith_straddle.
    cbn [rmatch]. unfold cls_step. cbn [m_rest String.append any_char m_caps].
    match goal with
    | |- (if Nat.ltb ?a ?b then _ else _) = _ =>
        destruct (Nat.ltb_spec a b) as [_|Hge]; [|simpl in Hge; lia]
    end.
    apply IH; [done|simpl in Hfuel; lia|done].
Qed.

Lemma grp_lazy_until n h t (k : kont) body post prev caps res :
  all_chars (not_char h) t = true ->
  includes body (String h t) = false ->
  k (MState (last_char (String h t) (last_char body prev)) post ((n, body) :: caps))
  = Some res ->
  rmatch (Grp n (Star false (Cls any_char))) (lit_step (String h t) k)
    (MState prev (body +:+ String h t +:+ post) caps) = Some res.
Proof.
  intros Ht Hin Hk. cbn [rmatch m_rest].
  apply (star_lazy_until h t); [done| |done|rewrite length_app; lia|].
  - intros prev' s caps' Hs. unfold lit_step. cbn [m_rest]. by rewrite Hs.
  - cbn [m_rest m_caps m_prev]. rewrite consumed_app. by rewrite lit_step_app.
Qed.

(** A text in which no backslash is followed by [c] does not hold a
    command that begins with [c]. *)
Lemma clear_not_includes (P : ascii -> bool) c t s :
  P c = true -> clear "\" P s = true ->
  includes s (String "\" (String c t)) = false.
Proof.
  intros Hc. induction s as [|a s IH]; intros H; [done|].
  cbn [clear] in H. apply andb_prop in H as [H1 H2].
  apply negb_true_iff in H1.
  cbn [includes]. rewrite IH by done. rewrite orb_false_r.
  unfold startsWith. rewrite KatexMacrosSpec.strip_prefix_cons.
  destruct (Ascii.eqb_spec "\" a) as [<-|]; [|done].
  destruct s as [|d s]; [done|]. rewrite KatexMacrosSpec.strip_prefix_cons.
  destruct (Ascii.eqb_spec c d) as [<-|]; [|done].
  cbn [second_is] in H1. by rewrite Hc in H1.
Qed.

Lemma clear_weaken (P Q : ascii -> bool) a s :
  (forall c, Q c = true -> P c = true) ->
  clear a P s = true -> clear a Q s = true.
Proof.
  intros HQP. induction s as [|c s IH]; [done|].
  cbn [clear]. intros [H1 H2]%andb_prop. rewrite IH by done.
  rewrite andb_true_r. apply negb_true_iff in H1. apply negb_true_iff.
  unfold second_is in *. destruct s as [|d s]; [done|].
  destruct (Ascii.eqb c a); [|done]. cbn [andb] in *.
  destruct (Q d) eqn:E; [|done]. by rewrite (HQP d E) in H1.
Qed.

Lemma clear_app a (P : ascii -> bool) x g y :
  clear a P x = true -> P g = false -> clear a P (String g y) = true ->
  clear a P (x +:+ String g y) = true.
Proof.
  intros Hx Hg Hy. induction x as [|c x IH]; [done|].
  cbn [clear] in Hx. apply andb_prop in Hx as [H1 H2].
  cbn [String.append clear]. rewrite IH by done. rewrite andb_true_r.
  apply negb_true_iff in H1. apply negb_true_iff.
  destruct x as [|d x].
  - cbn [String.append second_is]. by rewrite Hg, andb_false_r.
  - exact H1.
Qed.

Lemma clear_cons a (P : ascii -> bool) c s :
  second_is a P (String c s) = false -> clear a P s = true ->
  clear a P (String c s) = true.
Proof. intros H1 H2. cbn [clear]. by rewrite H1, H2. Qed.

Lemma parse_grid grid colSpec :
  simple_grid grid = true -> parseTabular (grid_text grid) colSpec = grid.
Proof.
  intros H. unfold parseTabular. cbv zeta.
  rewrite strip_rules_clear by by apply clear_grid.
  unfold split_on. rewrite rows_of_grid by done.
  rewrite map_map. clear colSpec.
  induction grid as [|row grid IH]; [done|].
  unfold simple_grid in H. cbn [forallb] in H.
  apply andb_prop in H as [Hrow Hgrid].
  pose proof (simple_row_cells row Hrow) as Hcells.
  destruct row as [|x row]; [done|].
  cbn [map]. rewrite IH by done. f_equal.
  unfold split_on. by apply cells_of_row.
Qed.

Section Tabular.
Variables pre spec post : string.
Variable grid : list (list string).
Hypothesis Hpre : plain pre = true.
Hypothesis Hpost : plain post = true.
Hypothesis Hspec : all_chars (fun c => not_char "}" c && not_char "\" c) spec = true.
Hypothesis Hgrid : simple_grid grid = true.

Local Notation "'block'" :=
  ("\begin{tabular}{" +:+ spec +:+ "}" +:+ grid_text grid +:+ "\end{tabular}").

Lemma spec_not_brace : all_chars (not_char "}") spec = true.
Proof.
  revert Hspec. apply all_chars_weaken. by intros c [? _]%andb_prop.
Qed.

Lemma spec_plain : plain spec = true.
Proof.
  revert Hspec. apply all_chars_weaken. by intros c [_ ?]%andb_prop.
Qed.

Lemma tabular_match idx prev :
  match_at tabularPattern idx prev (block +:+ post)
  = Some (JsMatch idx block [(2, grid_text grid); (1, spec)]).
Proof.
  apply (match_at_of_rmatch _ _ _ _ _
           (MState (Some "}"%char) post [(2, grid_text grid); (1, spec)]));
    [|done].
  unfold tabularPattern, upto_brace, lazy_any. cbn [rmatch].
  rewrite !app_assoc. rewrite lit_step_app.
  apply grp_star_greedy; [apply spec_not_brace|done|].
  rewrite lit_step_app.
  apply (grp_lazy_until 2 "\" "end{tabular}"); [done| |done].
  apply (clear_not_includes is_lower); [done|by apply clear_grid].
Qed.

(** The pattern of the table environment does not match in the text. *)
Lemma tablePattern_pass f :
  replace_fn tablePattern f (pre +:+ block +:+ post) = pre +:+ block +:+ post.
Proof.
  unfold replace_fn, tokens.
  rewrite (scan_app_plain "\") by (done || apply anchored_lit).
  change (block +:+ post)
    with (String "\" ("begin{tabular}{" +:+ (spec +:+ "}" +:+ grid_text grid
                        +:+ "\end{tabular}") +:+ post)).
  rewrite scan_miss by done.
  rewrite (scan_clear "\" (is_char "b")); [|by apply anchored2_lit|].
  - rewrite render_app, render_chars. cbn [render]. by rewrite render_chars.
  - rewrite !app_assoc.
    rewrite (clear_plain_app "\" _ "begin{tabular}{") by done.
    rewrite clear_plain_app by apply spec_plain.
    rewrite (clear_plain_app "\" _ "}") by done.
    apply clear_app; [|done|].
    + apply (clear_weaken is_lower); [|by apply clear_grid].
      intros c Hc. unfold is_char in Hc. apply Ascii.eqb_eq in Hc. by subst c.
    + change ("\end{tabular}" +:+ post)
        with (String "\" ("end{tabular}" +:+ post)).
      apply (clear_cons "\" _ "\" ("end{tabular}" +:+ post)); [done|].
      apply clear_plain. rewrite (all_chars_app _ "end{tabular}" post).
      unfold plain in Hpost. by rewrite Hpost.
Qed.

Lemma tabular_rendered (format : string) :
  convertTables (pre +:+ block +:+ post) format
  = pre +:+ render_table format grid EmptyString +:+ post.
Proof.
  unfold convertTables. cbv zeta. rewrite tablePattern_pass.
  rewrite (replace_fn_single "\" tabularPattern _ pre block post
             [(2, grid_text grid); (1, spec)]);
    [|apply anchored_lit|done|done|apply tabular_match|done|done].
  unfold tabular_cb, group. cbn [m_groups get_cap Nat.eqb default id].
  by rewrite parse_grid.
Qed.

End Tabular.

(** X24: a stand-alone tabular environment whose body is a grid of simple
    cells, in a text that holds no other command, is replaced in every
    format other than [markdown] by an HTML table written from exactly that
    grid: the cells of the first row as [th] cells of the header row, every
    other row as a row of [td] cells of the body; the text around the
    environment is left as it is. *)
Theorem convertTables_tabular (pre spec post format : string)
  (header : list string) (rows : list (list string)) :
  plain pre = true ->
  plain post = true ->
  all_chars (fun c => not_char "}" c && not_char "\" c) spec = true ->
  simple_grid (header :: rows) = true ->
  String.eqb format "markdown" = false ->
  convertTables
    (pre +:+ ("\begin{tabular}{" +:+ spec +:+ "}" +:+ grid_text (header :: rows)
              +:+ "\end{tabular}") +:+ post) format
  = pre
    +:+ ("<table class=" +:+ dq +:+ "article-table" +:+ dq +:+ ">" +:+ nl
         +:+ "  <thead><tr>" +:+ nl
         +:+ concat_all
               (map (fun cell => "    <th>" +:+ cell +:+ "</th>" +:+ nl) header)
         +:+ "  </tr></thead>" +:+ nl
         +:+ "  <tbody>" +:+ nl
         +:+ concat_all
               (map (fun row =>
                       "  <tr>" +:+ nl
                       +:+ concat_all
                             (map (fun cell => "    <td>" +:+ cell +:+ "</td>" +:+ nl)
                                row)
                       +:+ "  </tr>" +:+ nl) rows)
         +:+ "  </tbody>" +:+ nl +:+ "</table>" +:+ nl)
    +:+ post.
Proof.
  intros Hpre Hpost Hspec Hgrid Hformat.
  rewrite (tabular_rendered pre spec post (header :: rows)) by done.
  unfold render_table. rewrite Hformat.
  unfold tableToHtml, html_cells. cbn [String.eqb].
  do 2 f_equal. rewrite !app_assoc. reflexivity.
Qed.

Lemma convertTables_tabular_witness :
  convertTables
    ("See " +:+ ("\begin{tabular}{" +:+ "lc" +:+ "}"
                 +:+ grid_text [["Model"; "Top 1"]; ["ours"; "91.2"]]
                 +:+ "\end{tabular}") +:+ " above.") "html"
  = "See "
    +:+ ("<table class=" +:+ dq +:+ "article-table" +:+ dq +:+ ">" +:+ nl
         +:+ "  <thead><tr>" +:+ nl
         +:+ concat_all
               (map (fun cell => "    <th>" +:+ cell +:+ "</th>" +:+ nl)
                  ["Model"; "Top 1"])
         +:+ "  </tr></thead>" +:+ nl
         +:+ "  <tbody>" +:+ nl
         +:+ concat_all
               (map (fun row =>
                       "  <tr>" +:+ nl
                       +:+ concat_all
                             (map (fun cell => "    <td>" +:+ cell +:+ "</td>" +:+ nl)
                                row)
                       +:+ "  </tr>" +:+ nl) [["ours"; "91.2"]])
         +:+ "  </tbody>" +:+ nl +:+ "</table>" +:+ nl)
    +:+ " above.".
Proof.
  apply (convertTables_tabular "See " "lc" " above." "html"
           ["Model"; "Top 1"] [["ours"; "91.2"]]); reflexivity.
Defined.

End TabularSpec.

(** ** Comments and paragraphs *)

Module ProseSpec.
Import Js Re ReFacts Text ReMore TextFacts Shape TextMore SplitFacts Prose.
Import TablesSpec PipelineSpec Pipeline.
#[local] Arguments String.append !_ _ /.

Lemma inert_not x s :
  inert_char x = false -> inert s = true -> all_chars (not_char x) s = true.
Proof.
  intros Hx. apply all_chars_weaken. intros c Hc. unfold not_char.
  destruct (Ascii.eqb_spec c x) as [->|]; [congruence|done].
Qed.

Lemma last_char_all (P : ascii -> bool) s : forall d,
  all_chars P s = true ->
  match d with Some c => P c = true | None => True end ->
  match last_char s d with Some c => P c = true | None => True end.
Proof.
  induction s as [|c s IH]; intros d Hs Hd; [done|].
  simpl in Hs. apply andb_prop in Hs as [Hc Hs]. cbn [last_char].
  by apply IH.
Qed.

(** The comment pattern at a per cent sign that no backslash precedes: it
    takes the rest of the line. *)
Lemma comment_match idx prev comment tail :
  match prev with Some c => not_char "\" c = true | None => True end ->
  all_chars dot_char comment = true -> stops dot_char tail ->
  match_at commentPattern idx prev (("%" +:+ comment) +:+ tail)
  = Some (JsMatch idx ("%" +:+ comment) []).
Proof.
  intros Hprev Hc Hstop.
  apply (match_at_of_rmatch _ _ _ _ _
           (MState (last_char comment (Some "%"%char)) tail [])); [|done].
  unfold commentPattern, line_end. cbn [rmatch m_prev].
  assert (Hgo : lit_step "%"
            (fun st => star_loop true (cls_step dot_char)
                         (fun st0 => match cls_step dot_char Some st0 with
                                     | Some _ => None
                                     | None => Some st0
                                     end)
                         (String.length (m_rest st)) st)
            (MState prev (("%" +:+ comment) +:+ tail) [])
          = Some (MState (last_char comment (Some "%"%char)) tail [])).
  { rewrite app_assoc, lit_step_app. cbn [m_rest last_char].
    apply (star_greedy_run (Cls dot_char) dot_char).
    - by apply steps_cls.
    - by apply cls_stops.
    - exact Hc.
    - rewrite length_app. lia.
    - unfold cls_step. cbn [m_rest]. destruct tail as [|c tail]; [done|].
      cbn [stops] in Hstop. by rewrite Hstop. }
  destruct prev as [c|]; [|exact Hgo].
  unfold not_char in Hprev. unfold is_char.
  apply negb_true_iff in Hprev. rewrite Hprev. exact Hgo.
Qed.

(** X25: a comment, from a per cent sign that no backslash precedes to the
    end of its line, is removed by [processSection]; text without
    backslash, tilde and per cent sign around it is left as it is. *)
Theorem processSection_comment (pre comment tail : string) :
  inert pre = true -> inert tail = true ->
  all_chars dot_char comment = true -> stops dot_char tail ->
  processSection (pre +:+ ("%" +:+ comment) +:+ tail) = pre +:+ tail.
Proof.
  intros Hpre Htail Hc Hstop.
  assert (Hfirst : replace_str commentPattern EmptyString
                     (pre +:+ ("%" +:+ comment) +:+ tail) = pre +:+ tail).
  { unfold replace_str, replace_fn, tokens.
    rewrite (scan_app_plain "%")
      by (apply commentPattern_anchored || by apply inert_not).
    rewrite (scan_match commentPattern _ _ ("%" +:+ comment) tail
               (JsMatch (0 + String.length pre) ("%" +:+ comment) []));
      [|apply comment_match; [|done|done]|done|done].
    - rewrite (scan_plain "%")
        by (apply commentPattern_anchored || by apply inert_not).
      rewrite render_app, render_chars. cbn [render expand String.append].
      by rewrite render_chars.
    - apply (last_char_all (not_char "\")); [by apply inert_not|done]. }
  assert (Hplain : plain (pre +:+ tail) = true).
  { unfold plain. rewrite all_chars_app.
    by rewrite (inert_not "\" pre), (inert_not "\" tail). }
  assert (Htilde : all_chars (not_char "~") (pre +:+ tail) = true).
  { rewrite all_chars_app.
    by rewrite (inert_not "~" pre), (inert_not "~" tail). }
  unfold processSection. cbv zeta. rewrite Hfirst.
  rewrite (replace_str_plain "\" (heading "subsection")) by (done || apply anchored_lit).
  rewrite (replace_str_plain "\" (heading "subsubsection")) by (done || apply anchored_lit).
  rewrite (replace_str_plain "\" (command1 "textbf")) by (done || apply anchored_lit).
  rewrite (replace_str_plain "\" (command1 "textit")) by (done || apply anchored_lit).
  rewrite (replace_str_plain "\" (command1 "emph")) by (done || apply anchored_lit).
  rewrite (replace_str_plain "\" (command1 "url")) by (done || apply anchored_lit).
  rewrite (replace_str_plain "\" (command1 "paragraph")) by (done || apply anchored_lit).
  rewrite (replace_str_plain "~" tildePattern) by (done || apply anchored_lit).
  rewrite (replace_str_plain "\" (Lit "\footnote{" · _)) by (done || apply anchored_lit).
  rewrite (replace_fn_plain "\" (listPattern "itemize")) by (done || apply anchored_lit).
  rewrite (replace_fn_plain "\" (listPattern "enumerate")) by (done || apply anchored_lit).
  rewrite (replace_str_plain "\" (Lit "\mbox{" · _)) by (done || apply anchored_lit).
  apply (replace_fn_plain "\"); [apply anchored_lit|done].
Qed.

Lemma processSection_comment_witness :
  processSection
    ("We train " +:+ ("%" +:+ " TODO: \cite{x} check") +:+ (nl +:+ "for 3 days."))
  = "We train " +:+ (nl +:+ "for 3 days.").
Proof.
  apply (processSection_comment "We train " " TODO: \cite{x} check"
           (nl +:+ "for 3 days.")); reflexivity.
Defined.

(** *** Paragraphs *)

Lemma wrap_alpha p :
  starts_alpha p = true -> wrap p = "<p>" +:+ trimEnd p +:+ "</p>".
Proof.
  intros Ha. destruct p as [|c s]; [done|]. cbn [starts_alpha] in Ha.
  apply alpha_facts in Ha as (Hsp & Hdi & H1 & H2 & H3 & H4).
  assert (Htrim : trim (String c s) = trimEnd (String c s)).
  { unfold trim. cbn [trimStart]. by rewrite Hsp. }
  assert (Hend : exists t, trimEnd (String c s) = String c t).
  { change (String c s) with (String c EmptyString +:+ s).
    rewrite trimEnd_app; [by eexists|].
    unfold last_ok. cbn [last_char]. by rewrite Hsp. }
  destruct Hend as [t Ht].
  unfold wrap. rewrite Htrim, Ht. cbv zeta.
  cbn [String.eqb]. unfold startsWith. cbn [strip_prefix].
  rewrite H1, H2, H3, H4.
  unfold numbered, match_at, Plus. cbn [rmatch]. unfold cls_step at 1.
  cbn [m_rest]. by rewrite Hdi.
Qed.

Lemma pieces_app_chars s ts : forall cur,
  pieces cur (chars s ++ ts) = pieces (rev_onto s cur) ts.
Proof.
  induction s as [|c s IH]; intros cur; [done|].
  cbn [chars app pieces rev_onto]. apply IH.
Qed.

(** A paragraph break before a paragraph: two line feeds are taken, and
    no more. *)
Lemma break_match idx prev rest :
  starts_alpha rest = true ->
  match_at paragraphBreak idx prev ((nl +:+ nl) +:+ rest)
  = Some (JsMatch idx (nl +:+ nl) []).
Proof.
  intros Ha.
  apply (match_at_of_rmatch _ _ _ _ _ (MState (Some (chr 10)) rest []));
    [|done].
  unfold paragraphBreak. cbn [rmatch]. rewrite lit_step_app.
  cbn [m_rest]. rewrite CitationsMore.star_greedy_stop; [done|].
  intros k'. cbn [rmatch]. unfold lit_step. cbn [m_rest].
  destruct rest as [|c rest]; [done|]. cbn [starts_alpha] in Ha.
  unfold nl, str1. rewrite KatexMacrosSpec.strip_prefix_cons.
  destruct (Ascii.eqb_spec (chr 10) c) as [<-|]; [done|done].
Qed.

Lemma paragraph_parts p :
  paragraph p = true ->
  starts_alpha p = true /\ all_chars (not_char (chr 10)) p = true.
Proof. by intros [? ?]%andb_prop. Qed.

Lemma join_starts_alpha sep p ps :
  starts_alpha p = true -> starts_alpha (join sep (p :: ps)) = true.
Proof. destruct ps; [done|]. rewrite join_cons. by destruct p. Qed.

Lemma paragraphs_split : forall ps p cur idx prev,
  forallb paragraph (p :: ps) = true ->
  pieces cur (scan paragraphBreak 0 idx prev (join (nl +:+ nl) (p :: ps)))
  = (reverse cur +:+ p) :: ps.
Proof.
  induction ps as [|q ps IH]; intros p cur idx prev H;
    cbn [forallb] in H; apply andb_prop in H as [Hp H];
    apply paragraph_parts in Hp as [Hpa Hpl].
  - cbn [join].
    rewrite (scan_plain (chr 10)) by (done || apply (anchored_lit (chr 10))).
    by rewrite pieces_chars.
  - rewrite join_cons.
    rewrite (scan_app_plain (chr 10)) by (done || apply (anchored_lit (chr 10))).
    rewrite pieces_app_chars.
    pose proof H as H'. cbn [forallb] in H'. apply andb_prop in H' as [Hq _].
    apply paragraph_parts in Hq as [Hqa _].
    rewrite (scan_match paragraphBreak _ _ (nl +:+ nl) (join (nl +:+ nl) (q :: ps))
               (JsMatch (idx + String.length p) (nl +:+ nl) []));
      [|apply break_match; by apply join_starts_alpha|done|done].
    cbn [pieces]. f_equal; [apply reverse_rev_onto|].
    rewrite IH by done. done.
Qed.

(** X26: paragraphs of running text separated by blank lines come out of
    the paragraph wrapper one by one, in order, each in [<p>] tags and
    without the white space at its end. *)
Theorem wrapParagraphs_paragraphs (paragraphs : list string) :
  forallb paragraph paragraphs = true ->
  wrapParagraphs (join (nl +:+ nl) paragraphs)
  = join (nl +:+ nl)
      (map (fun p => "<p>" +:+ trimEnd p +:+ "</p>") paragraphs).
Proof.
  intros H. destruct paragraphs as [|p ps]; [done|].
  unfold wrapParagraphs, split_re, tokens.
  rewrite paragraphs_split by done. cbn [reverse rev_onto String.append].
  f_equal. clear -H. revert H. generalize (p :: ps). clear p ps.
  induction l as [|p ps IH]; [done|]. cbn [forallb].
  intros [Hp H]%andb_prop. apply paragraph_parts in Hp as [Hpa _].
  cbn [map]. rewrite wrap_alpha by done.
  cbn [List.filter String.append String.eqb negb]. f_equal. by apply IH.
Qed.

Lemma wrapParagraphs_paragraphs_witness :
  wrapParagraphs (join (nl +:+ nl) ["First one. "; "Second, longer one."])
  = join (nl +:+ nl)
      (map (fun p => "<p>" +:+ trimEnd p +:+ "</p>")
         ["First one. "; "Second, longer one."]).
Proof.
  apply (wrapParagraphs_paragraphs ["First one. "; "Second, longer one."]).
  reflexivity.
Defined.

End ProseSpec.

(** ** Citation normalisation *)

Module NormalizeSpec.
Import Js Re ReFacts Text ReMore TextFacts Shape TextMore SplitFacts Prose.
Import TablesSpec PipelineSpec Pipeline.
#[local] Arguments String.append !_ _ /.

Lemma scan_app_guarded Q (P : ascii -> bool) r pre rest :
  guarded Q r -> (forall c s, P c = true -> Q (String c s) = false) ->
  forall idx prev, all_chars P pre = true ->
  scan r 0 idx prev (pre +:+ rest)
  = chars pre ++ scan r 0 (idx + String.length pre) (last_char pre prev) rest.
Proof.
  intros Hg HQ. induction pre as [|c pre IH]; intros idx prev Hp.
  - cbn [String.append chars app String.length last_char]. by rewrite Nat.add_0_r.
  - simpl in Hp. apply andb_prop in Hp as [Hc Hp].
    cbn [String.append scan chars app]. unfold match_at.
    rewrite Hg by (cbn [m_rest]; by apply HQ).
    rewrite IH by done. cbn [String.length last_char]. do 3 f_equal. lia.
Qed.

Lemma tilde_bracket_match k post idx prev :
  valid_key k = true ->
  match_at tildeBracketPattern idx prev (("~[" +:+ k +:+ "]") +:+ post)
  = Some (JsMatch idx ("~[" +:+ k +:+ "]") [(1, k)]).
Proof.
  intros Hk.
  apply (match_at_of_rmatch _ _ _ _ _ (MState (Some "]"%char) post [(1, k)]));
    [|done].
  destruct k as [|c k]; [done|]. simpl in Hk. apply andb_prop in Hk as [Hc Hk].
  unfold tildeBracketPattern, Citations.bracketPattern, Citations.key_re.
  cbn [rmatch].
  replace (("~[" +:+ String c k +:+ "]") +:+ post)
    with ("~" +:+ "[" +:+ String c (k +:+ "]" +:+ post))
    by (rewrite !app_assoc; reflexivity).
  rewrite !lit_step_app.
  unfold cls_step at 1. cbn [m_rest String.append]. rewrite Hc.
  cbn [m_rest m_caps m_prev].
  apply (star_greedy_run (Cls Citations.key_char) Citations.key_char).
  - by apply steps_cls.
  - by apply cls_stops.
  - exact Hk.
  - rewrite length_app. lia.
  - rewrite CitationsMore.star_greedy_stop.
    + cbn [m_rest m_caps m_prev].
      change (String "]" post) with ("]" +:+ post). rewrite lit_step_app.
      change (String c (k +:+ "]" +:+ post)) with (String c k +:+ "]" +:+ post).
      by rewrite consumed_app.
    + intros k'. cbn [rmatch]. by unfold lit_step.
Qed.

(** X27: a bracketed key tied to the word before it by a tilde is rewritten
    by [normalizeCitations] to a [\cite] command of that key; the tilde is
    consumed, so no space is left between the word and the citation. *)
Theorem normalizeCitations_tilde (pre k post : string) :
  prose pre = true -> prose post = true -> valid_key k = true ->
  normalizeCitations (pre +:+ ("~[" +:+ k +:+ "]") +:+ post)
  = pre +:+ ("\cite{" +:+ k +:+ "}") +:+ post.
Proof.
  intros Hpre Hpost Hk.
  assert (Hrest : forall x, prose_char x = false -> Citations.key_char x = false ->
            x <> "["%char -> x <> "]"%char ->
            all_chars (not_char x) ("[" +:+ k +:+ "]" +:+ post) = true).
  { intros x Hx Hx' H1 H2.
    change ("[" +:+ k +:+ "]" +:+ post) with (String "[" (k +:+ String "]" post)).
    cbn [all_chars]. rewrite all_chars_app. cbn [all_chars].
    rewrite (key_not x k), (prose_not x post) by done.
    unfold not_char.
    destruct (Ascii.eqb_spec "[" x) as [<-|]; [done|].
    by destruct (Ascii.eqb_spec "]" x) as [<-|]. }
  unfold normalizeCitations. cbv zeta.
  rewrite (replace_str_plain "\" mboxCitePattern); [|apply anchored_lit|].
  2:{ unfold plain. rewrite all_chars_app, (prose_not "\" pre) by done.
      replace (("~[" +:+ k +:+ "]") +:+ post)
        with (String "~" ("[" +:+ k +:+ "]" +:+ post))
        by (rewrite !app_assoc; reflexivity).
      cbn [all_chars]. by rewrite Hrest. }
  assert (Hsecond : replace_fn mboxBracketPattern cite_of
                      (pre +:+ ("~[" +:+ k +:+ "]") +:+ post)
                    = pre +:+ ("~[" +:+ k +:+ "]") +:+ post).
  { unfold replace_fn, tokens.
    rewrite (scan_app_guarded _ prose_char _ _ _ mboxBracket_guarded);
      [| |done].
    2:{ intros c s Hc. cbn [starts_with second_is].
        destruct (Ascii.eqb_spec c "~") as [->|]; [done|].
        destruct (Ascii.eqb_spec c "\") as [->|]; [done|]. by destruct s. }
    replace (("~[" +:+ k +:+ "]") +:+ post)
      with (String "~" ("[" +:+ k +:+ "]" +:+ post))
      by (rewrite !app_assoc; reflexivity).
    rewrite scan_miss by done.
    rewrite (scan_free _ _ mboxBracket_guarded).
    2:{ apply free_tilde_clear; [by apply Hrest|].
        apply clear_plain. by apply Hrest. }
    rewrite render_app, render_chars. cbn [render]. by rewrite render_chars. }
  rewrite Hsecond.
  rewrite (replace_fn_single "~" tildeBracketPattern cite_of pre
             ("~[" +:+ k +:+ "]") post [(1, k)]);
    [done|apply anchored_lit|by apply prose_not|by apply prose_not
     |intros; by apply tilde_bracket_match|done|done].
Qed.

Lemma normalizeCitations_tilde_witness :
  normalizeCitations ("as in Transformers" +:+ ("~[" +:+ "vaswani2017" +:+ "]") +:+ ".")
  = "as in Transformers" +:+ ("\cite{" +:+ "vaswani2017" +:+ "}") +:+ ".".
Proof.
  apply (normalizeCitations_tilde "as in Transformers" "vaswani2017" ".");
    reflexivity.
Defined.

End NormalizeSpec.

(** ** Lists *)

Module ListSpec.
Import Js Re ReFacts Text ReMore TextFacts Shape TextMore SplitFacts Prose.
Import TablesSpec PipelineSpec ProseSpec TabularSpec Pipeline.
#[local] Arguments String.append !_ _ /.

Lemma scan_app_clear a (P : ascii -> bool) r x g y :
  anchored2 a P r -> P g = false ->
  forall idx prev, clear a P x = true ->
  scan r 0 idx prev (x +:+ String g y)
  = chars x ++ scan r 0 (idx + String.length x) (last_char x prev) (String g y).
Proof.
  intros Ha Hg. induction x as [|c x IH]; intros idx prev Hx.
  - cbn [String.append chars app String.length last_char]. by rewrite Nat.add_0_r.
  - cbn [clear] in Hx. apply andb_prop in Hx as [H1 H2].
    apply negb_true_iff in H1.
    change (String c x +:+ String g y) with (String c (x +:+ String g y)).
    cbn [scan chars app]. unfold match_at. rewrite Ha.
    + rewrite IH by done.
      replace (idx + String.length (String c x)) with (S idx + String.length x)
        by (simpl; lia).
      done.
    + cbn [m_rest]. destruct x as [|d x]; [|exact H1].
      cbn [String.append second_is]. by rewrite Hg, andb_false_r.
Qed.

Lemma plain_not_includes s t :
  plain s = true -> includes s (String "\" t) = false.
Proof.
  induction s as [|c s IH]; [done|]. unfold plain. cbn [all_chars].
  intros [Hc Hs]%andb_prop. cbn [includes]. rewrite IH by done.
  rewrite orb_false_r. unfold startsWith.
  rewrite KatexMacrosSpec.strip_prefix_cons.
  unfold not_char in Hc. apply negb_true_iff in Hc.
  by rewrite Ascii.eqb_sym, Hc.
Qed.

Section Lists.
Variables pre post env : string.
Variable items : list string.
Hypothesis Hpre : inert pre = true.
Hypothesis Hpost : inert post = true.
Hypothesis Hitems : forallb list_item items = true.
Hypothesis Henv : inert env = true.

Lemma item_parts it :
  it ∈ items -> tidy it = true /\ inert it = true.
Proof.
  intros Hin. rewrite forallb_forall in Hitems.
  apply list_elem_of_In, Hitems in Hin. by apply andb_prop in Hin.
Qed.

Lemma list_text_cons it its :
  list_text (it :: its) = "\item" +:+ (" " +:+ it +:+ nl) +:+ list_text its.
Proof.
  unfold list_text. cbn [map concat_all foldr]. rewrite !app_assoc. reflexivity.
Qed.

Lemma list_text_all (P : ascii -> bool) :
  all_chars P "\item " = true -> all_chars P nl = true ->
  (forall it, it ∈ items -> all_chars P it = true) ->
  all_chars P (list_text items) = true.
Proof.
  intros H1 H2. clear Hitems. induction items as [|it its IH]; intros H; [done|].
  change (list_text (it :: its))
    with (("\item " +:+ it +:+ nl) +:+ list_text its).
  rewrite !all_chars_app, H1, H2.
  rewrite (H it) by apply list_elem_of_here.
  by rewrite IH by (intros; apply H; by apply list_elem_of_further).
Qed.

Lemma list_text_clear (P : ascii -> bool) (tail : string) :
  P "i"%char = false -> clear "\" P tail = true ->
  clear "\" P (list_text items +:+ tail) = true.
Proof.
  intros Hi Htail. pose proof item_parts as Hparts. clear Hitems.
  induction items as [|it its IH]; [done|].
  rewrite list_text_cons.
  replace (("\item" +:+ (" " +:+ it +:+ nl) +:+ list_text its) +:+ tail)
    with (String "\" (("item " +:+ it +:+ nl) +:+ list_text its +:+ tail))
    by (rewrite !app_assoc; reflexivity).
  apply clear_cons.
  - cbn [String.append second_is]. by rewrite Hi.
  - rewrite clear_plain_app.
    + apply IH. intros it' Hin. apply Hparts. by apply list_elem_of_further.
    + rewrite !all_chars_app.
      destruct (Hparts it (list_elem_of_here _ _)) as [_ Hin].
      by rewrite (inert_not "\" it).
Qed.

Local Notation "'listing'" := (list_env env items).
Local Notation "'body'" := (nl +:+ list_text items).

Lemma env_not x :
  inert_char x = false -> x <> "\"%char ->
  all_chars (not_char x) pre = true /\ all_chars (not_char x) post = true /\
  all_chars (not_char x) (nl +:+ list_text items) = true.
Proof.
  intros Hx Hne. split; [by apply inert_not|]. split; [by apply inert_not|].
  assert (Hnl : all_chars (not_char x) nl = true).
  { cbn. unfold not_char. rewrite andb_true_r.
    apply negb_true_iff, Ascii.eqb_neq. by intros <-. }
  rewrite all_chars_app, Hnl. apply list_text_all; [|done|].
  - cbn [all_chars]. unfold not_char.
    repeat (apply andb_true_intro; split); try done;
      apply negb_true_iff, Ascii.eqb_neq; by intros <-.
  - intros it Hin. apply inert_not; [done|]. by apply item_parts.
Qed.

Lemma env_plain : plain env = true.
Proof. by apply inert_not. Qed.

Lemma listing_split :
  (pre +:+ listing +:+ post)
  = pre +:+ String "\" (("begin{" +:+ env +:+ "}") +:+ body
                         +:+ String "\" (("end{" +:+ env +:+ "}") +:+ post)).
Proof. unfold list_env. rewrite !app_assoc. reflexivity. Qed.

Lemma tail_clear (P : ascii -> bool) :
  P "e"%char = false ->
  clear "\" P (String "\" (("end{" +:+ env +:+ "}") +:+ post)) = true.
Proof.
  intros He. apply clear_cons.
  - cbn [String.append second_is]. by rewrite He.
  - apply clear_plain. rewrite !all_chars_app.
    pose proof env_plain as Hp. unfold plain in Hp. rewrite Hp.
    by rewrite (inert_not "\" post).
Qed.

Lemma inner_clear_gen (P : ascii -> bool) (tail : string) :
  P "i"%char = false -> clear "\" P tail = true ->
  clear "\" P (("begin{" +:+ env +:+ "}") +:+ body +:+ tail) = true.
Proof.
  intros Hi Ht. rewrite clear_plain_app.
  2:{ rewrite !all_chars_app. pose proof env_plain as Hp. unfold plain in Hp.
      by rewrite Hp. }
  rewrite app_assoc. rewrite (clear_plain_app "\" _ nl) by done.
  by apply list_text_clear.
Qed.

Lemma inner_clear (P : ascii -> bool) :
  P "i"%char = false -> P "e"%char = false ->
  clear "\" P (("begin{" +:+ env +:+ "}") +:+ body
               +:+ String "\" (("end{" +:+ env +:+ "}") +:+ post)) = true.
Proof. intros Hi He. apply inner_clear_gen; [done|by apply tail_clear]. Qed.

Lemma text_clear (P : ascii -> bool) :
  P "b"%char = false -> P "i"%char = false -> P "e"%char = false ->
  clear "\" P (pre +:+ listing +:+ post) = true.
Proof.
  intros Hb Hi He. rewrite listing_split.
  rewrite clear_plain_app by by apply inert_not.
  apply clear_cons; [|by apply inner_clear].
  cbn [String.append second_is]. by rewrite Hb.
Qed.

Lemma text_not x :
  inert_char x = false -> x <> "\"%char ->
  all_chars (not_char x) "begin{}end" = true ->
  all_chars (not_char x) (pre +:+ listing +:+ post) = true.
Proof.
  intros Hx Hne Hlit. destruct (env_not x Hx Hne) as (H1 & H2 & H3).
  assert (Hbs : not_char x "\" = true).
  { unfold not_char. apply negb_true_iff, Ascii.eqb_neq. by intros <-. }
  rewrite all_chars_app in H3. apply andb_prop in H3 as [H3 H4].
  rewrite listing_split. rewrite !all_chars_app. cbn [all_chars].
  rewrite !all_chars_app. cbn [all_chars]. rewrite !all_chars_app.
  rewrite H1, H2, H3, H4, Hbs, (inert_not x env) by done.
  cbn [all_chars] in Hlit. repeat (apply andb_prop in Hlit as [? Hlit]).
  repeat (apply andb_true_intro; split); done.
Qed.

(** The [\emph] pass finds nothing in the text. *)
Lemma emph_pass tmpl :
  replace_str (command1 "emph") tmpl (pre +:+ listing +:+ post)
  = pre +:+ listing +:+ post.
Proof.
  unfold replace_str, replace_fn, tokens. rewrite listing_split.
  rewrite (scan_app_plain "\") by (apply anchored_lit || by apply inert_not).
  rewrite scan_miss by done.
  rewrite <- (app_assoc ("begin{" +:+ env +:+ "}") (nl +:+ list_text items)).
  rewrite (scan_app_clear "\" (is_char "e") (command1 "emph"));
    [|by apply anchored2_lit|done|].
  2:{ pose proof (inner_clear_gen (is_char "e") EmptyString eq_refl eq_refl) as H.
      by rewrite app_nil_r in H. }
  rewrite scan_miss by done.
  rewrite (scan_plain "\"); [|apply anchored_lit|].
  2:{ rewrite !all_chars_app. pose proof env_plain as Hp. unfold plain in Hp.
      rewrite Hp. by rewrite (inert_not "\" post). }
  rewrite !render_app, !render_chars. cbn [render].
  rewrite !render_app, !render_chars. cbn [render]. by rewrite render_chars.
Qed.

(** The list pattern takes the environment, with its body in group 1. *)
Lemma list_match idx prev :
  match_at (listPattern env) idx prev (listing +:+ post)
  = Some (JsMatch idx listing [(1, body)]).
Proof.
  apply (match_at_of_rmatch _ _ _ _ _
           (MState (last_char ("\end{" +:+ env +:+ "}")
                      (last_char body (last_char ("\begin{" +:+ env +:+ "}") prev)))
              post [(1, body)])); [|done].
  unfold listPattern, lazy_any, list_env. cbn [rmatch].
  rewrite (app_assoc ("\begin{" +:+ env +:+ "}")).
  rewrite (app_assoc (nl +:+ list_text items)).
  rewrite lit_step_app.
  change ("\end{" +:+ env +:+ "}") with (String "\" ("end{" +:+ env +:+ "}")).
  apply (grp_lazy_until 1 "\" ("end{" +:+ env +:+ "}")); [| |done].
  - rewrite !all_chars_app. pose proof env_plain as Hp. unfold plain in Hp.
    by rewrite Hp.
  - apply (clear_not_includes (is_char "e")); [done|].
    rewrite <- (app_nil_r (nl +:+ list_text items)), app_assoc.
    rewrite (clear_plain_app "\" _ nl) by done. by apply list_text_clear.
Qed.

Lemma pieces_of_list : forall its a,
  (forall it, it ∈ its -> inert it = true) ->
  plain a = true ->
  split_go "\item" 0 EmptyString (a +:+ list_text its)
  = a :: map (fun it => " " +:+ it +:+ nl) its.
Proof.
  induction its as [|it its IH]; intros a Hits Ha.
  - cbn [list_text map concat_all foldr]. rewrite app_nil_r.
    rewrite split_go_last by by apply plain_not_includes. done.
  - rewrite list_text_cons.
    rewrite split_go_before; [|done|by apply plain_not_includes].
    cbn [map]. f_equal.
    apply (IH (" " +:+ it +:+ nl));
      [intros; apply Hits; by apply list_elem_of_further|].
    unfold plain. rewrite !all_chars_app.
    by rewrite (inert_not "\" it) by (done || apply Hits, list_elem_of_here).
Qed.

Lemma list_items_body :
  list_items body = map (fun it => " " +:+ it +:+ nl) items.
Proof.
  unfold list_items, split_on.
  rewrite pieces_of_list; [|intros; by apply item_parts|done].
  cbn [List.filter]. change (trim nl) with EmptyString. cbn [String.eqb negb].
  pose proof item_parts as Hparts. clear Hitems.
  induction items as [|it its IH]; [done|].
  destruct (Hparts it (list_elem_of_here _ _)) as [Ht _].
  cbn [map List.filter].
  rewrite (trim_pad " " it nl) by done.
  destruct it as [|c it]; [done|]. cbn [String.eqb negb]. f_equal.
  apply IH. intros it' Hin. apply Hparts. by apply list_elem_of_further.
Qed.

Lemma itemize_cb_items idx mt :
  itemize_cb (JsMatch idx mt [(1, body)])
  = join nl (map (fun it => "- " +:+ it) items).
Proof.
  unfold itemize_cb, group. cbn [m_groups get_cap Nat.eqb default id].
  rewrite list_items_body, map_map. f_equal.
  apply map_ext_in. intros it Hin%list_elem_of_In.
  destruct (item_parts it Hin) as [Ht _]. by rewrite (trim_pad " " it nl).
Qed.

Lemma enumerate_cb_items idx mt :
  enumerate_cb (JsMatch idx mt [(1, body)])
  = join nl (imap (fun n it => nat_to_string (S n) +:+ ". " +:+ it) items).
Proof.
  unfold enumerate_cb, group. cbn [m_groups get_cap Nat.eqb default id].
  rewrite list_items_body. f_equal.
  change (map (fun it => " " +:+ it +:+ nl) items)
    with ((fun it => " " +:+ it +:+ nl) <$> items).
  rewrite imap_fmap. apply imap_ext. intros i it Hi. cbn [compose].
  apply list_elem_of_lookup_2 in Hi.
  destruct (item_parts it Hi) as [Ht _]. by rewrite (trim_pad " " it nl).
Qed.

Lemma nat_to_string_plain n : plain (nat_to_string n) = true.
Proof. by apply RefsMore.nat_to_string_go_plain. Qed.

Lemma itemized_plain :
  plain (pre +:+ join nl (map (fun it => "- " +:+ it) items) +:+ post) = true.
Proof.
  unfold plain. rewrite !all_chars_app.
  rewrite (inert_not "\" pre), (inert_not "\" post) by done.
  rewrite join_all; [done|done|].
  apply Forall_forall. intros s (it & -> & Hin)%list_elem_of_fmap.
  rewrite all_chars_app. destruct (item_parts it Hin) as [_ Hi].
  by rewrite (inert_not "\" it).
Qed.

Lemma enumerated_plain :
  plain (pre +:+ join nl (imap (fun n it => nat_to_string (S n) +:+ ". " +:+ it)
                            items) +:+ post) = true.
Proof.
  unfold plain. rewrite !all_chars_app.
  rewrite (inert_not "\" pre), (inert_not "\" post) by done.
  rewrite join_all; [done|done|].
  apply Forall_forall. intros s (i & it & -> & Hi)%elem_of_lookup_imap.
  apply list_elem_of_lookup_2 in Hi.
  rewrite !all_chars_app. destruct (item_parts it Hi) as [_ Hit].
  pose proof (nat_to_string_plain (S i)) as Hn. unfold plain in Hn.
  by rewrite Hn, (inert_not "\" it).
Qed.

End Lists.

(** The passes of [processSection] before the list passes find nothing in
    the text. *)
Ltac early_passes pre post env items Hpre Hpost Hitems Henv :=
  unfold processSection; cbv zeta;
  rewrite (replace_str_plain "%" commentPattern)
    by (apply commentPattern_anchored || by apply text_not);
  rewrite (replace_str_clear "\"
             (fun d : ascii => negb (Ascii.eqb d "b" || Ascii.eqb d "i" || Ascii.eqb d "e"))
             (heading "subsection"))
    by (by apply text_clear || by apply anchored2_lit);
  rewrite (replace_str_clear "\"
             (fun d : ascii => negb (Ascii.eqb d "b" || Ascii.eqb d "i" || Ascii.eqb d "e"))
             (heading "subsubsection"))
    by (by apply text_clear || by apply anchored2_lit);
  rewrite (replace_str_clear "\"
             (fun d : ascii => negb (Ascii.eqb d "b" || Ascii.eqb d "i" || Ascii.eqb d "e"))
             (command1 "textbf"))
    by (by apply text_clear || by apply anchored2_lit);
  rewrite (replace_str_clear "\"
             (fun d : ascii => negb (Ascii.eqb d "b" || Ascii.eqb d "i" || Ascii.eqb d "e"))
             (command1 "textit"))
    by (by apply text_clear || by apply anchored2_lit);
  rewrite (emph_pass pre post env items Hpre Hpost Hitems Henv);
  rewrite (replace_str_clear "\"
             (fun d : ascii => negb (Ascii.eqb d "b" || Ascii.eqb d "i" || Ascii.eqb d "e"))
             (command1 "url"))
    by (by apply text_clear || by apply anchored2_lit);
  rewrite (replace_str_clear "\"
             (fun d : ascii => negb (Ascii.eqb d "b" || Ascii.eqb d "i" || Ascii.eqb d "e"))
             (command1 "paragraph"))
    by (by apply text_clear || by apply anchored2_lit);
  rewrite (replace_str_plain "~" tildePattern)
    by (apply anchored_lit || by apply text_not);
  rewrite (replace_str_clear "\"
             (fun d : ascii => negb (Ascii.eqb d "b" || Ascii.eqb d "i" || Ascii.eqb d "e"))
             (Lit "\footnote{" · _))
    by (by apply text_clear || by apply anchored2_lit).

(** X28: an [itemize] environment whose items are running text becomes one
    line per item, in order, each item after a dash and a space; the text
    around the environment is left as it is. *)
Theorem processSection_itemize (pre post : string) (items : list string) :
  inert pre = true -> inert post = true -> forallb list_item items = true ->
  processSection (pre +:+ list_env "itemize" items +:+ post)
  = pre +:+ join nl (map (fun it => "- " +:+ it) items) +:+ post.
Proof.
  intros Hpre Hpost Hitems.
  pose proof (itemized_plain pre post items Hpre Hpost Hitems) as Hplain.
  assert (Henv : inert "itemize" = true) by done.
  early_passes pre post "itemize" items Hpre Hpost Hitems Henv.
  rewrite (replace_fn_single "\" (listPattern "itemize") itemize_cb pre
             (list_env "itemize" items) post [(1, nl +:+ list_text items)]);
    [|apply anchored_lit|by apply inert_not|by apply inert_not
     |intros; by apply list_match|done
     |intros; by rewrite !itemize_cb_items].
  rewrite itemize_cb_items by done.
  rewrite (replace_fn_plain "\" (listPattern "enumerate")) by (done || apply anchored_lit).
  rewrite (replace_str_plain "\" (Lit "\mbox{" · _)) by (done || apply anchored_lit).
  apply (replace_fn_plain "\"); [apply anchored_lit|done].
Qed.

Lemma processSection_itemize_witness :
  processSection ("Steps: " +:+ list_env "itemize" ["first one"; "second"] +:+ " done")
  = "Steps: " +:+ join nl (map (fun it => "- " +:+ it) ["first one"; "second"])
    +:+ " done".
Proof.
  apply (processSection_itemize "Steps: " " done" ["first one"; "second"]);
    reflexivity.
Defined.

(** The [itemize] pass finds nothing in a text whose only environment is
    an [enumerate]. *)
Lemma itemize_pass_enumerate pre post items f :
  inert pre = true -> inert post = true -> forallb list_item items = true ->
  replace_fn (listPattern "itemize") f (pre +:+ list_env "enumerate" items +:+ post)
  = pre +:+ list_env "enumerate" items +:+ post.
Proof.
  intros Hpre Hpost Hitems.
  assert (Henv : inert "enumerate" = true) by done.
  unfold replace_fn, tokens.
  rewrite (listing_split pre post "enumerate" items).
  rewrite (scan_app_plain "\") by (apply anchored_lit || by apply inert_not).
  rewrite scan_miss by done.
  rewrite (scan_clear "\" (is_char "b"));
    [|by apply anchored2_lit|by apply inner_clear].
  rewrite render_app, render_chars. cbn [render]. by rewrite render_chars.
Qed.

(** X29: an [enumerate] environment whose items are running text becomes
    one line per item, in order, numbered 1., 2., ... ; the text around the
    environment is left as it is. *)
Theorem processSection_enumerate (pre post : string) (items : list string) :
  inert pre = true -> inert post = true -> forallb list_item items = true ->
  processSection (pre +:+ list_env "enumerate" items +:+ post)
  = pre +:+ join nl (imap (fun n it => nat_to_string (S n) +:+ ". " +:+ it) items)
    +:+ post.
Proof.
  intros Hpre Hpost Hitems.
  pose proof (enumerated_plain pre post items Hpre Hpost Hitems) as Hplain.
  assert (Henv : inert "enumerate" = true) by done.
  early_passes pre post "enumerate" items Hpre Hpost Hitems Henv.
  rewrite itemize_pass_enumerate by done.
  rewrite (replace_fn_single "\" (listPattern "enumerate") enumerate_cb pre
             (list_env "enumerate" items) post [(1, nl +:+ list_text items)]);
    [|apply anchored_lit|by apply inert_not|by apply inert_not
     |intros; by apply list_match|done
     |intros; by rewrite !enumerate_cb_items].
  rewrite enumerate_cb_items by done.
  rewrite (replace_str_plain "\" (Lit "\mbox{" · _)) by (done || apply anchored_lit).
  apply (replace_fn_plain "\"); [apply anchored_lit|done].
Qed.

Lemma processSection_enumerate_witness :
  processSection ("Steps: " +:+ list_env "enumerate" ["first one"; "second"] +:+ " done")
  = "Steps: "
    +:+ join nl (imap (fun n it => nat_to_string (S n) +:+ ". " +:+ it)
                   ["first one"; "second"])
    +:+ " done".
Proof.
  apply (processSection_enumerate "Steps: " " done" ["first one"; "second"]);
    reflexivity.
Defined.

End ListSpec.

(** ** A citation of an unknown key, through the whole section pipeline *)

Module PipelineMore.
Import Js Re ReFacts Text ReMore TextFacts Shape TextMore SplitFacts Prose.
Import TablesSpec MathFreeSpec PipelineSpec Pipeline.
#[local] Arguments String.append !_ _ /.

(** The badge pass leaves the bracketed key of no bibliography entry as it
    is, unless the key is a member name of [Object.prototype]. *)
Lemma citeBadges_unknown bibliography pre k post :
  prose pre = true -> prose post = true -> valid_key k = true ->
  Citations.known bibliography k = false -> JsObj.inherited k = false ->
  Citations.citeBadges bibliography (pre +:+ ("[" +:+ k +:+ "]") +:+ post)
  = pre +:+ ("[" +:+ k +:+ "]") +:+ post.
Proof.
  intros Hpre Hpost Hk Hknown Hin. unfold Citations.citeBadges.
  rewrite (replace_fn_single "[" Citations.bracketPattern _ pre
             ("[" +:+ k +:+ "]") post [(1, k)]);
    [|apply CitationsMore.bracketPattern_anchored|by apply prose_not
     |by apply prose_not| |done|done].
  2: { intros idx prev. by apply CitationsMore.bracket_match. }
  f_equal. f_equal. unfold Citations.badge_cb, group.
  cbn [m_groups get_cap Nat.eqb default id m_text].
  rewrite CitationsMore.parts_of_valid by done.
  rewrite CitationsSpec.anyMatch_known by (by repeat constructor).
  cbn [existsb]. by rewrite Hknown.
Qed.

(** X30: a [\cite{key}] in a paragraph of running text whose key belongs to
    no bibliography entry (and is no member name of [Object.prototype])
    comes out of the section pipeline as the key in square brackets, inside
    the paragraph in [<p>] tags: no badge is made. *)
Theorem processContent_cite_unknown (katex : RenderMath.typesetter)
  (varDescriptions : JsObj.entries string)
  (figures : list Figures.figure) (labels : gmap string Labels.label)
  (bibliography : list Citations.bibentry) (pre k post : string)
  (table : RenderMath.store) :
  prose pre = true -> prose post = true -> starts_alpha pre = true ->
  valid_key k = true ->
  Citations.known bibliography k = false -> JsObj.inherited k = false ->
  processContent
    (fun text => RenderMath.Second.renderAllMath katex text varDescriptions)
    figures labels bibliography
    (pre +:+ ("\cite{" +:+ k +:+ "}") +:+ post) table
  = ("<p>" +:+ pre +:+ ("[" +:+ k +:+ "]") +:+ trimEnd post +:+ "</p>", table).
Proof.
  intros Hpre Hpost Ha Hk Hknown Hin. unfold processContent. cbv zeta.
  rewrite normalizeCitations_cited by done.
  rewrite bibliographyBlock_cited by done.
  rewrite processSection_cited by done.
  pose proof (bracketed_not pre k post Hpre Hpost Hk "\" eq_refl eq_refl eq_refl)
    as Hplain.
  pose proof (bracketed_not pre k post Hpre Hpost Hk "$" eq_refl eq_refl eq_refl)
    as Hdollar.
  pose proof (bracketed_not pre k post Hpre Hpost Hk (chr 10) eq_refl eq_refl eq_refl)
    as Hline.
  rewrite replaceFiguresInText_plain by done.
  rewrite convertTables_plain by done.
  rewrite resolveRefs_plain by done.
  unfold mbind, RenderMath.M_bind, RenderMath.Second.renderAllMath.
  rewrite renderAll_math_free by done.
  rewrite citeBadges_unknown by done.
  rewrite wrapParagraphs_one; [|by destruct pre|done].
  unfold mret, RenderMath.M_ret. f_equal.
  rewrite <- !app_assoc. rewrite trimEnd_app; [by rewrite !app_assoc|].
  by repeat apply last_ok_app.
Qed.

Lemma processContent_cite_unknown_witness :
  processContent
    (fun text => RenderMath.Second.renderAllMath RenderMath.lookupTypesetter text [])
    [] ∅ Citations.example_bibliography
    ("As shown in " +:+ ("\cite{" +:+ "he2016" +:+ "}") +:+ ", it works. ") ∅
  = ("<p>" +:+ "As shown in " +:+ ("[" +:+ "he2016" +:+ "]")
     +:+ trimEnd ", it works. " +:+ "</p>", ∅).
Proof.
  apply (processContent_cite_unknown RenderMath.lookupTypesetter [] [] ∅
           Citations.example_bibliography "As shown in " "he2016"
           ", it works. " ∅); reflexivity.
Defined.

End PipelineMore.

(** ** The calls of [replaceFiguresInText] *)

Module FiguresCalls.
Import Js Re ReFacts Text ReMore TextFacts Shape TextMore SplitFacts Prose.
Import TablesSpec PipelineSpec KatexMacrosSpec TabularSpec Figures FiguresSpec.
#[local] Arguments String.append !_ _ /.

(** The HTML that the callback writes for a figure, and what it returns for
    [figures[k]]: nothing when there is no such figure or when the figure
    has no image. *)
Local Notation "'figure_at' figures k" :=
  (match figures !! k with
   | Some fig =>
       match images fig with
       | [] => EmptyString
       | _ :: _ =>
           nl +:+ "<figure id=" +:+ dq +:+ label fig +:+ dq +:+ ">" +:+ nl
           +:+ join nl
                 (map (fun img =>
                         "<img src=" +:+ dq +:+ "./figures/" +:+ img +:+ dq
                         +:+ " alt=" +:+ dq +:+ escapeHtml (caption fig) +:+ dq
                         +:+ " loading=" +:+ dq +:+ "lazy" +:+ dq
                         +:+ " style=" +:+ dq +:+ "max-width:100%" +:+ dq +:+ ">")
                    (images fig))
           +:+ nl +:+ "<figcaption><strong>Figure " +:+ nat_to_string (id fig)
           +:+ ".</strong> " +:+ escapeHtml (caption fig) +:+ "</figcaption>"
           +:+ nl +:+ "</figure>" +:+ nl
       end
   | None => EmptyString
   end) (at level 10, figures at level 9, k at level 9, only parsing).











(** *** Figures without a usable image *)






End FiguresCalls.

(** ** Texts with any number of reference and label commands *)

Module RefsStream.
Import Js Re ReFacts Text ReMore TextFacts Shape TextMore SplitFacts Prose.
Import TablesSpec PipelineSpec KatexMacrosSpec Labels Commands.
#[local] Arguments String.append !_ _ /.

Lemma resolveRefs_passes text labels :
  resolveRefs text labels
  = fold_left
      (fun result c => replace_fn (keyed (command_name c)) (callback labels c) result)
      [Eqref; Ref; Autoref; LabelCmd] text.
Proof. reflexivity. Qed.

Lemma keyed_guarded c :
  guarded (fun s => startsWith s ("\" +:+ command_name c +:+ "{"))
    (keyed (command_name c)).
Proof. apply guarded_lit. Qed.

(** A stretch in which the pattern does not begin is passed over, when no
    match can begin in it and run over its end. *)
Lemma scan_quiet h t r s rest :
  guarded (fun x => startsWith x (String h t)) r ->
  includes s (String h t) = false ->
  match rest with
  | EmptyString => True
  | String g _ => all_chars (not_char g) t = true
  end ->
  forall idx prev,
    scan r 0 idx prev (s +:+ rest)
    = chars s ++ scan r 0 (idx + String.length s) (last_char s prev) rest.
Proof.
  intros Hg Hs Hrest. induction s as [|c s IH]; intros idx prev.
  - cbn [String.append chars app String.length last_char]. by rewrite Nat.add_0_r.
  - apply includes_cons in Hs as [Hc Hs].
    change (String c s +:+ rest) with (String c (s +:+ rest)).
    cbn [scan chars app]. unfold match_at. rewrite Hg.
    + rewrite IH by done. cbn [String.length last_char]. do 3 f_equal. lia.
    + cbn [m_rest]. unfold startsWith in *. rewrite strip_prefix_cons in *.
      destruct (Ascii.eqb h c); [|done].
      destruct rest as [|g y].
      * by rewrite app_nil_r.
      * rewrite strip_prefix_straddle; [done|done|].
        by destruct (strip_prefix t s).
Qed.

Lemma quiet_free c s :
  quiet s = true -> includes s ("\" +:+ command_name c +:+ "{") = false.
Proof.
  unfold quiet. intros H.
  repeat (apply andb_prop in H as [H ?]).
  destruct c; by apply negb_true_iff.
Qed.

Lemma safe_char_tail c g :
  safe_char g = true -> all_chars (not_char g) (command_name c +:+ "{") = true.
Proof.
  unfold safe_char. cbn [all_chars]. intros H.
  repeat (apply andb_prop in H as [? H]).
  destruct c; cbn [command_name String.append all_chars];
    repeat (apply andb_true_intro; split); done.
Qed.

Lemma safe_head_rest c rest :
  safe_head rest = true ->
  match rest with
  | EmptyString => True
  | String g _ => all_chars (not_char g) (command_name c +:+ "{") = true
  end.
Proof. destruct rest as [|g y]; [done|]. apply safe_char_tail. Qed.

Lemma key_ok_parts key :
  key_ok key = true ->
  key <> EmptyString /\ all_chars (not_char "}") key = true /\ quiet key = true.
Proof.
  unfold key_ok. intros [[H1 H2]%andb_prop H3]%andb_prop.
  repeat split; [|done|done]. intros ->. done.
Qed.

(** The callback of a pass writes the stretches of [output]. *)
Lemma callback_output labels c idx txt key :
  callback labels c (JsMatch idx txt [(1, key)]) = text_of (output labels c key).
Proof.
  destruct c; unfold callback, output, eqref_cb, cross_ref, anchor_cb, group;
    cbn [m_groups get_cap Nat.eqb default id]; cbv zeta;
    try destruct (labels !! key) as [l|];
    unfold text_of; cbn [map chunk_text concat_all foldr];
    rewrite ?app_nil_r, ?app_assoc; reflexivity.
Qed.

Lemma text_of_cons ch chs : text_of (ch :: chs) = chunk_text ch +:+ text_of chs.
Proof. reflexivity. Qed.

Lemma text_of_app chs1 chs2 : text_of (chs1 ++ chs2) = text_of chs1 +:+ text_of chs2.
Proof.
  induction chs1 as [|ch chs1 IH]; [done|].
  cbn [app]. rewrite !text_of_cons, IH. by rewrite app_assoc.
Qed.

Lemma chars_app a b : chars (a +:+ b) = chars a ++ chars b.
Proof. induction a as [|c a IH]; [done|]. cbn [String.append chars app]. by rewrite IH. Qed.

(** A command of another pass is left as it is written. *)
Lemma scan_other c c0 key rest idx prev :
  command_eqb c c0 = false ->
  key_ok key = true ->
  scan (keyed (command_name c0)) 0 idx prev (written c key +:+ rest)
  = chars (written c key)
    ++ scan (keyed (command_name c0)) 0 (idx + String.length (written c key))
         (Some "}"%char) rest.
Proof.
  intros Hc Hkey. apply key_ok_parts in Hkey as (_ & _ & Hq).
  unfold written. rewrite !app_assoc.
  change ("\" +:+ command_name c +:+ "{" +:+ key +:+ "}" +:+ rest)
    with (String "\" (command_name c +:+ "{" +:+ key +:+ "}" +:+ rest)).
  rewrite scan_miss.
  2: { unfold match_at. rewrite keyed_guarded; [done|].
       cbn [m_rest]. by destruct c, c0. }
  rewrite <- (app_assoc (command_name c) "{").
  rewrite (scan_app_plain "\") by (apply RefsSpec.keyed_anchored || by destruct c).
  assert (Hq0 := quiet_free c0 key Hq).
  change ("\" +:+ command_name c0 +:+ "{")
    with (String "\" (command_name c0 +:+ "{")) in Hq0.
  rewrite (scan_quiet "\" (command_name c0 +:+ "{") _ key ("}" +:+ rest)
             (keyed_guarded c0) Hq0) by by destruct c0.
  rewrite (scan_app_plain "\" _ "}") by (apply RefsSpec.keyed_anchored || done).
  change ("\" +:+ command_name c +:+ "{" +:+ key +:+ "}")
    with (String "\" (command_name c +:+ "{" +:+ key +:+ "}")).
  rewrite <- (app_assoc (command_name c) "{").
  cbn [chars]. rewrite !chars_app. cbn [app]. rewrite <- !List.app_assoc.
  do 4 f_equal. cbn [String.length last_char]. rewrite !length_app.
  cbn [String.length chars app]. do 2 f_equal. lia.
Qed.

(** One pass over a text in stretches rewrites the commands of the pass
    and nothing else. *)
Lemma pass_scan labels c0 chs : forall idx prev,
  wf chs = true ->
  render (callback labels c0)
    (scan (keyed (command_name c0)) 0 idx prev (text_of chs))
  = text_of (flat_map (pass labels c0) chs).
Proof.
  induction chs as [|ch chs IH]; intros idx prev Hwf.
  - change (text_of []) with EmptyString. cbn [flat_map].
    by rewrite (scan_free _ _ (keyed_guarded c0)) by by destruct c0.
  - rewrite text_of_cons. cbn [flat_map]. rewrite text_of_app.
    destruct ch as [s|s|c key]; cbn [wf] in Hwf.
    + apply andb_prop in Hwf as [Hs Hwf]. cbn [chunk_text pass].
      rewrite (scan_app_plain "\") by (apply RefsSpec.keyed_anchored || done).
      rewrite render_app, render_chars, IH by done.
      unfold text_of at 2. cbn [map chunk_text concat_all foldr].
      by rewrite app_nil_r.
    + apply andb_prop in Hwf as [[Hs Hh]%andb_prop Hwf]. cbn [chunk_text pass].
      assert (Hq0 := quiet_free c0 s Hs).
      change ("\" +:+ command_name c0 +:+ "{")
        with (String "\" (command_name c0 +:+ "{")) in Hq0.
      rewrite (scan_quiet "\" (command_name c0 +:+ "{") _ s (text_of chs)
                 (keyed_guarded c0) Hq0) by by apply safe_head_rest.
      rewrite render_app, render_chars, IH by done.
      unfold text_of at 2. cbn [map chunk_text concat_all foldr].
      by rewrite app_nil_r.
    + apply andb_prop in Hwf as [Hkey Hwf]. cbn [chunk_text pass].
      destruct (command_eqb c c0) eqn:Hc.
      * assert (c = c0) as -> by by destruct c, c0.
        pose proof (key_ok_parts key Hkey) as (Hne & Hbrace & _).
        unfold written.
        erewrite scan_match;
          [|rewrite (app_assoc3 ("\" +:+ command_name c0 +:+ "{") key "}");
            by apply RefsSpec.keyed_match|reflexivity|].
        2: { by destruct c0. }
        cbn [render]. rewrite callback_output, IH by done. done.
      * rewrite scan_other by done.
        rewrite render_app, render_chars, IH by done.
        unfold text_of at 2. cbn [map chunk_text concat_all foldr].
        by rewrite app_nil_r.
Qed.

Lemma pass_replace labels c0 chs :
  wf chs = true ->
  replace_fn (keyed (command_name c0)) (callback labels c0) (text_of chs)
  = text_of (flat_map (pass labels c0) chs).
Proof. intros H. unfold replace_fn, tokens. by apply pass_scan. Qed.

Lemma output_head labels c key rest :
  safe_head (text_of (output labels c key ++ rest)) = true.
Proof. destruct c; cbn [output]; try destruct (labels !! key); reflexivity. Qed.

Lemma pass_head labels c0 chs :
  safe_head (text_of chs) = true ->
  safe_head (text_of (flat_map (pass labels c0) chs)) = true.
Proof.
  induction chs as [|ch chs IH]; [done|]. cbn [flat_map].
  destruct ch as [s|s|c key]; cbn [pass].
  - cbn [app]. rewrite !text_of_cons. cbn [chunk_text].
    destruct s as [|g s]; [exact IH|done].
  - cbn [app]. rewrite !text_of_cons. cbn [chunk_text].
    destruct s as [|g s]; [exact IH|done].
  - intros _. destruct (command_eqb c c0); [apply output_head|done].
Qed.

Lemma output_wf labels c key rest :
  key_ok key = true -> wf rest = true -> wf (output labels c key ++ rest) = true.
Proof.
  intros Hkey Hrest. apply key_ok_parts in Hkey as (_ & _ & Hq).
  assert (Hdq : forall x y, safe_head (text_of (Plain (dq +:+ x) :: y)) = true)
    by reflexivity.
  pose proof RefsMore.number_plain as Hnum.
  pose proof RefsMore.prefix_plain as Hpre.
  destruct c; cbn [output]; try destruct (labels !! key) as [l|];
    cbn [app wf]; rewrite ?Hq, ?Hdq, ?Hrest, ?andb_true_r; try reflexivity;
    rewrite !plain_app, ?Hnum; try reflexivity.
  - by destruct (Hpre (type l)) as [-> _].
  - by destruct (Hpre (type l)) as [_ ->].
Qed.

Lemma pass_wf labels c0 chs :
  wf chs = true -> wf (flat_map (pass labels c0) chs) = true.
Proof.
  induction chs as [|ch chs IH]; [done|]. cbn [flat_map].
  destruct ch as [s|s|c key]; cbn [pass wf app].
  - intros [Hs Hwf]%andb_prop. by rewrite Hs, IH.
  - intros [[Hs Hh]%andb_prop Hwf]%andb_prop.
    by rewrite Hs, pass_head, IH.
  - intros [Hkey Hwf]%andb_prop.
    destruct (command_eqb c c0); [by apply output_wf; [|apply IH]|].
    cbn [app wf]. by rewrite Hkey, IH.
Qed.

(** The four passes over a text in stretches. *)
Lemma resolveRefs_chunks labels chs :
  wf chs = true ->
  resolveRefs (text_of chs) labels
  = text_of
      (flat_map (pass labels LabelCmd)
         (flat_map (pass labels Autoref)
            (flat_map (pass labels Ref)
               (flat_map (pass labels Eqref) chs)))).
Proof.
  intros H. rewrite resolveRefs_passes. cbn [fold_left].
  rewrite (pass_replace labels Eqref) by done.
  rewrite (pass_replace labels Ref) by by apply pass_wf.
  rewrite (pass_replace labels Autoref) by by do 2 apply pass_wf.
  by rewrite (pass_replace labels LabelCmd) by by do 3 apply pass_wf.
Qed.

Lemma chunks_of_text items tail :
  text_of (chunks_of items tail) = with_commands items tail.
Proof.
  unfold chunks_of. induction items as [|i items IH].
  - unfold text_of. cbn. apply app_nil_r.
  - cbn [flat_map app with_commands]. rewrite !text_of_cons, IH. done.
Qed.

Lemma chunks_of_wf items tail :
  forallb invocation_ok items = true -> quiet tail = true ->
  wf (chunks_of items tail) = true.
Proof.
  intros Hi Ht. unfold chunks_of. induction items as [|i items IH].
  - cbn [flat_map app wf]. by rewrite Ht.
  - cbn [forallb] in Hi. apply andb_prop in Hi as [[H1 H2]%andb_prop Hi].
    cbn [flat_map app wf]. rewrite H1, H2, IH by done.
    rewrite andb_true_r. cbn [andb]. by destruct (inv_cmd i).
Qed.

Lemma passes_item labels t c key rest :
  flat_map (pass labels LabelCmd)
    (flat_map (pass labels Autoref)
       (flat_map (pass labels Ref)
          (flat_map (pass labels Eqref) (Quiet t :: Cmd c key :: rest))))
  = Quiet t
    :: output labels c key
       ++ flat_map (pass labels LabelCmd)
            (flat_map (pass labels Autoref)
               (flat_map (pass labels Ref)
                  (flat_map (pass labels Eqref) rest))).
Proof.
  destruct c; cbn [flat_map pass command_eqb app output];
    try destruct (labels !! key) as [l|];
    cbn [flat_map pass command_eqb app output]; reflexivity.
Qed.

Lemma passes_chunks_of labels items tail :
  text_of
    (flat_map (pass labels LabelCmd)
       (flat_map (pass labels Autoref)
          (flat_map (pass labels Ref)
             (flat_map (pass labels Eqref) (chunks_of items tail)))))
  = concat_all
      (map (fun i => inv_text i
                     +:+ text_of (output labels (inv_cmd i) (inv_key i))) items)
    +:+ tail.
Proof.
  induction items as [|[t c key] items IH].
  - unfold text_of. cbn. apply app_nil_r.
  - change (chunks_of (Invocation t c key :: items) tail)
      with (Quiet t :: Cmd c key :: chunks_of items tail).
    rewrite passes_item, text_of_cons, text_of_app, IH.
    cbn [map concat_all foldr chunk_text inv_text inv_cmd inv_key].
    by rewrite !app_assoc.
Qed.

(** The rewriting of a text with commands, command by command. *)
Lemma resolveRefs_commands labels items tail :
  forallb invocation_ok items = true -> quiet tail = true ->
  resolveRefs (with_commands items tail) labels
  = concat_all
      (map (fun i => inv_text i
                     +:+ text_of (output labels (inv_cmd i) (inv_key i))) items)
    +:+ tail.
Proof.
  intros Hi Ht. rewrite <- chunks_of_text.
  rewrite resolveRefs_chunks by by apply chunks_of_wf.
  apply passes_chunks_of.
Qed.

(** Commands with an empty key are not recognised by any of the four
    passes: the text comes back as it was written. *)
Lemma empty_keys_left :
  resolveRefs "\eqref{} \ref{} \autoref{} \label{}" ∅
  = "\eqref{} \ref{} \autoref{} \label{}".
Proof. vm_compute. reflexivity. Qed.

(** C6, counterexample: a reference with an empty key is not recognised by
    the pattern of its pass, which asks for one character at least; it
    stays in the output as it was written, and no question mark is
    produced. *)
Lemma resolveRefs_empty_key_unrewritten :
  ~ (forall (labels : gmap string label) (key : string),
       labels !! key = None ->
       includes (resolveRefs ("\ref{" +:+ key +:+ "}") labels) "?" = true).
Proof.
  intros H. specialize (H ∅ EmptyString (lookup_empty _)).
  assert (E : resolveRefs ("\ref{" +:+ EmptyString +:+ "}") ∅ = "\ref{}")
    by (vm_compute; reflexivity).
  rewrite E in H. discriminate H.
Qed.

(** C6, as amended: in a text with any number of reference and label
    commands, every [\eqref] whose key is not empty and has no entry in the
    label table is rewritten to [(?)] and every such [\ref] and [\autoref]
    to [?], while the label commands become their anchors and the text
    between the commands is kept; the rewriting is a total function of the
    text and the table, so nothing is thrown.  The keys hold no closing
    brace, and neither they nor the text between the commands hold one of
    the four commands; any other command may stand there. *)
Theorem resolveRefs_unresolved (labels : gmap string label)
  (items : list invocation) (tail : string) :
  forallb invocation_ok items = true ->
  quiet tail = true ->
  Forall (fun i => inv_cmd i <> LabelCmd -> labels !! inv_key i = None) items ->
  resolveRefs (with_commands items tail) labels
  = concat_all
      (map (fun i =>
              inv_text i
              +:+ match inv_cmd i with
                  | Eqref => "(?)"
                  | Ref => "?"
                  | Autoref => "?"
                  | LabelCmd =>
                      "<span id=" +:+ dq +:+ inv_key i +:+ dq +:+ " class=" +:+ dq
                      +:+ "label-anchor" +:+ dq +:+ "></span>"
                  end) items)
    +:+ tail.
Proof.
  intros Hi Ht Hnone. rewrite resolveRefs_commands by done.
  do 2 f_equal. apply map_ext_Forall. eapply Forall_impl; [exact Hnone|].
  intros [t c key] H. cbn [inv_text inv_cmd inv_key] in *. f_equal.
  destruct c; cbn [output]; try rewrite H by done;
    unfold text_of; cbn [map chunk_text concat_all foldr];
    rewrite ?app_nil_r, ?app_assoc; reflexivity.
Qed.

Lemma resolveRefs_unresolved_witness :
  resolveRefs (with_commands example_invocations ".") ∅
  = concat_all
      (map (fun i =>
              inv_text i
              +:+ match inv_cmd i with
                  | Eqref => "(?)"
                  | Ref => "?"
                  | Autoref => "?"
                  | LabelCmd =>
                      "<span id=" +:+ dq +:+ inv_key i +:+ dq +:+ " class=" +:+ dq
                      +:+ "label-anchor" +:+ dq +:+ "></span>"
                  end) example_invocations)
    +:+ ".".
Proof.
  apply (resolveRefs_unresolved ∅ example_invocations ".").
  - reflexivity.
  - reflexivity.
  - repeat constructor.
Defined.

(** X5: in a text with any number of label and reference commands, every
    [\label] command whose key is not empty is rewritten to an anchor
    element that carries the key as its id, whether or not the key is in
    the table; the references around it become links where their keys are
    in the table and question marks where they are not, and the text
    between the commands is kept.  The keys hold no closing brace, and
    neither they nor the text between the commands hold one of the four
    commands. *)
Theorem resolveRefs_label_anchor (labels : gmap string label)
  (items : list invocation) (tail : string) :
  forallb invocation_ok items = true ->
  quiet tail = true ->
  resolveRefs (with_commands items tail) labels
  = concat_all
      (map (fun i =>
              inv_text i
              +:+ match inv_cmd i, labels !! inv_key i with
                  | LabelCmd, _ =>
                      "<span id=" +:+ dq +:+ inv_key i +:+ dq +:+ " class=" +:+ dq
                      +:+ "label-anchor" +:+ dq +:+ "></span>"
                  | Eqref, Some l =>
                      "<a href=" +:+ dq +:+ "#" +:+ inv_key i +:+ dq +:+ " class="
                      +:+ dq +:+ "eq-ref" +:+ dq +:+ ">("
                      +:+ number_to_string (number l) +:+ ")</a>"
                  | Ref, Some l =>
                      "<a href=" +:+ dq +:+ "#" +:+ inv_key i +:+ dq +:+ " class="
                      +:+ dq +:+ "cross-ref" +:+ dq +:+ ">" +:+ ref_prefix (type l)
                      +:+ " " +:+ number_to_string (number l) +:+ "</a>"
                  | Autoref, Some l =>
                      "<a href=" +:+ dq +:+ "#" +:+ inv_key i +:+ dq +:+ " class="
                      +:+ dq +:+ "cross-ref" +:+ dq +:+ ">"
                      +:+ autoref_prefix (type l)
                      +:+ " " +:+ number_to_string (number l) +:+ "</a>"
                  | Eqref, None => "(?)"
                  | _, None => "?"
                  end) items)
    +:+ tail.
Proof.
  intros Hi Ht. rewrite resolveRefs_commands by done.
  do 2 f_equal. apply map_ext. intros [t c key].
  cbn [inv_text inv_cmd inv_key]. f_equal.
  destruct c; cbn [output]; try destruct (labels !! key) as [l|];
    unfold text_of; cbn [map chunk_text concat_all foldr];
    rewrite ?app_nil_r, ?app_assoc; reflexivity.
Qed.

Lemma resolveRefs_label_anchor_witness :
  resolveRefs (with_commands example_invocations ".") example_labels
  = concat_all
      (map (fun i =>
              inv_text i
              +:+ match inv_cmd i, example_labels !! inv_key i with
                  | LabelCmd, _ =>
                      "<span id=" +:+ dq +:+ inv_key i +:+ dq +:+ " class=" +:+ dq
                      +:+ "label-anchor" +:+ dq +:+ "></span>"
                  | Eqref, Some l =>
                      "<a href=" +:+ dq +:+ "#" +:+ inv_key i +:+ dq +:+ " class="
                      +:+ dq +:+ "eq-ref" +:+ dq +:+ ">("
                      +:+ number_to_string (number l) +:+ ")</a>"
                  | Ref, Some l =>
                      "<a href=" +:+ dq +:+ "#" +:+ inv_key i +:+ dq +:+ " class="
                      +:+ dq +:+ "cross-ref" +:+ dq +:+ ">" +:+ ref_prefix (type l)
                      +:+ " " +:+ number_to_string (number l) +:+ "</a>"
                  | Autoref, Some l =>
                      "<a href=" +:+ dq +:+ "#" +:+ inv_key i +:+ dq +:+ " class="
                      +:+ dq +:+ "cross-ref" +:+ dq +:+ ">"
                      +:+ autoref_prefix (type l)
                      +:+ " " +:+ number_to_string (number l) +:+ "</a>"
                  | Eqref, None => "(?)"
                  | _, None => "?"
                  end) example_invocations)
    +:+ ".".
Proof.
  apply (resolveRefs_label_anchor example_labels example_invocations ".");
    reflexivity.
Defined.

End RefsStream.
